(** * tornado.locks and tornado.queues: a shallow embedding

    The coordination primitives of [tornado/locks.py] and
    [tornado/queues.py] as functions over an explicit world: a store of
    futures (shared by every waiter list that points into it) and the
    I/O loop's table of scheduled timeouts.  Python integers are [Z];
    the identity of a [Future] object is its index in the store. *)

From Stdlib Require Import ZArith String Lia Sorted.
From stdpp Require Import base tactics option list.

Local Open Scope Z_scope.

(** ** Exceptions and results *)

Inductive exn :=
  | TimeoutError
  | ValueError (msg : string)
  | RuntimeError (msg : string)
  | TypeError (msg : string)
  | AssertionError (msg : string)
  | IndexError
  | QueueEmpty
  | QueueFull.

(** A call either returns a value or raises; the state it leaves behind
    is kept in both cases, since Python's mutations are not rolled back
    by an exception. *)
Inductive res (S R : Type) :=
  | Return (r : R) (s : S)
  | Raise (e : exn) (s : S).
Arguments Return {S R} r s.
Arguments Raise {S R} e s.

Definition state_of {S R} (x : res S R) : S :=
  match x with Return _ s => s | Raise _ s => s end.

Definition raised {S R} (x : res S R) : option exn :=
  match x with Return _ _ => None | Raise e _ => Some e end.

(** ** The [timeout] argument

    [None], an absolute time, or a [datetime.timedelta]; the clock is
    counted in integer ticks.  [truthy] is Python's truth value, the test
    made by [if timeout:]. *)
Inductive timeout_arg :=
  | TNone
  | TDeadline (t : Z)
  | TDelta (d : Z).

Definition truthy (timeout : timeout_arg) : bool :=
  match timeout with
  | TNone => false
  | TDeadline t => negb (t =? 0)
  | TDelta d => negb (d =? 0)
  end.

Section World.

(** The type of the items carried by a queue. *)
Context {A : Type}.

(** What a future is resolved with in these two modules: [True]/[False]
    (Condition), a [_ReleasingContextManager] (Semaphore), [None]
    (Event, putters) or a queue item (getters). *)
Inductive value :=
  | VBool (b : bool)
  | VNone
  | VReleasingContextManager
  | VItem (a : A).

Inductive outcome :=
  | Result (v : value)
  | Exception (e : exn).

(** Modelled from the spec: [tornado.concurrent.Future] is not among the
    sources; section 6 gives its contract: created unresolved, resolved
    once with a value or a failure (single assignment), completion
    callbacks, a done query.  The only callbacks these modules register
    are [lambda _: io_loop.remove_timeout(timeout_handle)], so a callback
    is kept as the handle it removes. *)
Record Future := mkFuture {
  _result : option outcome;
  _callbacks : list nat
}.

(** Modelled from the spec: [tornado.ioloop.IOLoop] is not among the
    sources; section 6 gives its contract: schedule a callback at a time
    and get a handle back, cancel by handle (no effect once fired), run a
    due callback.  Every callback scheduled here is an [on_timeout]
    closure over one waiter, so a scheduled entry keeps the handle, the
    timeout and that waiter. *)
Record IOLoop := mkIOLoop {
  _next_handle : nat;
  _scheduled : list (nat * (timeout_arg * nat))
}.

Record World := mkWorld {
  futures : list Future;
  io_loop : IOLoop
}.

Definition World_empty : World :=
  mkWorld [] (mkIOLoop 0 []).

(** [Future()] *)
Definition Future_new (w : World) : nat * World :=
  (length (futures w),
   mkWorld (futures w ++ [mkFuture None []]) (io_loop w)).

Definition outcome_of (f : nat) (w : World) : option outcome :=
  match futures w !! f with
  | Some fut => _result fut
  | None => None
  end.

(** [future.done()] *)
Definition done (f : nat) (w : World) : bool :=
  match outcome_of f w with
  | Some _ => true
  | None => false
  end.

(** [io_loop.add_timeout(timeout, on_timeout)] *)
Definition add_timeout (timeout : timeout_arg) (waiter : nat) (w : World)
  : nat * World :=
  let h := _next_handle (io_loop w) in
  (h, mkWorld (futures w)
        (mkIOLoop (S h) (_scheduled (io_loop w) ++ [(h, (timeout, waiter))]))).

(** [io_loop.remove_timeout(handle)] *)
Definition remove_timeout (h : nat) (w : World) : World :=
  mkWorld (futures w)
    (mkIOLoop (_next_handle (io_loop w))
       (filter (λ e, negb (Nat.eqb (fst e) h)) (_scheduled (io_loop w)))).

(** [future.add_done_callback(lambda _: io_loop.remove_timeout(h))] on a
    future that is still pending. *)
Definition add_done_callback (f h : nat) (w : World) : World :=
  mkWorld
    (alter (λ fut, mkFuture (_result fut) (_callbacks fut ++ [h])) f (futures w))
    (io_loop w).

(** Resolving a future stores the outcome and runs the callbacks; a
    future that is already resolved keeps its first outcome. *)
Definition resolve (f : nat) (o : outcome) (w : World) : World :=
  match futures w !! f with
  | Some fut =>
      match _result fut with
      | None =>
          foldl (λ w' h, remove_timeout h w')
            (mkWorld (<[f := mkFuture (Some o) []]> (futures w)) (io_loop w))
            (_callbacks fut)
      | Some _ => w
      end
  | None => w
  end.

(** [future.set_result(v)] and [future.set_exception(e)] *)
Definition set_result (f : nat) (v : value) (w : World) : World :=
  resolve f (Result v) w.

Definition set_exception (f : nat) (e : exn) (w : World) : World :=
  resolve f (Exception e) w.

(** The I/O loop takes the entry of handle [h] off its table; the caller
    then runs the [on_timeout] closure of the waiter it returns. *)
Definition take_timeout (h : nat) (w : World) : option (nat * World) :=
  match list_find (λ e, fst e = h) (_scheduled (io_loop w)) with
  | Some (_, (_, (_, waiter))) => Some (waiter, remove_timeout h w)
  | None => None
  end.

(** [_set_timeout(future, timeout)] of queues.py; its [on_timeout] is
    [future.set_exception(gen.TimeoutError())]. *)
Definition _set_timeout (future : nat) (timeout : timeout_arg) (w : World)
  : World :=
  if truthy timeout then
    let '(timeout_handle, w1) := add_timeout timeout future w in
    add_done_callback future timeout_handle w1
  else w.

End World.

Arguments value : clear implicits.
Arguments outcome : clear implicits.
Arguments Future : clear implicits.
Arguments World : clear implicits.

(** ** locks.py *)

(** [class _TimeoutGarbageCollector]: the base of [Condition] and
    [Semaphore]. *)
Module TimeoutGarbageCollector.
Section Defs.
Context {A : Type}.

Record t := mk {
  _waiters : list nat;
  _timeouts : Z
}.

Definition __init__ : t := mk [] 0.

Definition live (w : World A) (waiter : nat) : bool := negb (done waiter w).

(** [_garbage_collect]: count the call and, when the count has passed
    100, reset it and keep the waiters that are not done. *)
Definition _garbage_collect (self : t) (w : World A) : t :=
  let timeouts := _timeouts self + 1 in
  if 100 <? timeouts then
    mk (filter (λ waiter, live w waiter) (_waiters self)) 0
  else
    mk (_waiters self) timeouts.

End Defs.
End TimeoutGarbageCollector.

Module Condition.
Import TimeoutGarbageCollector.
Section Defs.
Context {A : Type}.

(** A [Condition] adds no field of its own to the base class. *)
Definition t := TimeoutGarbageCollector.t.

Definition __init__ : t := TimeoutGarbageCollector.__init__.

Definition wait (timeout : timeout_arg) (self : t) (w : World A)
  : nat * t * World A :=
  let '(waiter, w1) := Future_new w in
  let self1 := mk (_waiters self ++ [waiter]) (_timeouts self) in
  if truthy timeout then
    let '(timeout_handle, w2) := add_timeout timeout waiter w1 in
    (waiter, self1, add_done_callback waiter timeout_handle w2)
  else
    (waiter, self1, w1).

(** The closure scheduled by [wait]. *)
Definition on_timeout (waiter : nat) (self : t) (w : World A) : t * World A :=
  let w1 := set_result waiter (VBool false) w in
  (_garbage_collect self w1, w1).

(** The I/O loop runs the timeout of handle [h]. *)
Definition fire (h : nat) (self : t) (w : World A) : t * World A :=
  match take_timeout h w with
  | Some (waiter, w1) => on_timeout waiter self w1
  | None => (self, w)
  end.

(** The [while n and self._waiters] loop of [notify]: what is left of
    [n], what is left of the deque and the waiters to run. *)
Fixpoint notify_loop (w : World A) (n : Z) (deque waiters : list nat)
  : Z * list nat * list nat :=
  match deque with
  | [] => (n, deque, waiters)
  | waiter :: rest =>
      if n =? 0 then (n, deque, waiters)
      else if negb (done waiter w)
           then notify_loop w (n - 1) rest (waiters ++ [waiter])
           else notify_loop w n rest waiters
  end.

Definition notify (n : Z) (self : t) (w : World A) : t * World A :=
  let '(_, deque, waiters) := notify_loop w n (_waiters self) [] in
  (mk deque (_timeouts self),
   foldl (λ w' waiter, set_result waiter (VBool true) w') w waiters).

Definition notify_all (self : t) (w : World A) : t * World A :=
  notify (Z.of_nat (length (_waiters self))) self w.

End Defs.
End Condition.

Module Semaphore.
Import TimeoutGarbageCollector.
Section Defs.
Context {A : Type}.

Record t := mk {
  base : TimeoutGarbageCollector.t;
  _value : Z
}.

Definition __init__ (value : Z) : exn + t :=
  if value <? 0 then
    inl (ValueError "semaphore initial value must be >= 0")
  else
    inr (mk TimeoutGarbageCollector.__init__ value).

(** The [while self._waiters] loop of [release]. *)
Fixpoint release_loop (deque : list nat) (value : Z) (w : World A)
  : list nat * Z * World A :=
  match deque with
  | [] => (deque, value, w)
  | waiter :: rest =>
      if negb (done waiter w) then
        (rest, value - 1, set_result waiter VReleasingContextManager w)
      else
        release_loop rest value w
  end.

Definition release (self : t) (w : World A) : t * World A :=
  let value := _value self + 1 in
  let '(deque, value', w') := release_loop (_waiters (base self)) value w in
  (mk (TimeoutGarbageCollector.mk deque (_timeouts (base self))) value', w').

Definition acquire (timeout : timeout_arg) (self : t) (w : World A)
  : nat * t * World A :=
  let '(waiter, w1) := Future_new w in
  if 0 <? _value self then
    (waiter, mk (base self) (_value self - 1),
     set_result waiter VReleasingContextManager w1)
  else
    let self1 :=
      mk (TimeoutGarbageCollector.mk (_waiters (base self) ++ [waiter])
            (_timeouts (base self)))
         (_value self) in
    if truthy timeout then
      let '(timeout_handle, w2) := add_timeout timeout waiter w1 in
      (waiter, self1, add_done_callback waiter timeout_handle w2)
    else
      (waiter, self1, w1).

(** The closure scheduled by [acquire]. *)
Definition on_timeout (waiter : nat) (self : t) (w : World A) : t * World A :=
  let w1 := set_exception waiter TimeoutError w in
  (mk (_garbage_collect (base self) w1) (_value self), w1).

Definition fire (h : nat) (self : t) (w : World A) : t * World A :=
  match take_timeout h w with
  | Some (waiter, w1) => on_timeout waiter self w1
  | None => (self, w)
  end.

End Defs.
End Semaphore.

Module BoundedSemaphore.
Section Defs.
Context {A : Type}.

Record t := mk {
  sem : Semaphore.t;
  _initial_value : Z
}.

Definition __init__ (value : Z) : exn + t :=
  match Semaphore.__init__ value with
  | inl e => inl e
  | inr s => inr (mk s value)
  end.

Definition release (self : t) (w : World A) : res (t * World A) unit :=
  if _initial_value self <=? Semaphore._value (sem self) then
    Raise (ValueError "Semaphore released too many times") (self, w)
  else
    let '(s, w') := Semaphore.release (sem self) w in
    Return tt (mk s (_initial_value self), w').

Definition acquire (timeout : timeout_arg) (self : t) (w : World A)
  : nat * t * World A :=
  let '(waiter, s, w') := Semaphore.acquire timeout (sem self) w in
  (waiter, mk s (_initial_value self), w').

Definition fire (h : nat) (self : t) (w : World A) : t * World A :=
  let '(s, w') := Semaphore.fire h (sem self) w in
  (mk s (_initial_value self), w').

End Defs.
End BoundedSemaphore.

Module Lock.
Section Defs.
Context {A : Type}.

Record t := mk { _block : BoundedSemaphore.t }.

(** [BoundedSemaphore(value=1)] cannot raise. *)
Definition __init__ : t :=
  mk (BoundedSemaphore.mk
        (Semaphore.mk TimeoutGarbageCollector.__init__ 1) 1).

Definition acquire (timeout : timeout_arg) (self : t) (w : World A)
  : nat * t * World A :=
  let '(waiter, b, w') := BoundedSemaphore.acquire timeout (_block self) w in
  (waiter, mk b, w').

(** [try: self._block.release() except ValueError: raise RuntimeError] *)
Definition release (self : t) (w : World A) : res (t * World A) unit :=
  match BoundedSemaphore.release (_block self) w with
  | Return r (b, w') => Return r (mk b, w')
  | Raise (ValueError _) (b, w') =>
      Raise (RuntimeError "release unlocked lock") (mk b, w')
  | Raise e (b, w') => Raise e (mk b, w')
  end.

Definition fire (h : nat) (self : t) (w : World A) : t * World A :=
  let '(b, w') := BoundedSemaphore.fire h (_block self) w in
  (mk b, w').

End Defs.
End Lock.

(** [class Event]: a flag held as one future.  [wait], and [Queue.join]
    which calls it, come further down as [Event_wait] and [Queue_join]:
    with a timeout they go through [gen.with_timeout]. *)
Module Event.
Section Defs.
Context {A : Type}.

Record t := mk { _future : nat }.

Definition __init__ (w : World A) : t * World A :=
  let '(f, w1) := Future_new w in (mk f, w1).

Definition is_set (self : t) (w : World A) : bool :=
  done (_future self) w.

Definition set (self : t) (w : World A) : World A :=
  if negb (done (_future self) w) then set_result (_future self) VNone w
  else w.

Definition clear (self : t) (w : World A) : t * World A :=
  if done (_future self) w then
    let '(f, w1) := Future_new w in (mk f, w1)
  else (self, w).

End Defs.
End Event.

(** ** heapq

    [heapq.heappush] and [heapq.heappop] of the Python library, on a list
    indexed from 0, with [lt] for the items' [<].  The loops run on
    fuel; they move [pos] strictly, so the length of the heap is fuel
    enough (lemmas [_siftdown_loop_fuel] and [_siftup_loop_fuel]). *)
Module heapq.
Section Defs.
Context {A : Type} (lt : A → A → bool).

Fixpoint _siftdown_loop (fuel : nat) (heap : list A) (newitem : A)
    (startpos pos : nat) : list A :=
  match fuel with
  | O => <[pos := newitem]> heap
  | S fuel' =>
      if Nat.ltb startpos pos then
        let parentpos := Nat.div (pos - 1) 2 in
        let parent := nth parentpos heap newitem in
        if lt newitem parent then
          _siftdown_loop fuel' (<[pos := parent]> heap) newitem startpos parentpos
        else <[pos := newitem]> heap
      else <[pos := newitem]> heap
  end.

Definition _siftdown (heap : list A) (startpos pos : nat) : list A :=
  match heap !! pos with
  | Some newitem => _siftdown_loop (length heap) heap newitem startpos pos
  | None => heap
  end.

Fixpoint _siftup_loop (fuel : nat) (heap : list A) (newitem : A)
    (endpos pos childpos : nat) : list A * nat :=
  match fuel with
  | O => (heap, pos)
  | S fuel' =>
      if Nat.ltb childpos endpos then
        let rightpos := (childpos + 1)%nat in
        let childpos' :=
          if Nat.ltb rightpos endpos
             && negb (lt (nth childpos heap newitem) (nth rightpos heap newitem))
          then rightpos else childpos in
        _siftup_loop fuel' (<[pos := nth childpos' heap newitem]> heap) newitem
          endpos childpos' (2 * childpos' + 1)%nat
      else (heap, pos)
  end.

Definition _siftup (heap : list A) (pos : nat) : list A :=
  match heap !! pos with
  | Some newitem =>
      let '(heap', pos') :=
        _siftup_loop (length heap) heap newitem (length heap) pos
          (2 * pos + 1)%nat in
      _siftdown (<[pos' := newitem]> heap') pos pos'
  | None => heap
  end.

Definition heappush (heap : list A) (item : A) : list A :=
  _siftdown (heap ++ [item]) 0 (length heap).

(** [None] stands for the [IndexError] of [heap.pop()] on an empty list. *)
Definition heappop (heap : list A) : option (A * list A) :=
  match last heap with
  | None => None
  | Some lastelt =>
      match removelast heap with
      | [] => Some (lastelt, [])
      | returnitem :: rest =>
          Some (returnitem, _siftup (lastelt :: rest) 0)
      end
  end.

End Defs.
End heapq.

(** ** queues.py *)

(** What [put] returns: the shared, already resolved [gen._null_future]
    or a future of the store. *)
Inductive future_ref :=
  | NullFuture
  | Ref (f : nat).

Module Queue.
Section Defs.
Context {A : Type}.

(** The three methods a subclass may override. *)
Class Methods := {
  _init : list A;
  _get : list A → option (A * list A);
  _put : A → list A → list A
}.

Record t := mk {
  _maxsize : Z;
  _queue : list A;
  _getters : list nat;
  _putters : list (A * nat);
  _unfinished_tasks : Z;
  _finished : Event.t
}.

Context {M : Methods}.

(** [maxsize] is [None] or an integer. *)
Definition __init__ (maxsize : option Z) (w : World A)
  : res (World A) t :=
  match maxsize with
  | None => Raise (TypeError "maxsize can't be None") w
  | Some maxsize =>
      if maxsize <? 0 then Raise (ValueError "maxsize can't be negative") w
      else
        let '(finished, w1) := Event.__init__ w in
        Return (mk maxsize _init [] [] 0 finished) (Event.set finished w1)
  end.

Definition maxsize (self : t) : Z := _maxsize self.

Definition qsize (self : t) : Z := Z.of_nat (length (_queue self)).

Definition empty (self : t) : bool :=
  match _queue self with [] => true | _ => false end.

Definition full (self : t) : bool :=
  if maxsize self =? 0 then false
  else maxsize self <=? qsize self.

Definition __put_internal (item : A) (self : t) (w : World A)
  : t * World A :=
  let '(finished, w1) := Event.clear (_finished self) w in
  (mk (_maxsize self) (_put item (_queue self)) (_getters self)
      (_putters self) (_unfinished_tasks self + 1) finished, w1).

(** The two [while] loops of [_consume_expired]. *)
Fixpoint expired_putters (w : World A) (putters : list (A * nat))
  : list (A * nat) :=
  match putters with
  | [] => []
  | p :: rest => if done (snd p) w then expired_putters w rest else putters
  end.

Fixpoint expired_getters (w : World A) (getters : list nat) : list nat :=
  match getters with
  | [] => []
  | g :: rest => if done g w then expired_getters w rest else getters
  end.

Definition _consume_expired (self : t) (w : World A) : t :=
  mk (_maxsize self) (_queue self)
     (expired_getters w (_getters self))
     (expired_putters w (_putters self))
     (_unfinished_tasks self) (_finished self).

Definition with_queue (self : t) (q : list A) : t :=
  mk (_maxsize self) q (_getters self) (_putters self)
     (_unfinished_tasks self) (_finished self).

Definition put_nowait (item : A) (self : t) (w : World A)
  : res (t * World A) unit :=
  let self1 := _consume_expired self w in
  match _getters self1 with
  | getter :: getters =>
      if empty self1 then
        let self2 :=
          mk (_maxsize self1) (_queue self1) getters (_putters self1)
             (_unfinished_tasks self1) (_finished self1) in
        let '(self3, w3) := __put_internal item self2 w in
        match _get (_queue self3) with
        | Some (x, q) =>
            Return tt (with_queue self3 q, set_result getter (VItem x) w3)
        | None => Raise IndexError (self3, w3)
        end
      else
        Raise (AssertionError "queue non-empty, why are getters waiting?")
              (self1, w)
  | [] =>
      if full self1 then Raise QueueFull (self1, w)
      else Return tt (__put_internal item self1 w)
  end.

Definition get_nowait (self : t) (w : World A) : res (t * World A) A :=
  let self1 := _consume_expired self w in
  match _putters self1 with
  | (item, putter) :: putters =>
      if full self1 then
        let self2 :=
          mk (_maxsize self1) (_queue self1) (_getters self1) putters
             (_unfinished_tasks self1) (_finished self1) in
        let '(self3, w3) := __put_internal item self2 w in
        let w4 := set_result putter VNone w3 in
        match _get (_queue self3) with
        | Some (x, q) => Return x (with_queue self3 q, w4)
        | None => Raise IndexError (self3, w4)
        end
      else
        Raise (AssertionError "queue not full, why are putters waiting?")
              (self1, w)
  | [] =>
      if negb (qsize self1 =? 0) then
        match _get (_queue self1) with
        | Some (x, q) => Return x (with_queue self1 q, w)
        | None => Raise IndexError (self1, w)
        end
      else Raise QueueEmpty (self1, w)
  end.

Definition put (item : A) (timeout : timeout_arg) (self : t) (w : World A)
  : res (t * World A) future_ref :=
  match put_nowait item self w with
  | Return _ s => Return NullFuture s
  | Raise QueueFull (self1, w1) =>
      let '(future, w2) := Future_new w1 in
      let self2 :=
        mk (_maxsize self1) (_queue self1) (_getters self1)
           (_putters self1 ++ [(item, future)])
           (_unfinished_tasks self1) (_finished self1) in
      Return (Ref future) (self2, _set_timeout future timeout w2)
  | Raise e s => Raise e s
  end.

Definition get (timeout : timeout_arg) (self : t) (w : World A)
  : res (t * World A) nat :=
  let '(future, w0) := Future_new w in
  match get_nowait self w0 with
  | Return x (self1, w1) =>
      Return future (self1, set_result future (VItem x) w1)
  | Raise QueueEmpty (self1, w1) =>
      let self2 :=
        mk (_maxsize self1) (_queue self1) (_getters self1 ++ [future])
           (_putters self1) (_unfinished_tasks self1) (_finished self1) in
      Return future (self2, _set_timeout future timeout w1)
  | Raise e s => Raise e s
  end.

Definition task_done (self : t) (w : World A) : res (t * World A) unit :=
  if _unfinished_tasks self <=? 0 then
    Raise (ValueError "task_done() called too many times") (self, w)
  else
    let n := _unfinished_tasks self - 1 in
    let self1 :=
      mk (_maxsize self) (_queue self) (_getters self) (_putters self)
         n (_finished self) in
    if n =? 0 then Return tt (self1, Event.set (_finished self1) w)
    else Return tt (self1, w).

(** The closure scheduled by [_set_timeout], run by the I/O loop. *)
Definition fire (h : nat) (self : t) (w : World A) : t * World A :=
  match take_timeout h w with
  | Some (future, w1) => (self, set_exception future TimeoutError w1)
  | None => (self, w)
  end.

End Defs.

Arguments Methods : clear implicits.
Arguments t : clear implicits.

(** The base class keeps its items in a deque: append at the right, pop
    at the left. *)
Definition methods {A : Type} : Methods A := {|
  _init := [];
  _get := λ q, match q with [] => None | x :: q' => Some (x, q') end;
  _put := λ item q, q ++ [item]
|}.

End Queue.

Module PriorityQueue.

Definition methods {A : Type} (lt : A → A → bool) : Queue.Methods A := {|
  Queue._init := [];
  Queue._get := λ q, heapq.heappop lt q;
  Queue._put := λ item q, heapq.heappush lt q item
|}.

End PriorityQueue.

Module LifoQueue.

(** A list used as a stack: [append] and [pop] at the right end. *)
Definition methods {A : Type} : Queue.Methods A := {|
  Queue._init := [];
  Queue._get := λ q,
    match last q with
    | Some x => Some (x, removelast q)
    | None => None
    end;
  Queue._put := λ item q, q ++ [item]
|}.

End LifoQueue.

(** ** Sequences of calls

    What a client and the I/O loop may do to one object, one call after
    the other.  A call that raises leaves its state behind and the
    sequence goes on, as after a caught exception. *)

Section Calls.
Context {A : Type}.

Inductive condition_call :=
  | CWait (timeout : timeout_arg)
  | CNotify (n : Z)
  | CNotifyAll
  | CFire (h : nat).

Definition condition_step (c : condition_call) (s : Condition.t * World A)
  : Condition.t * World A :=
  match c with
  | CWait timeout =>
      let '(_, self, w) := Condition.wait timeout (fst s) (snd s) in (self, w)
  | CNotify n => Condition.notify n (fst s) (snd s)
  | CNotifyAll => Condition.notify_all (fst s) (snd s)
  | CFire h => Condition.fire h (fst s) (snd s)
  end.

Definition condition_run (cs : list condition_call) (s : Condition.t * World A)
  : Condition.t * World A :=
  foldl (λ s c, condition_step c s) s cs.

Inductive semaphore_call :=
  | SAcquire (timeout : timeout_arg)
  | SRelease
  | SFire (h : nat).

Definition semaphore_step (c : semaphore_call) (s : Semaphore.t * World A)
  : Semaphore.t * World A :=
  match c with
  | SAcquire timeout =>
      let '(_, self, w) := Semaphore.acquire timeout (fst s) (snd s) in (self, w)
  | SRelease => Semaphore.release (fst s) (snd s)
  | SFire h => Semaphore.fire h (fst s) (snd s)
  end.

Definition semaphore_run (cs : list semaphore_call) (s : Semaphore.t * World A)
  : Semaphore.t * World A :=
  foldl (λ s c, semaphore_step c s) s cs.

(** On a [BoundedSemaphore] a [release] may raise; [bounded_run] is the
    run of a sequence in which none does. *)
Definition bounded_step (c : semaphore_call) (s : BoundedSemaphore.t * World A)
  : option (BoundedSemaphore.t * World A) :=
  match c with
  | SAcquire timeout =>
      let '(_, self, w) := BoundedSemaphore.acquire timeout (fst s) (snd s) in
      Some (self, w)
  | SRelease =>
      match BoundedSemaphore.release (fst s) (snd s) with
      | Return _ s' => Some s'
      | Raise _ _ => None
      end
  | SFire h => Some (BoundedSemaphore.fire h (fst s) (snd s))
  end.

Fixpoint bounded_run (cs : list semaphore_call) (s : BoundedSemaphore.t * World A)
  : option (BoundedSemaphore.t * World A) :=
  match cs with
  | [] => Some s
  | c :: cs' =>
      match bounded_step c s with
      | Some s' => bounded_run cs' s'
      | None => None
      end
  end.

Definition lock_step (c : semaphore_call) (s : Lock.t * World A)
  : Lock.t * World A :=
  match c with
  | SAcquire timeout =>
      let '(_, self, w) := Lock.acquire timeout (fst s) (snd s) in (self, w)
  | SRelease => state_of (Lock.release (fst s) (snd s))
  | SFire h => Lock.fire h (fst s) (snd s)
  end.

Definition lock_run (cs : list semaphore_call) (s : Lock.t * World A)
  : Lock.t * World A :=
  foldl (λ s c, lock_step c s) s cs.

(** [acquires] makes one [acquire] per timeout of the list and returns
    the futures handed out, in call order; [releases k] calls [release]
    [k] times. *)
Fixpoint acquires (timeouts : list timeout_arg) (s : Semaphore.t * World A)
  : list nat * (Semaphore.t * World A) :=
  match timeouts with
  | [] => ([], s)
  | timeout :: rest =>
      let '(waiter, self, w) := Semaphore.acquire timeout (fst s) (snd s) in
      let '(waiters, s') := acquires rest (self, w) in
      (waiter :: waiters, s')
  end.

Fixpoint releases (k : nat) (s : Semaphore.t * World A)
  : Semaphore.t * World A :=
  match k with
  | O => s
  | S k' => releases k' (Semaphore.release (fst s) (snd s))
  end.

(** The state of a collector after one trigger in each world of the
    list. *)
Fixpoint triggers (ws : list (World A)) (self : TimeoutGarbageCollector.t)
  : TimeoutGarbageCollector.t :=
  match ws with
  | [] => self
  | w :: ws' => triggers ws' (TimeoutGarbageCollector._garbage_collect self w)
  end.

Context {M : Queue.Methods A}.

Inductive queue_call :=
  | QPut (item : A) (timeout : timeout_arg)
  | QGet (timeout : timeout_arg)
  | QPutNowait (item : A)
  | QGetNowait
  | QTaskDone
  | QFire (h : nat).

Definition queue_step (c : queue_call) (s : Queue.t A * World A)
  : Queue.t A * World A :=
  match c with
  | QPut item timeout => state_of (Queue.put item timeout (fst s) (snd s))
  | QGet timeout => state_of (Queue.get timeout (fst s) (snd s))
  | QPutNowait item => state_of (Queue.put_nowait item (fst s) (snd s))
  | QGetNowait => state_of (Queue.get_nowait (fst s) (snd s))
  | QTaskDone => state_of (Queue.task_done (fst s) (snd s))
  | QFire h => Queue.fire h (fst s) (snd s)
  end.

Definition queue_run (cs : list queue_call) (s : Queue.t A * World A)
  : Queue.t A * World A :=
  foldl (λ s c, queue_step c s) s cs.

(** [puts] calls [put] without a timeout for each item and stops at the
    first call that raises or has to wait; [gets n] calls [get] [n] times
    and collects what the returned futures hold. *)
Fixpoint puts (items : list A) (s : Queue.t A * World A)
  : option (Queue.t A * World A) :=
  match items with
  | [] => Some s
  | item :: rest =>
      match Queue.put item TNone (fst s) (snd s) with
      | Return NullFuture s' => puts rest s'
      | _ => None
      end
  end.

Fixpoint gets (n : nat) (s : Queue.t A * World A)
  : list (option (outcome A)) :=
  match n with
  | O => []
  | S n' =>
      match Queue.get TNone (fst s) (snd s) with
      | Return future s' => outcome_of future (snd s') :: gets n' s'
      | Raise _ _ => []
      end
  end.

End Calls.

(** ** Well-formed states

    Facts that hold of every state the calls above can reach: waiters
    are futures of the store, no future is queued twice, and a scheduled
    timeout is for a future of the store. *)

Section WellFormed.
Context {A : Type}.

Definition valid (w : World A) (f : nat) : Prop :=
  (f < length (futures w))%nat.

Definition pending (w : World A) (f : nat) : Prop :=
  valid w f ∧ outcome_of f w = None.

Definition timers_valid (w : World A) : Prop :=
  Forall (λ e, valid w (snd (snd e))) (_scheduled (io_loop w)).

Definition waiters_wf (w : World A) (waiters : list nat) : Prop :=
  NoDup waiters ∧ Forall (valid w) waiters.

(** The number of waiters of a list that are not done. *)
Definition live_count (w : World A) (waiters : list nat) : Z :=
  Z.of_nat (length (filter (λ f, TimeoutGarbageCollector.live w f) waiters)).

Definition queue_wf (self : Queue.t A) (w : World A) : Prop :=
  0 <= Queue._unfinished_tasks self
  ∧ valid w (Event._future (Queue._finished self))
  ∧ Forall (valid w) (Queue._getters self)
  ∧ Forall (valid w) (snd <$> Queue._putters self)
  ∧ (Event._future (Queue._finished self) ∉ Queue._getters self)
  ∧ (Event._future (Queue._finished self) ∉ snd <$> Queue._putters self).

End WellFormed.

(** ** Sample states *)

(** What [cls(maxsize)] builds in an empty world when [maxsize >= 0]:
    the queue and the world with the future of its [_finished] event,
    set. *)
Definition new_queue {A : Type} (M : Queue.Methods A) (maxsize : Z)
  : Queue.t A * World A :=
  (Queue.mk maxsize Queue._init [] [] 0 (Event.mk 0),
   Event.set (Event.mk 0) (snd (Future_new World_empty))).


(** A [Queue()] after two puts and a get. *)
Definition unbounded_queue : Queue.t Z * World Z :=
  queue_run (M:=Queue.methods) [QPutNowait 1; QPutNowait 2; QGet TNone]
    (new_queue Queue.methods 0).

(** Python's [<] on pairs of an integer and a string. *)
Definition pair_lt (x y : Z * string) : bool :=
  (fst x <? fst y) || ((fst x =? fst y) && String.ltb (snd x) (snd y)).

(** A [PriorityQueue(maxsize=1)] that holds [(0, "b")] while a producer
    waits to put [(5, "z")]. *)
Definition full_priority_queue : Queue.t (Z * string) * World (Z * string) :=
  queue_run (M:=PriorityQueue.methods pair_lt)
    [QPutNowait (0, "b"%string); QPut (5, "z"%string) TNone]
    (new_queue (PriorityQueue.methods pair_lt) 1).

(** [q = cls(maxsize)] in an empty world, the [put] calls, then as many
    [get] calls: what the futures returned by [get] hold. *)
Definition put_then_get {A : Type} (M : Queue.Methods A) (maxsize : Z)
    (items : list A) : option (list (option (outcome A))) :=
  match Queue.__init__ (M:=M) (Some maxsize) World_empty with
  | Return q w =>
      match puts (M:=M) items (q, w) with
      | Some s => Some (gets (M:=M) (length items) s)
      | None => None
      end
  | Raise _ _ => None
  end.

Definition got {A : Type} (x : A) : option (outcome A) :=
  Some (Result (VItem x)).

(** The futures that a call taking the world from [w] to [w'] has
    resolved to [True]. *)
Definition notified {A : Type} (w w' : World A) : list nat :=
  filter (λ f,
            match outcome_of f w, outcome_of f w' with
            | None, Some (Result (VBool true)) => true
            | _, _ => false
            end = true)
         (seq 0 (length (futures w'))).

(** A condition on which three coroutines wait, the second one with a
    timeout that has fired. *)
Definition three_waiters : Condition.t * World unit :=
  condition_run [CWait TNone; CWait (TDelta 5); CWait TNone; CFire 0]
    (Condition.__init__, World_empty).

(** A condition on which one coroutine waits with a timeout. *)
Definition timed_waiter : Condition.t * World unit :=
  condition_run [CWait (TDelta 5)] (Condition.__init__, World_empty).

(** ** Timeouts *)

Section Timeouts.
Context {A : Type}.

(** The futures for which the I/O loop holds a timeout. *)
Definition targets (w : World A) : list nat :=
  (λ e, snd (snd e)) <$> _scheduled (io_loop w).

(** What a timeout leaves in a waiter: [False] in a [Condition], a
    [TimeoutError] in a [Semaphore] or a [Queue]. *)
Definition timeout_outcome (o : option (outcome A)) : Prop :=
  o = Some (Result (VBool false)) ∨ o = Some (Exception TimeoutError).

(** [f] is a future of the store that has not timed out and that no
    scheduled timeout is for. *)
Definition untimed (w : World A) (f : nat) : Prop :=
  valid w f
  ∧ (f ∉ targets w)
  ∧ ¬ timeout_outcome (outcome_of f w).

(** What every call does to the world as far as timeouts go: the store
    only grows, a timeout is scheduled only for a future made by the
    call, and a future without a scheduled timeout does not time out. *)
Definition extends (w w' : World A) : Prop :=
  (length (futures w) <= length (futures w'))%nat
  ∧ (∀ g, g ∈ targets w' →
       g ∈ targets w ∨ (length (futures w) <= g < length (futures w'))%nat)
  ∧ (∀ g, valid w g → g ∉ targets w →
       timeout_outcome (outcome_of g w') → timeout_outcome (outcome_of g w)).

End Timeouts.

(** ** What the queue needs of [_init], [_get] and [_put]

    The queue counts on its storage: [_init] gives an empty one, [_put]
    adds one item, [_get] takes one item off a storage that is not empty.
    The three classes of queues.py keep these laws (lemmas
    [Queue_methods_laws], [LifoQueue_methods_laws] and
    [PriorityQueue_methods_laws]). *)
Class MethodsLaws {A : Type} (M : Queue.Methods A) : Prop := {
  _init_empty : Queue._init = [];
  _put_length : ∀ item q, length (Queue._put item q) = S (length q);
  _get_length : ∀ q x q', Queue._get q = Some (x, q') → length q = S (length q');
  _get_nonempty : ∀ q, q ≠ [] → Queue._get q ≠ None
}.

(** The invariant of the queue: a bounded storage holds at most
    [maxsize] items, getters wait only on an empty storage and putters
    only on a full one. *)
Definition queue_inv {A : Type} (self : Queue.t A) : Prop :=
  0 <= Queue._maxsize self
  ∧ (Queue._maxsize self ≠ 0 → Queue.qsize self <= Queue._maxsize self)
  ∧ (Queue._getters self ≠ [] → Queue._queue self = [])
  ∧ (Queue._putters self ≠ [] → Queue.full self = true).

(** A bounded [Queue(maxsize=2)] after a few calls: two items stored and
    one producer waiting. *)
Definition busy_queue : Queue.t Z * World Z :=
  queue_run (M:=Queue.methods)
    [QGet (TDelta 1); QPutNowait 1; QPut 2 TNone; QPut 3 TNone; QPut 4 TNone]
    (new_queue Queue.methods 2).

(** ** [Event.wait] and [Queue.join]

    [Event.wait] hands out the future of the event itself when
    [timeout is None]; otherwise it returns
    [gen.with_timeout(timeout, self._future)], a call into [tornado.gen]
    that is kept as it stands. *)
Inductive awaited :=
  | Plain (f : nat)
  | WithTimeout (timeout : timeout_arg) (f : nat).

Definition Event_wait (timeout : timeout_arg) (self : Event.t) : awaited :=
  match timeout with
  | TNone => Plain (Event._future self)
  | _ => WithTimeout timeout (Event._future self)
  end.

(** [Queue.join]: [return self._finished.wait(timeout)] *)
Definition Queue_join {A : Type} (timeout : timeout_arg) (self : Queue.t A)
  : awaited :=
  Event_wait timeout (Queue._finished self).

(** The event [fin] of a queue goes with its counter [u]: it is set
    exactly when the counter is 0, and no timeout is scheduled for its
    future. *)
Definition finished_inv {A : Type} (fin : Event.t) (u : Z) (w : World A)
  : Prop :=
  timers_valid w
  ∧ valid w (Event._future fin)
  ∧ (Event._future fin ∉ targets w)
  ∧ 0 <= u
  ∧ (Event.is_set fin w = true ↔ u = 0).

(** A queue with two items put and one of them marked done. *)
Definition half_done_queue : Queue.t Z * World Z :=
  queue_run (M:=Queue.methods)
    [QPutNowait 1; QPut 2 TNone; QGetNowait; QTaskDone]
    (new_queue Queue.methods 0).

(** ** Permits *)

(** The number of futures of the store that hold a
    [_ReleasingContextManager]: the acquires granted so far. *)
Definition is_granted {A : Type} (fut : Future A) : bool :=
  match _result fut with
  | Some (Result VReleasingContextManager) => true
  | _ => false
  end.

Definition granted {A : Type} (w : World A) : Z :=
  Z.of_nat (length (List.filter is_granted (futures w))).

(** The number of [release] calls of a sequence. *)
Definition release_count (cs : list semaphore_call) : Z :=
  Z.of_nat (length (List.filter
                      (λ c, match c with SRelease => true | _ => false end)
                      cs)).

(** [Semaphore(2)] used by four coroutines, one of which gives up. *)
Definition used_semaphore : Semaphore.t * World unit :=
  semaphore_run
    [SAcquire TNone; SAcquire TNone; SAcquire (TDelta 1); SAcquire TNone;
     SFire 0; SRelease; SRelease]
    (Semaphore.mk TimeoutGarbageCollector.__init__ 2, World_empty).

(** ** Dead waiters *)

(** The number of waiters of a list that are done: in a waiter list,
    the entries that a timeout has resolved and that have not been
    dropped yet. *)
Definition dead_count {A : Type} (w : World A) (waiters : list nat) : Z :=
  Z.of_nat (length (List.filter (λ f, done f w) waiters)).

(** The collector keeps its counter within 0..100 and holds no more dead
    waiters than the counter says. *)
Definition gc_inv {A : Type} (self : TimeoutGarbageCollector.t) (w : World A)
  : Prop :=
  0 <= TimeoutGarbageCollector._timeouts self <= 100
  ∧ dead_count w (TimeoutGarbageCollector._waiters self)
    <= TimeoutGarbageCollector._timeouts self.

(** ** Waiters that can still be woken *)

(** Every future made since the store had [b] futures is done or is in
    the list [waiters]. *)
Definition tracked {A : Type} (b : nat) (waiters : list nat) (w : World A)
  : Prop :=
  ∀ f, (b <= f < length (futures w))%nat → done f w = false → f ∈ waiters.

(** ** Timeouts that are still wanted *)

(** A scheduled timeout is for a future of the store that is not done
    and that holds the callback removing this timeout. *)
Definition timer_live {A : Type} (w : World A) (e : nat * (timeout_arg * nat))
  : Prop :=
  ∃ fut, futures w !! snd (snd e) = Some fut
         ∧ _result fut = None
         ∧ fst e ∈ _callbacks fut.

Definition timers_live {A : Type} (w : World A) : Prop :=
  Forall (timer_live w) (_scheduled (io_loop w)).

(** A [Queue(maxsize=1)] used with timeouts: a consumer and a producer
    have been served and one producer still waits. *)
Definition waiting_queue : Queue.t Z * World Z :=
  queue_run (M:=Queue.methods)
    [QGet (TDelta 3); QPut 1 TNone; QPut 2 (TDelta 4); QPut 3 (TDelta 5);
     QPut 4 (TDelta 6); QGet TNone]
    (new_queue Queue.methods 1).

(** ** Holders of a lock *)

(** The semaphore inside a lock. *)
Definition lock_sem (l : Lock.t) : Semaphore.t :=
  BoundedSemaphore.sem (Lock._block l).

(** What holds of a lock in every state: its semaphore is bounded by 1,
    the counter is 0 or 1, and the waiters are distinct futures. *)
Definition lock_inv {A : Type} (l : Lock.t) (w : World A) : Prop :=
  BoundedSemaphore._initial_value (Lock._block l) = 1
  ∧ 0 <= Semaphore._value (lock_sem l) <= 1
  ∧ waiters_wf w
      (TimeoutGarbageCollector._waiters (Semaphore.base (lock_sem l))).

(** The number of [release] calls of a sequence that return, the
    sequence being run from the state [s]. *)
Fixpoint unlocks {A : Type} (cs : list semaphore_call) (s : Lock.t * World A)
  : Z :=
  match cs with
  | [] => 0
  | c :: cs' =>
      match c with
      | SRelease =>
          match Lock.release (fst s) (snd s) with
          | Return _ _ => 1
          | Raise _ _ => 0
          end
      | _ => 0
      end + unlocks cs' (lock_step c s)
  end.

(** A lock taken, asked for twice, released once and released again by
    mistake after the second owner is done. *)
Definition used_lock : Lock.t * World unit :=
  lock_run
    [SAcquire TNone; SAcquire TNone; SAcquire (TDelta 1); SRelease; SFire 0;
     SRelease; SRelease]
    (Lock.__init__, World_empty).

(** ** Sequences of calls on an event *)

Inductive event_call :=
  | ESet
  | EClear.

Definition event_step {A : Type} (c : event_call) (s : Event.t * World A)
  : Event.t * World A :=
  match c with
  | ESet => (fst s, Event.set (fst s) (snd s))
  | EClear => Event.clear (fst s) (snd s)
  end.

Definition event_run {A : Type} (cs : list event_call) (s : Event.t * World A)
  : Event.t * World A :=
  foldl (λ s c, event_step c s) s cs.

(** ** The order of retrieval *)

(** The storage after [_put] of each item of a list, and what [n]
    successive [_get] calls take off a storage. *)
Definition stored {A : Type} {M : Queue.Methods A} (items : list A)
    (q : list A) : list A :=
  foldl (λ q item, Queue._put item q) q items.

Fixpoint drain {A : Type} {M : Queue.Methods A} (n : nat) (q : list A)
  : list A :=
  match n with
  | O => []
  | S n' =>
      match Queue._get q with
      | Some (x, q') => x :: drain n' q'
      | None => []
      end
  end.

(** A storage that holds one item gives that item back and is empty
    again; the three classes of queues.py are such (lemmas
    [Queue_hand_over], [LifoQueue_hand_over] and
    [PriorityQueue_hand_over]). *)
Definition hand_over {A : Type} (M : Queue.Methods A) : Prop :=
  ∀ item, Queue._get (Queue._put item []) = Some (item, []).

(** A [Queue()] on which two consumers wait, the first of which has
    given up. *)
Definition awaited_queue : Queue.t Z * World Z :=
  queue_run (M:=Queue.methods) [QGet (TDelta 2); QGet TNone; QFire 0]
    (new_queue Queue.methods 0).

(** ** The heap of a PriorityQueue *)

(** The slot of the parent of slot [i] in the array of a heap. *)
Definition parent (i : nat) : nat := Nat.div (i - 1) 2.

(** What the items' [<] has to be for heapq to keep its order: if [x] is
    below [y] then [y] is not below [x], and "not below" is
    transitive. *)
Class StrictWeakOrder {A : Type} (lt : A → A → bool) : Prop := {
  order_asym : ∀ x y, lt x y = true → lt y x = false;
  order_trans : ∀ x y z, lt y x = false → lt z y = false → lt z x = false
}.

(** The heap invariant of heapq: no item is below its parent. *)
Definition is_heap {A : Type} (lt : A → A → bool) (heap : list A) : Prop :=
  ∀ i x y, (0 < i)%nat →
    heap !! i = Some x → heap !! parent i = Some y → lt x y = false.

(** The heap while [_siftdown] carries [newitem] up from the slot [pos]:
    the invariant holds wherever the child is not [pos], and the
    children of [pos] are below neither [newitem] nor the parent of
    [pos]. *)
Definition sifting_down {A : Type} (lt : A → A → bool) (newitem : A)
    (heap : list A) (pos : nat) : Prop :=
  (∀ i x y, (0 < i)%nat → i ≠ pos →
     heap !! i = Some x → heap !! parent i = Some y → lt x y = false)
  ∧ (∀ c x, (0 < c)%nat → parent c = pos →
       heap !! c = Some x → lt x newitem = false)
  ∧ (∀ c x y, (0 < c)%nat → parent c = pos → (0 < pos)%nat →
       heap !! c = Some x → heap !! parent pos = Some y → lt x y = false).

(** The heap while [_siftup] moves the free slot [pos] down: the
    invariant holds wherever the parent is not [pos], and the children
    of [pos] are not below the parent of [pos]. *)
Definition sifting_up {A : Type} (lt : A → A → bool) (heap : list A)
    (pos : nat) : Prop :=
  (∀ i x y, (0 < i)%nat → parent i ≠ pos →
     heap !! i = Some x → heap !! parent i = Some y → lt x y = false)
  ∧ (∀ c x y, (0 < c)%nat → parent c = pos → (0 < pos)%nat →
       heap !! c = Some x → heap !! parent pos = Some y → lt x y = false).

(** A list in ascending order: no item is below an earlier one. *)
Definition ascending {A : Type} (lt : A → A → bool) (l : list A) : Prop :=
  StronglySorted (λ x y, lt y x = false) l.

(** ** Waiters of a queue that can still be served *)

(** Every future made since the store had [b] futures is done, or is
    one of [extra], or is the future of the [_finished] event, or waits
    in [_getters] or in [_putters]. *)
Definition queue_tracked {A : Type} (b : nat) (extra : list nat)
    (self : Queue.t A) (w : World A) : Prop :=
  ∀ f, (b <= f < length (futures w))%nat → done f w = false →
    f ∈ extra
    ∨ f = Event._future (Queue._finished self)
    ∨ f ∈ Queue._getters self
    ∨ f ∈ (snd <$> Queue._putters self).

(** [Semaphore(2)] with both permits out, a waiter that has given up and
    a waiter that still waits. *)
Definition awaited_semaphore : Semaphore.t * World unit :=
  semaphore_run
    [SAcquire TNone; SAcquire TNone; SAcquire (TDelta 1); SAcquire TNone;
     SFire 0]
    (Semaphore.mk TimeoutGarbageCollector.__init__ 2, World_empty).

(** * Facts about the world *)

Section WorldFacts.
Context {A : Type}.
Implicit Types (w : World A) (f g h : nat) (o : outcome A).

Lemma futures_remove_timeout h w : futures (remove_timeout h w) = futures w.
Proof. reflexivity. Qed.

Lemma futures_remove_timeouts hs w :
  futures (foldl (λ w' h, remove_timeout h w') w hs) = futures w.
Proof.
  revert w; induction hs as [|h hs IH]; intros w; simpl; [reflexivity|].
  rewrite IH. apply futures_remove_timeout.
Qed.

Lemma futures_resolve f o w :
  futures (resolve f o w) = futures w
  ∨ futures (resolve f o w) = <[f := mkFuture (Some o) []]> (futures w).
Proof.
  unfold resolve. destruct (futures w !! f) as [fut|]; [|by left].
  destruct (_result fut); [by left|]. right.
  by rewrite futures_remove_timeouts.
Qed.

Lemma length_futures_resolve f o w :
  length (futures (resolve f o w)) = length (futures w).
Proof.
  destruct (futures_resolve f o w) as [->| ->]; [done|].
  apply length_insert.
Qed.

Lemma valid_resolve f o w g : valid (resolve f o w) g ↔ valid w g.
Proof. unfold valid. by rewrite length_futures_resolve. Qed.

Lemma outcome_of_resolve_ne f o w g :
  g ≠ f → outcome_of g (resolve f o w) = outcome_of g w.
Proof.
  intros Hne. unfold outcome_of.
  destruct (futures_resolve f o w) as [->| ->]; [done|].
  by rewrite list_lookup_insert_ne.
Qed.

Lemma outcome_of_resolve_pending f o w :
  pending w f → outcome_of f (resolve f o w) = Some o.
Proof.
  intros [Hv Hp]. unfold outcome_of, resolve in *.
  destruct (futures w !! f) as [fut|] eqn:Hf.
  - rewrite Hp. rewrite futures_remove_timeouts. simpl.
    by rewrite list_lookup_insert_eq.
  - apply lookup_ge_None in Hf. unfold valid in Hv. lia.
Qed.

Lemma resolve_done f o w : done f w = true → resolve f o w = w.
Proof.
  unfold done, outcome_of, resolve.
  destruct (futures w !! f) as [fut|]; [|done].
  by destruct (_result fut).
Qed.

Lemma outcome_of_resolve_keep f o w g x :
  outcome_of g w = Some x → outcome_of g (resolve f o w) = Some x.
Proof.
  intros Hg. destruct (decide (g = f)) as [->|Hne].
  - rewrite resolve_done; [done|]. unfold done. by rewrite Hg.
  - by rewrite outcome_of_resolve_ne.
Qed.

Lemma done_false_outcome f w : done f w = false ↔ outcome_of f w = None.
Proof. unfold done. destruct (outcome_of f w); split; congruence. Qed.

Lemma done_true_outcome f w : done f w = true ↔ outcome_of f w ≠ None.
Proof. unfold done. destruct (outcome_of f w); split; congruence. Qed.

Lemma outcome_of_invalid f w : ¬ valid w f → outcome_of f w = None.
Proof.
  unfold valid, outcome_of. intros Hv.
  rewrite lookup_ge_None_2; [done|lia].
Qed.

(** A new future changes no outcome: an index past the store reads as
    not done, and so does the future put there. *)
Lemma outcome_of_Future_new w g :
  outcome_of g (snd (Future_new w)) = outcome_of g w.
Proof.
  unfold outcome_of, Future_new; simpl.
  destruct (decide (g < length (futures w))%nat) as [Hlt|Hge].
  - by rewrite lookup_app_l.
  - rewrite (lookup_ge_None_2 (futures w)); [|lia].
    rewrite lookup_app_r; [|lia].
    by destruct (g - length (futures w))%nat as [|[|n]].
Qed.

Lemma Future_new_fst w : fst (Future_new w) = length (futures w).
Proof. reflexivity. Qed.

Lemma length_futures_Future_new w :
  length (futures (snd (Future_new w))) = S (length (futures w)).
Proof. simpl. rewrite length_app. simpl. lia. Qed.

Lemma pending_Future_new w : pending (snd (Future_new w)) (length (futures w)).
Proof.
  split.
  - unfold valid. rewrite length_futures_Future_new. lia.
  - rewrite outcome_of_Future_new. apply outcome_of_invalid.
    unfold valid. lia.
Qed.

Lemma valid_Future_new w g : valid w g → valid (snd (Future_new w)) g.
Proof. unfold valid. rewrite length_futures_Future_new. lia. Qed.

Lemma outcome_of_add_timeout t f w g :
  outcome_of g (snd (add_timeout t f w)) = outcome_of g w.
Proof. reflexivity. Qed.

Lemma outcome_of_add_done_callback f h w g :
  outcome_of g (add_done_callback f h w) = outcome_of g w.
Proof.
  unfold outcome_of, add_done_callback; simpl.
  destruct (decide (g = f)) as [->|Hne].
  - rewrite list_lookup_alter_eq. by destruct (futures w !! f).
  - by rewrite list_lookup_alter_ne.
Qed.

Lemma length_futures_add_done_callback f h w :
  length (futures (add_done_callback f h w)) = length (futures w).
Proof. simpl. apply length_alter. Qed.

Lemma outcome_of__set_timeout f t w g :
  outcome_of g (_set_timeout f t w) = outcome_of g w.
Proof.
  unfold _set_timeout. destruct (truthy t); [|done].
  simpl. by rewrite outcome_of_add_done_callback.
Qed.

Lemma length_futures__set_timeout f t w :
  length (futures (_set_timeout f t w)) = length (futures w).
Proof.
  unfold _set_timeout. destruct (truthy t); [|done].
  simpl. apply length_alter.
Qed.

Lemma outcome_of_take_timeout h w f w' g :
  take_timeout h w = Some (f, w') → outcome_of g w' = outcome_of g w.
Proof.
  unfold take_timeout.
  destruct (list_find _ _) as [[i [h' [t f']]]|]; [|done].
  by intros [= _ <-].
Qed.

Lemma futures_take_timeout h w f w' :
  take_timeout h w = Some (f, w') → futures w' = futures w.
Proof.
  unfold take_timeout.
  destruct (list_find _ _) as [[i [h' [t f']]]|]; [|done].
  by intros [= _ <-].
Qed.

End WorldFacts.

(** * The waiter garbage collector *)

Section GarbageCollector.
Context {A : Type}.
Import TimeoutGarbageCollector.
Implicit Types (w : World A) (ws : list (World A)).
Implicit Types (self : TimeoutGarbageCollector.t).

Lemma _timeouts__garbage_collect self w :
  0 <= _timeouts self <= 100 →
  _timeouts (_garbage_collect self w) = (_timeouts self + 1) mod 101.
Proof.
  intros H. unfold _garbage_collect.
  destruct (100 <? _timeouts self + 1) eqn:E; simpl.
  - apply Z.ltb_lt in E. replace (_timeouts self) with 100 by lia. reflexivity.
  - apply Z.ltb_ge in E. rewrite Z.mod_small; lia.
Qed.

Lemma _timeouts_triggers ws self :
  0 <= _timeouts self <= 100 →
  _timeouts (triggers ws self) = (_timeouts self + Z.of_nat (length ws)) mod 101.
Proof.
  revert self; induction ws as [|w ws IH]; intros self H; simpl triggers.
  - simpl. rewrite Z.add_0_r, Z.mod_small; lia.
  - rewrite IH.
    + rewrite _timeouts__garbage_collect by done.
      rewrite Zplus_mod_idemp_l. f_equal. simpl length. lia.
    + rewrite _timeouts__garbage_collect by done.
      pose proof (Z.mod_pos_bound (_timeouts self + 1) 101). lia.
Qed.

(** C3, as the code has it: on a collector whose counter starts at 0,
    trigger number [k] rebuilds the waiter list, keeping the waiters
    that are not done, and resets the counter exactly when [k] is a
    multiple of 101; every other trigger adds one to the counter and
    leaves the list as it is. *)
Theorem C3_garbage_collect_every_101st ws w self :
  _timeouts self = 0 →
  let before := triggers ws self in
  let after := _garbage_collect before w in
  let k := Z.of_nat (length ws) + 1 in
  (k mod 101 = 0 →
     _waiters after = filter (λ f, live w f) (_waiters before)
     ∧ _timeouts after = 0)
  ∧ (k mod 101 ≠ 0 →
     _waiters after = _waiters before
     ∧ _timeouts after = _timeouts before + 1).
Proof.
  intros H0 before after k.
  assert (Hb : _timeouts before = Z.of_nat (length ws) mod 101).
  { unfold before. rewrite _timeouts_triggers by lia. by rewrite H0. }
  pose proof (Z.mod_pos_bound (Z.of_nat (length ws)) 101 ltac:(lia)) as Hr.
  assert (Hk : k mod 101 = (_timeouts before + 1) mod 101).
  { unfold k. rewrite Hb. by rewrite Zplus_mod_idemp_l. }
  unfold after, _garbage_collect.
  destruct (100 <? _timeouts before + 1) eqn:E; simpl.
  - apply Z.ltb_lt in E. split; [done|].
    intros Hne. exfalso. apply Hne. rewrite Hk.
    replace (_timeouts before) with 100 by lia. reflexivity.
  - apply Z.ltb_ge in E. split; [|done].
    intros Hz. exfalso. rewrite Hk in Hz.
    rewrite Z.mod_small in Hz; lia.
Qed.

End GarbageCollector.

(** The 101st trigger on a fresh collector that holds one waiter that
    timed out and one that is still waiting. *)
Lemma C3_garbage_collect_every_101st_witness :
  let w : World unit :=
    mkWorld [mkFuture (Some (Result (VBool false))) []; mkFuture None []]
            (mkIOLoop 0 []) in
  let self := TimeoutGarbageCollector.mk [0%nat; 1%nat] 0 in
  let before := triggers (replicate 100 w) self in
  let after := TimeoutGarbageCollector._garbage_collect before w in
  TimeoutGarbageCollector._waiters after = [1%nat]
  ∧ TimeoutGarbageCollector._timeouts after = 0.
Proof.
  intros w self before after.
  exact (proj1 (C3_garbage_collect_every_101st (replicate 100 w) w self eq_refl)
           eq_refl).
Defined.

(** C3 as stated fails: the 100th trigger on a fresh collector neither
    drops the waiter that is done nor resets the counter. *)
Lemma C3_hundredth_trigger_keeps_list :
  let w : World unit :=
    mkWorld [mkFuture (Some (Result (VBool false))) []; mkFuture None []]
            (mkIOLoop 0 []) in
  let self := TimeoutGarbageCollector.mk [0%nat; 1%nat] 0 in
  let before := triggers (replicate 99 w) self in
  let after := TimeoutGarbageCollector._garbage_collect before w in
  TimeoutGarbageCollector._waiters after = [0%nat; 1%nat]
  ∧ filter (λ f, TimeoutGarbageCollector.live w f)
      (TimeoutGarbageCollector._waiters before) = [1%nat]
  ∧ TimeoutGarbageCollector._timeouts after = 100
  ∧ TimeoutGarbageCollector._waiters after
    ≠ filter (λ f, TimeoutGarbageCollector.live w f)
        (TimeoutGarbageCollector._waiters before)
  ∧ TimeoutGarbageCollector._timeouts after ≠ 0.
Proof. vm_compute. repeat split; congruence. Qed.

(** * Over-release *)

Section OverRelease.
Context {A : Type}.
Implicit Types (w : World A).

Lemma BoundedSemaphore_release_raises (self : BoundedSemaphore.t) w :
  BoundedSemaphore._initial_value self <= Semaphore._value (BoundedSemaphore.sem self) →
  BoundedSemaphore.release self w
  = Raise (ValueError "Semaphore released too many times") (self, w).
Proof.
  intros H. unfold BoundedSemaphore.release.
  by rewrite (proj2 (Z.leb_le _ _) H).
Qed.

Lemma BoundedSemaphore_release_returns (self : BoundedSemaphore.t) w :
  Semaphore._value (BoundedSemaphore.sem self) < BoundedSemaphore._initial_value self →
  ∃ s, BoundedSemaphore.release self w = Return tt s
       ∧ (fst s, snd s)
         = (BoundedSemaphore.mk
              (fst (Semaphore.release (BoundedSemaphore.sem self) w))
              (BoundedSemaphore._initial_value self),
            snd (Semaphore.release (BoundedSemaphore.sem self) w)).
Proof.
  intros H. unfold BoundedSemaphore.release.
  rewrite (proj2 (Z.leb_gt _ _) H).
  destruct (Semaphore.release _ w) as [s w']. by eexists.
Qed.

Lemma Lock_release_unlocked (self : Lock.t) w :
  BoundedSemaphore._initial_value (Lock._block self)
    <= Semaphore._value (BoundedSemaphore.sem (Lock._block self)) →
  Lock.release self w = Raise (RuntimeError "release unlocked lock") (self, w).
Proof.
  intros H. unfold Lock.release.
  rewrite BoundedSemaphore_release_raises by done. by destruct self.
Qed.

(** What [acquire] then [release] make of a lock that nobody holds or
    waits for: the same lock, unlocked again. *)
Lemma Lock_acquire_release_fresh timeout w :
  let '(_, l1, w1) := Lock.acquire (A:=A) timeout Lock.__init__ w in
  ∃ w2, Lock.release l1 w1 = Return tt (Lock.__init__, w2).
Proof.
  unfold Lock.acquire, BoundedSemaphore.acquire, Semaphore.acquire; simpl.
  unfold Lock.release, BoundedSemaphore.release, Semaphore.release; simpl.
  by eexists.
Qed.

(** C7: [BoundedSemaphore.release] raises the "released too many times"
    [ValueError], and leaves the state as it was, exactly when the value
    has reached the initial value, and returns otherwise; [Lock.release]
    turns that failure into the [RuntimeError] "release unlocked lock";
    so a lock that was never acquired, and a lock acquired and released
    once, both refuse a release with that error. *)
Theorem C7_over_release_errors :
  (∀ (self : BoundedSemaphore.t) (w : World A),
     let over :=
       BoundedSemaphore._initial_value self
         <= Semaphore._value (BoundedSemaphore.sem self) in
     (over →
        BoundedSemaphore.release self w
        = Raise (ValueError "Semaphore released too many times") (self, w))
     ∧ (¬ over → raised (BoundedSemaphore.release self w) = None))
  ∧ (∀ (self : Lock.t) (w : World A),
       raised (BoundedSemaphore.release (Lock._block self) w)
         = Some (ValueError "Semaphore released too many times") →
       Lock.release self w
       = Raise (RuntimeError "release unlocked lock") (self, w))
  ∧ (∀ w : World A,
       Lock.release Lock.__init__ w
       = Raise (RuntimeError "release unlocked lock") (Lock.__init__, w))
  ∧ (∀ (timeout : timeout_arg) (w : World A),
       let '(_, l1, w1) := Lock.acquire timeout Lock.__init__ w in
       ∃ l2 w2,
         Lock.release l1 w1 = Return tt (l2, w2)
         ∧ Lock.release l2 w2
           = Raise (RuntimeError "release unlocked lock") (l2, w2)).
Proof.
  split; [|split; [|split]].
  - intros self w over. split.
    + apply BoundedSemaphore_release_raises.
    + intros Hn. unfold over in Hn.
      destruct (BoundedSemaphore_release_returns self w) as (s & -> & _);
        [lia|done].
  - intros self w Hr. unfold Lock.release.
    destruct (decide (BoundedSemaphore._initial_value (Lock._block self)
                      <= Semaphore._value (BoundedSemaphore.sem (Lock._block self))))
      as [Hle|Hgt].
    + rewrite BoundedSemaphore_release_raises by done. by destruct self.
    + destruct (BoundedSemaphore_release_returns (Lock._block self) w)
        as (s & Hs & _); [lia|]. by rewrite Hs in Hr.
  - intros w. by apply Lock_release_unlocked.
  - intros timeout w.
    pose proof (Lock_acquire_release_fresh timeout w) as H.
    destruct (Lock.acquire timeout Lock.__init__ w) as [[f l1] w1].
    destruct H as [w2 H]. exists Lock.__init__, w2. split; [done|].
    by apply Lock_release_unlocked.
Qed.

End OverRelease.

(** A semaphore of two permits with both available refuses a release;
    with one taken it accepts it. *)
Lemma C7_over_release_errors_witness :
  let full := BoundedSemaphore.mk (Semaphore.mk TimeoutGarbageCollector.__init__ 2) 2 in
  let used := BoundedSemaphore.mk (Semaphore.mk TimeoutGarbageCollector.__init__ 1) 2 in
  BoundedSemaphore.release full (World_empty (A:=unit))
  = Raise (ValueError "Semaphore released too many times") (full, World_empty)
  ∧ raised (BoundedSemaphore.release used (World_empty (A:=unit))) = None.
Proof.
  intros full used. split.
  - apply (proj1 (proj1 (C7_over_release_errors (A:=unit)) full World_empty)).
    simpl. lia.
  - apply (proj2 (proj1 (C7_over_release_errors (A:=unit)) used World_empty)).
    simpl. lia.
Defined.

(** * The loops of heapq end within their fuel *)

Section HeapqFuel.
Context {A : Type} (lt : A → A → bool).

(** [_siftdown]: [pos] goes down at each turn, so any fuel above [pos]
    gives the same heap. *)
Lemma _siftdown_loop_fuel fuel1 fuel2 (heap : list A) newitem startpos pos :
  (pos < fuel1)%nat → (pos < fuel2)%nat →
  heapq._siftdown_loop lt fuel1 heap newitem startpos pos
  = heapq._siftdown_loop lt fuel2 heap newitem startpos pos.
Proof.
  revert fuel2 heap pos.
  induction fuel1 as [|fuel1 IH]; intros fuel2 heap pos H1 H2; [lia|].
  destruct fuel2 as [|fuel2]; [lia|].
  cbn [heapq._siftdown_loop].
  destruct (Nat.ltb startpos pos) eqn:E; [|done].
  apply Nat.ltb_lt in E.
  assert (Hp : (Nat.div (pos - 1) 2 < pos)%nat).
  { apply Nat.Div0.div_lt_upper_bound. lia. }
  destruct (lt newitem _); [|done].
  apply IH; lia.
Qed.

(** [_siftup]: [childpos] goes up at each turn and the loop ends when it
    reaches [endpos]. *)
Lemma _siftup_loop_fuel fuel1 fuel2 (heap : list A) newitem endpos pos childpos :
  (endpos - childpos < fuel1)%nat → (endpos - childpos < fuel2)%nat →
  heapq._siftup_loop lt fuel1 heap newitem endpos pos childpos
  = heapq._siftup_loop lt fuel2 heap newitem endpos pos childpos.
Proof.
  revert fuel2 heap pos childpos.
  induction fuel1 as [|fuel1 IH]; intros fuel2 heap pos childpos H1 H2; [lia|].
  destruct fuel2 as [|fuel2]; [lia|].
  cbn [heapq._siftup_loop].
  destruct (Nat.ltb childpos endpos) eqn:E; [|done].
  apply Nat.ltb_lt in E.
  destruct (_ && _); apply IH; lia.
Qed.

(** With more fuel than the length of the heap the two functions give
    what they give with the length. *)
Lemma _siftdown_loop_enough fuel (heap : list A) newitem startpos pos :
  (pos < length heap)%nat → (length heap <= fuel)%nat →
  heapq._siftdown_loop lt fuel heap newitem startpos pos
  = heapq._siftdown_loop lt (length heap) heap newitem startpos pos.
Proof. intros H1 H2. apply _siftdown_loop_fuel; lia. Qed.

Lemma _siftup_loop_enough fuel (heap : list A) newitem pos :
  (pos < length heap)%nat → (length heap <= fuel)%nat →
  heapq._siftup_loop lt fuel heap newitem (length heap) pos (2 * pos + 1)
  = heapq._siftup_loop lt (length heap) heap newitem (length heap) pos
      (2 * pos + 1).
Proof. intros H1 H2. apply _siftup_loop_fuel; lia. Qed.

End HeapqFuel.

(** [new_queue] is what the constructor returns. *)
Lemma new_queue___init__ {A : Type} (M : Queue.Methods A) (maxsize : Z) :
  0 <= maxsize →
  Queue.__init__ (Some maxsize) World_empty
  = Return (fst (new_queue M maxsize)) (snd (new_queue M maxsize)).
Proof.
  intros H. unfold Queue.__init__.
  by rewrite (proj2 (Z.ltb_ge maxsize 0) H).
Qed.

(** * The queue *)

Section EventFacts.
Context {A : Type}.
Implicit Types (w : World A) (e : Event.t).

Lemma Event_is_set_set e w :
  valid w (Event._future e) → Event.is_set e (Event.set e w) = true.
Proof.
  intros Hv. unfold Event.is_set, Event.set.
  destruct (done (Event._future e) w) eqn:Hd; simpl; [done|].
  apply done_true_outcome. unfold set_result.
  rewrite outcome_of_resolve_pending; [done|].
  split; [done|]. by apply done_false_outcome.
Qed.

Lemma Event_clear_done e w :
  done (Event._future e) w = true →
  Event.clear e w = (Event.mk (length (futures w)), snd (Future_new w)).
Proof. intros Hd. unfold Event.clear. by rewrite Hd. Qed.

Lemma Event_clear_not_done e w :
  done (Event._future e) w = false → Event.clear e w = (e, w).
Proof. intros Hd. unfold Event.clear. by rewrite Hd. Qed.

Lemma Event_is_set_clear e w :
  Event.is_set (fst (Event.clear e w)) (snd (Event.clear e w)) = false.
Proof.
  unfold Event.is_set.
  destruct (done (Event._future e) w) eqn:Hd.
  - rewrite Event_clear_done by done. cbn [fst snd Event._future].
    apply done_false_outcome. apply (pending_Future_new w).
  - by rewrite Event_clear_not_done.
Qed.

Lemma Event_clear_outcome e w g :
  outcome_of g (snd (Event.clear e w)) = outcome_of g w.
Proof.
  destruct (done (Event._future e) w) eqn:Hd.
  - rewrite Event_clear_done by done. apply outcome_of_Future_new.
  - by rewrite Event_clear_not_done.
Qed.

Lemma Event_clear_length e w :
  (length (futures w) <= length (futures (snd (Event.clear e w))))%nat.
Proof.
  destruct (done (Event._future e) w) eqn:Hd.
  - rewrite Event_clear_done by done. cbn [snd].
    rewrite length_futures_Future_new. lia.
  - by rewrite Event_clear_not_done.
Qed.

Lemma Event_clear_valid e w :
  valid w (Event._future e) →
  valid (snd (Event.clear e w)) (Event._future (fst (Event.clear e w))).
Proof.
  intros Hv. destruct (done (Event._future e) w) eqn:Hd.
  - rewrite Event_clear_done by done. apply (pending_Future_new w).
  - by rewrite Event_clear_not_done.
Qed.

(** The future of the cleared event is the old one, still pending, or a
    new one past every valid index. *)
Lemma Event_clear_future e w :
  (Event._future (fst (Event.clear e w)) = Event._future e
   ∧ done (Event._future e) w = false)
  ∨ Event._future (fst (Event.clear e w)) = length (futures w).
Proof.
  destruct (done (Event._future e) w) eqn:Hd.
  - rewrite Event_clear_done by done. by right.
  - rewrite Event_clear_not_done by done. by left.
Qed.

End EventFacts.

Section QueueFacts.
Context {A : Type} {M : Queue.Methods A}.
Implicit Types (w : World A) (self : Queue.t A) (item : A).

Lemma expired_getters_split w getters :
  ∃ stale, getters = stale ++ Queue.expired_getters w getters
           ∧ Forall (λ g, done g w = true) stale.
Proof.
  induction getters as [|g gs (stale & IH1 & IH2)]; simpl.
  - by exists [].
  - destruct (done g w) eqn:Hd.
    + exists (g :: stale); split; [simpl; congruence|by constructor].
    + by exists [].
Qed.

Lemma expired_putters_split w putters :
  ∃ stale, putters = stale ++ Queue.expired_putters w putters
           ∧ Forall (λ p, done (snd p) w = true) stale.
Proof.
  induction putters as [|p ps (stale & IH1 & IH2)]; simpl.
  - by exists [].
  - destruct (done (snd p) w) eqn:Hd.
    + exists (p :: stale); split; [simpl; congruence|by constructor].
    + by exists [].
Qed.

Lemma expired_getters_head w getters g rest :
  Queue.expired_getters w getters = g :: rest → done g w = false.
Proof.
  induction getters as [|g' gs IH]; simpl; [done|].
  destruct (done g' w) eqn:Hd; [done|]. by intros [= <- _].
Qed.

Lemma expired_putters_head w putters p rest :
  Queue.expired_putters w putters = p :: rest → done (snd p) w = false.
Proof.
  induction putters as [|p' ps IH]; simpl; [done|].
  destruct (done (snd p') w) eqn:Hd; [done|]. by intros [= <- _].
Qed.

(** The loop stops at the first entry that is not done. *)
Lemma expired_putters_app w stale p rest :
  Forall (λ p, done (snd p) w = true) stale →
  done (snd p) w = false →
  Queue.expired_putters w (stale ++ p :: rest) = p :: rest.
Proof.
  intros Hs Hp. induction Hs as [|q stale Hq _ IH]; simpl.
  - by rewrite Hp.
  - by rewrite Hq.
Qed.

Lemma expired_getters_elem w getters g :
  g ∈ Queue.expired_getters w getters → g ∈ getters.
Proof.
  destruct (expired_getters_split w getters) as (stale & Heq & _).
  intros Hin. rewrite Heq. apply elem_of_app. by right.
Qed.

Lemma expired_putters_elem w putters p :
  p ∈ Queue.expired_putters w putters → p ∈ putters.
Proof.
  destruct (expired_putters_split w putters) as (stale & Heq & _).
  intros Hin. rewrite Heq. apply elem_of_app. by right.
Qed.

End QueueFacts.

Section QueueCalls.
Context {A : Type} {M : Queue.Methods A}.
Implicit Types (w : World A) (self : Queue.t A) (item : A).

Lemma __put_internal_eq item self w :
  Queue.__put_internal item self w
  = (Queue.mk (Queue._maxsize self) (Queue._put item (Queue._queue self))
       (Queue._getters self) (Queue._putters self)
       (Queue._unfinished_tasks self + 1)
       (fst (Event.clear (Queue._finished self) w)),
     snd (Event.clear (Queue._finished self) w)).
Proof.
  unfold Queue.__put_internal.
  by destruct (Event.clear (Queue._finished self) w).
Qed.

(** What both branches of a successful [put_nowait] do to the counter
    and the [_finished] event. *)
Lemma put_nowait_counts item self w self' w' :
  queue_wf self w →
  Queue.put_nowait item self w = Return tt (self', w') →
  Queue._unfinished_tasks self' = Queue._unfinished_tasks self + 1
  ∧ Event.is_set (Queue._finished self') w' = false.
Proof.
  intros (Hu & Hfv & Hgv & Hpv & Hfg & Hfp).
  unfold Queue.put_nowait.
  destruct (Queue._getters (Queue._consume_expired self w))
    as [|getter getters] eqn:Hg.
  - destruct (Queue.full _); [done|].
    rewrite __put_internal_eq. intros [= <- <-]. simpl.
    split; [done|]. apply Event_is_set_clear.
  - destruct (Queue.empty _); [|done].
    rewrite __put_internal_eq. cbn [Queue._queue Queue._finished].
    destruct (Queue._get _) as [[x q]|]; [|done].
    intros [= <- <-]. simpl. split; [done|].
    simpl in Hg.
    assert (Hin : getter ∈ Queue._getters self).
    { apply (expired_getters_elem w). rewrite Hg. by left. }
    assert (Hd : done getter w = false)
      by (by eapply expired_getters_head).
    assert (Hv : valid w getter)
      by (by eapply (proj1 (Forall_forall _ _) Hgv)).
    unfold Event.is_set. apply done_false_outcome.
    unfold set_result. rewrite outcome_of_resolve_ne.
    + apply done_false_outcome. apply Event_is_set_clear.
    + intros Heq.
      destruct (Event_clear_future (Queue._finished self) w) as [[He _]|He].
      * apply Hfg. replace (Event._future (Queue._finished self)) with getter;
          [done|]. rewrite <- He. symmetry. exact Heq.
      * unfold valid in Hv.
        assert (getter = length (futures w)) by (rewrite <- He; symmetry; exact Heq).
        lia.
Qed.


Lemma put_nowait_unbounded item self w :
  Queue._maxsize self = 0 →
  raised (Queue.put_nowait item self w) ≠ Some QueueFull.
Proof.
  intros Hm. unfold Queue.put_nowait.
  destruct (Queue._getters (Queue._consume_expired self w)) as [|g gs].
  - assert (Hf : Queue.full (Queue._consume_expired self w) = false).
    { unfold Queue.full, Queue.maxsize. simpl. by rewrite Hm. }
    rewrite Hf. by rewrite __put_internal_eq.
  - destruct (Queue.empty _); [|done].
    rewrite __put_internal_eq.
    by destruct (Queue._get _) as [[x q]|].
Qed.

(** No call changes [maxsize]. *)
Lemma _maxsize_put_nowait item self w :
  Queue._maxsize (fst (state_of (Queue.put_nowait item self w)))
  = Queue._maxsize self.
Proof.
  unfold Queue.put_nowait.
  destruct (Queue._getters (Queue._consume_expired self w)) as [|g gs].
  - destruct (Queue.full _); [done|]. by rewrite __put_internal_eq.
  - destruct (Queue.empty _); [|done].
    rewrite __put_internal_eq.
    by destruct (Queue._get _) as [[x q]|].
Qed.

Lemma _maxsize_get_nowait self w :
  Queue._maxsize (fst (state_of (Queue.get_nowait self w)))
  = Queue._maxsize self.
Proof.
  unfold Queue.get_nowait.
  destruct (Queue._putters (Queue._consume_expired self w)) as [|[i p] ps].
  - destruct (negb _); [|done].
    by destruct (Queue._get _) as [[x q]|].
  - destruct (Queue.full _); [|done].
    rewrite __put_internal_eq.
    by destruct (Queue._get _) as [[x q]|].
Qed.

Lemma _maxsize_queue_step c (s : Queue.t A * World A) :
  Queue._maxsize (fst (queue_step c s)) = Queue._maxsize (fst s).
Proof.
  destruct s as [self w]. destruct c; simpl.
  - unfold Queue.put.
    pose proof (_maxsize_put_nowait item self w) as H.
    destruct (Queue.put_nowait item self w) as [[] [s1 w1]|e [s1 w1]]; [done|].
    by destruct e.
  - unfold Queue.get. destruct (Future_new w) as [future w0].
    pose proof (_maxsize_get_nowait self w0) as H.
    destruct (Queue.get_nowait self w0) as [x [s1 w1]|e [s1 w1]]; [done|].
    by destruct e.
  - apply _maxsize_put_nowait.
  - apply _maxsize_get_nowait.
  - unfold Queue.task_done. destruct (_ <=? 0); [done|].
    by destruct (_ =? 0).
  - unfold Queue.fire. by destruct (take_timeout h w) as [[f w1]|].
Qed.

Lemma _maxsize_queue_run cs (s : Queue.t A * World A) :
  Queue._maxsize (fst (queue_run cs s)) = Queue._maxsize (fst s).
Proof.
  revert s; induction cs as [|c cs IH]; intros s; [done|].
  unfold queue_run in *. simpl. rewrite IH. apply _maxsize_queue_step.
Qed.

(** C9: on a queue whose [maxsize] is 0, [put_nowait] does not raise
    [QueueFull], whatever the state and the item; so it never does on a
    queue built with [maxsize=0], whatever calls were made on it. *)
Theorem C9_unbounded_put_nowait_never_full :
  (∀ item self w,
     Queue._maxsize self = 0 →
     raised (Queue.put_nowait item self w) ≠ Some QueueFull)
  ∧ (∀ w self w0 cs item,
       Queue.__init__ (Some 0) w = Return self w0 →
       raised (Queue.put_nowait item (fst (queue_run cs (self, w0)))
                 (snd (queue_run cs (self, w0))))
       ≠ Some QueueFull).
Proof.
  split; [exact put_nowait_unbounded|].
  intros w self w0 cs item Hinit. apply put_nowait_unbounded.
  rewrite _maxsize_queue_run. cbn [fst]. revert Hinit.
  unfold Queue.__init__. cbn [Z.ltb Z.compare Event.__init__ Future_new].
  by intros [= <- _].
Qed.

End QueueCalls.



Lemma C9_unbounded_put_nowait_never_full_witness :
  raised (Queue.put_nowait (M:=Queue.methods) 8
            (fst unbounded_queue) (snd unbounded_queue))
  ≠ Some QueueFull.
Proof.
  apply (proj2 (C9_unbounded_put_nowait_never_full (M:=Queue.methods))
           World_empty (fst (new_queue Queue.methods 0))
           (snd (new_queue Queue.methods 0))
           [QPutNowait 1; QPutNowait 2; QGet TNone] 8).
  reflexivity.
Defined.

Section Rendezvous.
Context {A : Type}.
Implicit Types (w : World A) (self : Queue.t A) (item : A).

Lemma get_nowait_putter (M : Queue.Methods A) self w stale item putter rest :
  Queue._putters self = stale ++ (item, putter) :: rest →
  Forall (λ p, done (snd p) w = true) stale →
  pending w putter →
  Queue.full self = true →
  match Queue._get (Queue._put item (Queue._queue self)) with
  | Some (x, q) =>
      ∃ self' w',
        Queue.get_nowait self w = Return x (self', w')
        ∧ Queue._queue self' = q
        ∧ Queue._putters self' = rest
        ∧ Queue._unfinished_tasks self' = Queue._unfinished_tasks self + 1
        ∧ outcome_of putter w' = Some (Result VNone)
  | None => raised (Queue.get_nowait self w) = Some IndexError
  end.
Proof.
  intros Hp Hs [Hv Hpend] Hfull.
  unfold Queue.get_nowait.
  assert (He : Queue._putters (Queue._consume_expired self w)
               = (item, putter) :: rest).
  { simpl. rewrite Hp. apply expired_putters_app; [done|].
    by apply done_false_outcome. }
  rewrite He.
  assert (Hf : Queue.full (Queue._consume_expired self w) = true) by exact Hfull.
  rewrite Hf. rewrite __put_internal_eq.
  cbn [Queue._queue Queue._consume_expired].
  destruct (Queue._get (Queue._put item (Queue._queue self))) as [[x q]|];
    [|done].
  eexists _, _. split; [done|]. simpl.
  split; [done|]. split; [done|]. split; [done|].
  unfold set_result. apply outcome_of_resolve_pending. split.
  - unfold valid in *. pose proof (Event_clear_length (Queue._finished self) w).
    lia.
  - by rewrite Event_clear_outcome.
Qed.

Lemma expired_getters_app w stale g rest :
  Forall (λ g, done g w = true) stale →
  done g w = false →
  Queue.expired_getters w (stale ++ g :: rest) = g :: rest.
Proof.
  intros Hs Hg. induction Hs as [|q stale Hq _ IH]; simpl.
  - by rewrite Hg.
  - by rewrite Hq.
Qed.

(** The other direction: a [put_nowait] that finds a getter waiting. *)
Lemma put_nowait_getter (M : Queue.Methods A) self w stale item getter rest :
  Queue._getters self = stale ++ getter :: rest →
  Forall (λ g, done g w = true) stale →
  pending w getter →
  Queue.empty self = true →
  match Queue._get (Queue._put item (Queue._queue self)) with
  | Some (x, q) =>
      ∃ self' w',
        Queue.put_nowait item self w = Return tt (self', w')
        ∧ Queue._queue self' = q
        ∧ Queue._getters self' = rest
        ∧ outcome_of getter w' = Some (Result (VItem x))
  | None => raised (Queue.put_nowait item self w) = Some IndexError
  end.
Proof.
  intros Hg Hs [Hv Hpend] Hempty.
  unfold Queue.put_nowait.
  assert (He : Queue._getters (Queue._consume_expired self w)
               = getter :: rest).
  { simpl. rewrite Hg. apply expired_getters_app; [done|].
    by apply done_false_outcome. }
  rewrite He.
  assert (Hf : Queue.empty (Queue._consume_expired self w) = true)
    by exact Hempty.
  rewrite Hf. rewrite __put_internal_eq.
  cbn [Queue._queue Queue._consume_expired].
  destruct (Queue._get (Queue._put item (Queue._queue self))) as [[x q]|];
    [|done].
  eexists _, _. split; [done|]. simpl.
  split; [done|]. split; [done|].
  unfold set_result. apply outcome_of_resolve_pending. split.
  - unfold valid in *. pose proof (Event_clear_length (Queue._finished self) w).
    lia.
  - by rewrite Event_clear_outcome.
Qed.

(** Pushing [item] on the heap [[y]] and popping, when [item] is not
    below [y]. *)
Lemma heappush_heappop_singleton (lt : A → A → bool) y item :
  lt item y = false →
  heapq.heappop lt (heapq.heappush lt [y] item) = Some (y, [item]).
Proof.
  intros Hnlt. unfold heapq.heappush, heapq._siftdown. simpl.
  by rewrite Hnlt.
Qed.

(** C1: when a putter waits behind a full storage, [get_nowait] skips
    the putters that are done, takes the oldest one left, stores its item
    through [_put], resolves the putter with [None] and returns what
    [_get] then extracts from the storage, not the putter's item; in the
    same way a [put_nowait] that finds a getter waiting stores its item
    through [_put] and resolves the oldest live getter with what [_get]
    extracts; and in a [PriorityQueue] that holds one item [y] with
    [y < item], the caller of [get_nowait] gets [y] while the putter's
    [item] stays in the queue. *)
Theorem C1_get_nowait_requeries_storage :
  (∀ (M : Queue.Methods A) self w stale item putter rest,
     Queue._putters self = stale ++ (item, putter) :: rest →
     Forall (λ p, done (snd p) w = true) stale →
     pending w putter →
     Queue.full self = true →
     match Queue._get (Queue._put item (Queue._queue self)) with
     | Some (x, q) =>
         ∃ self' w',
           Queue.get_nowait self w = Return x (self', w')
           ∧ Queue._queue self' = q
           ∧ Queue._putters self' = rest
           ∧ Queue._unfinished_tasks self' = Queue._unfinished_tasks self + 1
           ∧ outcome_of putter w' = Some (Result VNone)
     | None => raised (Queue.get_nowait self w) = Some IndexError
     end)
  ∧ (∀ (M : Queue.Methods A) self w stale item getter rest,
       Queue._getters self = stale ++ getter :: rest →
       Forall (λ g, done g w = true) stale →
       pending w getter →
       Queue.empty self = true →
       match Queue._get (Queue._put item (Queue._queue self)) with
       | Some (x, q) =>
           ∃ self' w',
             Queue.put_nowait item self w = Return tt (self', w')
             ∧ Queue._queue self' = q
             ∧ Queue._getters self' = rest
             ∧ outcome_of getter w' = Some (Result (VItem x))
       | None => raised (Queue.put_nowait item self w) = Some IndexError
       end)
  ∧ (∀ (lt : A → A → bool) self w y item putter rest,
       Queue._maxsize self = 1 →
       Queue._queue self = [y] →
       Queue._putters self = (item, putter) :: rest →
       pending w putter →
       lt y item = true →
       lt item y = false →
       ∃ self' w',
         Queue.get_nowait (M:=PriorityQueue.methods lt) self w
         = Return y (self', w')
         ∧ Queue._queue self' = [item]
         ∧ outcome_of putter w' = Some (Result VNone)).
Proof.
  split; [exact get_nowait_putter|]. split; [exact put_nowait_getter|].
  intros lt self w y item putter rest Hm Hq Hp Hpend Hlt Hnlt.
  assert (Hfull : Queue.full self = true).
  { unfold Queue.full, Queue.maxsize, Queue.qsize. by rewrite Hm, Hq. }
  pose proof (get_nowait_putter (PriorityQueue.methods lt) self w [] item
                putter rest Hp ltac:(constructor) Hpend Hfull) as H.
  rewrite Hq in H.
  change (match heapq.heappop lt (heapq.heappush lt [y] item) with
          | Some (x, q) =>
              ∃ self' w',
                Queue.get_nowait (M:=PriorityQueue.methods lt) self w
                = Return x (self', w')
                ∧ Queue._queue self' = q
                ∧ Queue._putters self' = rest
                ∧ Queue._unfinished_tasks self' = Queue._unfinished_tasks self + 1
                ∧ outcome_of putter w' = Some (Result VNone)
          | None =>
              raised (Queue.get_nowait (M:=PriorityQueue.methods lt) self w)
              = Some IndexError
          end) in H.
  rewrite heappush_heappop_singleton in H by done.
  destruct H as (self' & w' & H1 & H2 & _ & _ & H5).
  by exists self', w'.
Qed.

End Rendezvous.

(** A consumer calling [get_nowait] on the full priority queue receives
    [(0, "b")], not the [(5, "z")] of the producer it unblocks. *)
Lemma C1_get_nowait_requeries_storage_witness :
  ∃ self' w',
    Queue.get_nowait (M:=PriorityQueue.methods pair_lt)
      (fst full_priority_queue) (snd full_priority_queue)
    = Return (0, "b"%string) (self', w')
    ∧ Queue._queue self' = [(5, "z"%string)]
    ∧ outcome_of 2%nat w' = Some (Result VNone).
Proof.
  apply (proj2 (proj2 (C1_get_nowait_requeries_storage (A:=Z * string)))
           pair_lt (fst full_priority_queue) (snd full_priority_queue)
           (0, "b"%string) (5, "z"%string) 2%nat []).
  - reflexivity.
  - reflexivity.
  - reflexivity.
  - split; [unfold valid; simpl; lia|reflexivity].
  - reflexivity.
  - reflexivity.
Defined.

(** * Ordering of the three queues *)

(** C8: after [put(1)], [put(2)], [put(3)] on a new queue, three [get]
    calls return 1, 2, 3 from a [Queue] and 3, 2, 1 from a [LifoQueue];
    after [put((1, "a"))], [put((0, "b"))], [put((2, "c"))] on a new
    [PriorityQueue] they return [(0, "b")], [(1, "a")], [(2, "c")]; the
    same with room for exactly three items. *)
Theorem C8_ordering_laws :
  (∀ maxsize, maxsize = 0 ∨ maxsize = 3 →
     put_then_get Queue.methods maxsize [1; 2; 3]
     = Some [got 1; got 2; got 3])
  ∧ (∀ maxsize, maxsize = 0 ∨ maxsize = 3 →
       put_then_get LifoQueue.methods maxsize [1; 2; 3]
       = Some [got 3; got 2; got 1])
  ∧ (∀ maxsize, maxsize = 0 ∨ maxsize = 3 →
       put_then_get (PriorityQueue.methods pair_lt) maxsize
         [(1, "a"%string); (0, "b"%string); (2, "c"%string)]
       = Some [got (0, "b"%string); got (1, "a"%string); got (2, "c"%string)]).
Proof.
  repeat split; intros maxsize [-> | ->]; vm_compute; reflexivity.
Qed.

Lemma C8_ordering_laws_witness :
  put_then_get Queue.methods 0 [1; 2; 3] = Some [got 1; got 2; got 3]
  ∧ put_then_get LifoQueue.methods 0 [1; 2; 3] = Some [got 3; got 2; got 1]
  ∧ put_then_get (PriorityQueue.methods pair_lt) 0
      [(1, "a"%string); (0, "b"%string); (2, "c"%string)]
    = Some [got (0, "b"%string); got (1, "a"%string); got (2, "c"%string)].
Proof.
  split; [|split].
  - apply (proj1 C8_ordering_laws). by left.
  - apply (proj1 (proj2 C8_ordering_laws)). by left.
  - apply (proj2 (proj2 C8_ordering_laws)). by left.
Defined.

(** * Condition.notify *)

Section Notify.
Context {A : Type}.
Import TimeoutGarbageCollector.
Implicit Types (w : World A) (self : Condition.t) (f g : nat).
Implicit Types (deque waiters fs : list nat).

Lemma live_pending w f : valid w f → live w f = true → pending w f.
Proof.
  intros Hv Hl. split; [done|]. apply done_false_outcome.
  unfold live in Hl. by destruct (done f w).
Qed.

(** Resolving a list of distinct pending futures resolves each of them
    and nothing else. *)
Lemma outcome_of_resolve_all (v : value A) fs w g :
  NoDup fs → Forall (pending w) fs →
  outcome_of g (foldl (λ w' f, set_result f v w') w fs)
  = if decide (g ∈ fs) then Some (Result v) else outcome_of g w.
Proof.
  revert w. induction fs as [|f fs IH]; intros w Hnd Hp; cbn [foldl].
  - destruct (decide (g ∈ [])) as [Hin|_]; [|done].
    by apply elem_of_nil in Hin.
  - apply NoDup_cons in Hnd as [Hnotin Hnd].
    apply Forall_cons in Hp as [Hpf Hp].
    rewrite IH; [|done|].
    + destruct (decide (g ∈ fs)) as [Hin|Hnin].
      * destruct (decide (g ∈ f :: fs)) as [_|Hn]; [done|].
        exfalso. apply Hn. by right.
      * destruct (decide (g = f)) as [->|Hne].
        -- destruct (decide (f ∈ f :: fs)) as [_|Hn];
             [|exfalso; apply Hn; by left].
           unfold set_result. by apply outcome_of_resolve_pending.
        -- destruct (decide (g ∈ f :: fs)) as [Hin|_].
           ++ apply elem_of_cons in Hin as [?|?]; done.
           ++ unfold set_result. by apply outcome_of_resolve_ne.
    + apply Forall_forall. intros x Hx.
      pose proof (proj1 (Forall_forall _ _) Hp x Hx) as [Hv Ho].
      split.
      * by apply valid_resolve.
      * unfold set_result. rewrite outcome_of_resolve_ne; [done|].
        intros ->. done.
Qed.

Lemma length_futures_resolve_all (v : value A) fs w :
  length (futures (foldl (λ w' f, set_result f v w') w fs))
  = length (futures w).
Proof.
  revert w. induction fs as [|f fs IH]; intros w; simpl; [done|].
  rewrite IH. apply length_futures_resolve.
Qed.

(** The loop of [notify] for [n >= 0]: it takes the first [n] live
    waiters in list order, and what it has popped is a prefix of the
    deque whose live entries are the ones taken. *)
Lemma notify_loop_spec w n deque waiters :
  0 <= n →
  ∃ scanned rest,
    let woken := take (Z.to_nat n) (filter (λ f, live w f) deque) in
    Condition.notify_loop w n deque waiters
    = (n - Z.of_nat (length woken), rest, waiters ++ woken)
    ∧ deque = scanned ++ rest
    ∧ filter (λ f, live w f) scanned = woken.
Proof.
  revert n waiters. induction deque as [|f deque IH]; intros n waiters Hn.
  - exists [], []. cbn zeta. rewrite filter_nil, take_nil.
    cbn [Condition.notify_loop length Z.of_nat].
    rewrite app_nil_r, Z.sub_0_r. done.
  - cbn zeta. cbn [Condition.notify_loop].
    destruct (n =? 0) eqn:E.
    + apply Z.eqb_eq in E. subst n. exists [], (f :: deque).
      cbn [Z.to_nat take length Z.of_nat]. rewrite app_nil_r. done.
    + apply Z.eqb_neq in E.
      assert (Hs : Z.to_nat n = S (Z.to_nat (n - 1))) by lia.
      destruct (done f w) eqn:Hd; cbn [negb].
      * destruct (IH n waiters Hn) as (scanned & rest & H1 & H2 & H3).
        cbn zeta in H1, H3.
        exists (f :: scanned), rest.
        assert (Hnl : ¬ live w f) by (unfold live; rewrite Hd; simpl; tauto).
        rewrite !filter_cons_False by exact Hnl.
        split; [exact H1|]. split; [by rewrite H2|exact H3].
      * destruct (IH (n - 1) (waiters ++ [f]) ltac:(lia))
          as (scanned & rest & H1 & H2 & H3).
        cbn zeta in H1, H3.
        exists (f :: scanned), rest.
        assert (Hl : live w f) by (unfold live; rewrite Hd; simpl; tauto).
        rewrite !filter_cons_True by exact Hl.
        rewrite Hs. cbn [take length].
        split; [|split].
        -- rewrite H1. rewrite <- app_assoc. cbn [app]. f_equal. f_equal. lia.
        -- by rewrite H2.
        -- by rewrite H3.
Qed.

(** C6, for [n >= 0]: on a condition whose waiters are distinct futures
    of the store, [notify(n)] resolves to [True] the first [n] waiters, in
    list order, of those that are not done, which makes
    [min(n, live_count)] of them; it changes no other future; and what it
    has popped is a prefix of the list whose entries that were not done
    are the ones resolved. *)
Theorem C6_notify_wakes_first_live n self w :
  0 <= n →
  waiters_wf w (_waiters self) →
  let woken := take (Z.to_nat n) (filter (λ f, live w f) (_waiters self)) in
  let self' := fst (Condition.notify n self w) in
  let w' := snd (Condition.notify n self w) in
  Z.of_nat (length (notified w w')) = Z.min n (live_count w (_waiters self))
  ∧ notified w w' ≡ₚ woken
  ∧ (∀ f, f ∈ woken →
       outcome_of f w = None ∧ outcome_of f w' = Some (Result (VBool true)))
  ∧ (∀ f, f ∉ woken → outcome_of f w' = outcome_of f w)
  ∧ (∃ scanned,
       _waiters self = scanned ++ _waiters self'
       ∧ filter (λ f, live w f) scanned = woken)
  ∧ _timeouts self' = _timeouts self.
Proof.
  intros Hn [Hnd Hv] woken self' w'.
  destruct (notify_loop_spec w n (_waiters self) [] Hn)
    as (scanned & rest & H1 & H2 & H3).
  cbn zeta in H1, H3. fold woken in H1, H3. cbn [app] in H1.
  assert (Hnotify : Condition.notify n self w
            = (mk rest (_timeouts self),
               foldl (λ w0 f, set_result f (VBool true) w0) w woken)).
  { unfold Condition.notify. by rewrite H1. }
  assert (Hsub : ∀ f, f ∈ woken → f ∈ _waiters self ∧ live w f = true).
  { intros f Hf. unfold woken in Hf. apply elem_of_take in Hf as (i & Hf & _).
    apply list_elem_of_lookup_2 in Hf. apply list_elem_of_filter in Hf as [Hl Hin].
    split; [done|]. by destruct (live w f). }
  assert (Hpend : Forall (pending w) woken).
  { apply Forall_forall. intros f Hf. destruct (Hsub f Hf) as [Hin Hl].
    apply live_pending; [|done].
    by apply (proj1 (Forall_forall _ _) Hv). }
  assert (Hnd' : NoDup woken).
  { unfold woken. eapply sublist_NoDup; [|apply sublist_take].
    by apply NoDup_filter. }
  assert (Hperm : notified w w' ≡ₚ woken).
  { apply NoDup_Permutation; [|done|].
    - unfold notified. apply NoDup_filter, NoDup_seq.
    - intros f. unfold notified. rewrite list_elem_of_filter, elem_of_seq.
      unfold w'. rewrite Hnotify. cbn [snd].
      rewrite outcome_of_resolve_all by done.
      rewrite length_futures_resolve_all.
      destruct (decide (f ∈ woken)) as [Hin|Hnin].
      + pose proof (proj1 (Forall_forall _ _) Hpend f Hin) as [Hvf Hof].
        rewrite Hof. unfold valid in Hvf. split; [done|].
        intros _. split; [done|lia].
      + split; [|done]. intros [Hm _].
        destruct (outcome_of f w); done. }
  split; [|split; [|split; [|split; [|split]]]].
  - rewrite Hperm. unfold woken, live_count. rewrite length_take. lia.
  - exact Hperm.
  - intros f Hf. split.
    + by apply (proj1 (Forall_forall _ _) Hpend).
    + unfold w'. rewrite Hnotify. cbn [snd].
      rewrite outcome_of_resolve_all by done.
      by rewrite decide_True.
  - intros f Hf. unfold w'. rewrite Hnotify. cbn [snd].
    rewrite outcome_of_resolve_all by done.
    by rewrite decide_False.
  - exists scanned. unfold self'. rewrite Hnotify. cbn [fst _waiters].
    by split.
  - unfold self'. by rewrite Hnotify.
Qed.

(** [wait] in one equation; its arrangement for the timeout is the one
    [_set_timeout] of queues.py makes. *)
Lemma Condition_wait_eq timeout self w :
  Condition.wait timeout self w
  = (length (futures w),
     mk (_waiters self ++ [length (futures w)]) (_timeouts self),
     _set_timeout (length (futures w)) timeout (snd (Future_new w))).
Proof.
  unfold Condition.wait, _set_timeout. cbn [Future_new snd].
  by destruct (truthy timeout).
Qed.

(** The waiters of a condition stay distinct futures of the store under
    every call. *)
Lemma waiters_wf_condition_step c (s : Condition.t * World A) :
  waiters_wf (snd s) (_waiters (fst s)) →
  waiters_wf (snd (condition_step c s)) (_waiters (fst (condition_step c s))).
Proof.
  destruct s as [self w]. cbn [fst snd]. intros [Hnd Hv].
  assert (Hnotify : ∀ n, waiters_wf (snd (Condition.notify n self w))
                            (_waiters (fst (Condition.notify n self w)))).
  { intros n. unfold Condition.notify.
    destruct (Condition.notify_loop w n (_waiters self) [])
      as [[n' deque] woken] eqn:E. cbn [fst snd _waiters].
    assert (Hsuf : ∃ scanned, _waiters self = scanned ++ deque).
    { clear -E. revert n woken E.
      generalize (@nil nat) as acc.
      induction (_waiters self) as [|f l IH]; intros acc n woken E.
      - simpl in E. injection E as _ <- _. by exists [].
      - simpl in E. destruct (n =? 0).
        + injection E as _ <- _. by exists [].
        + destruct (negb (done f w)).
          * destruct (IH _ _ _ E) as [sc ->]. by exists (f :: sc).
          * destruct (IH _ _ _ E) as [sc ->]. by exists (f :: sc). }
    destruct Hsuf as [scanned Hsuf]. rewrite Hsuf in Hnd, Hv.
    split.
    - by apply NoDup_app in Hnd as (_ & _ & ?).
    - apply Forall_app in Hv as [_ Hv].
      eapply Forall_impl; [exact Hv|]. intros f Hf. unfold valid.
      by rewrite length_futures_resolve_all. }
  destruct c as [timeout|n| |h]; cbn [condition_step fst snd].
  - rewrite Condition_wait_eq. cbn [fst snd _waiters]. split.
    + apply NoDup_app. split; [done|]. split; [|apply NoDup_singleton].
      intros f Hf Hin. apply list_elem_of_singleton in Hin. subst f.
      pose proof (proj1 (Forall_forall _ _) Hv _ Hf) as Hlt.
      unfold valid in Hlt. lia.
    + assert (Hlen : length (futures (_set_timeout (length (futures w)) timeout
                                        (snd (Future_new w))))
                     = S (length (futures w))).
      { by rewrite length_futures__set_timeout, length_futures_Future_new. }
      apply Forall_app. split.
      * eapply Forall_impl; [exact Hv|]. intros f. unfold valid.
        rewrite Hlen. lia.
      * apply Forall_singleton. unfold valid. rewrite Hlen. lia.
  - apply Hnotify.
  - apply Hnotify.
  - unfold Condition.fire.
    destruct (take_timeout h w) as [[f w1]|] eqn:E; [|done].
    unfold Condition.on_timeout. cbn [fst snd].
    pose proof (futures_take_timeout _ _ _ _ E) as Hfut.
    assert (Hlen : ∀ g, valid w g → valid (set_result f (VBool false) w1) g).
    { intros g. unfold valid, set_result.
      by rewrite length_futures_resolve, Hfut. }
    unfold _garbage_collect. destruct (100 <? _); cbn [_waiters].
    + split.
      * by apply NoDup_filter.
      * apply Forall_forall. intros g Hg.
        apply list_elem_of_filter in Hg as [_ Hg]. apply Hlen.
        by apply (proj1 (Forall_forall _ _) Hv).
    + split; [done|]. eapply Forall_impl; [exact Hv|]. exact Hlen.
Qed.

Lemma waiters_wf_condition_run cs (s : Condition.t * World A) :
  waiters_wf (snd s) (_waiters (fst s)) →
  waiters_wf (snd (condition_run cs s)) (_waiters (fst (condition_run cs s))).
Proof.
  revert s. induction cs as [|c cs IH]; intros s Hwf; [done|].
  unfold condition_run in *. cbn [foldl]. apply IH.
  by apply waiters_wf_condition_step.
Qed.

End Notify.

Lemma three_waiters_wf :
  waiters_wf (snd three_waiters)
    (TimeoutGarbageCollector._waiters (fst three_waiters)).
Proof.
  apply (waiters_wf_condition_run (A:=unit)). split; constructor.
Defined.

(** [notify(5)] with two of three waiters live wakes those two, the
    first and the third. *)
Lemma C6_notify_wakes_first_live_witness :
  Z.of_nat (length (notified (snd three_waiters)
                      (snd (Condition.notify 5 (fst three_waiters)
                              (snd three_waiters)))))
  = Z.min 5 (live_count (snd three_waiters)
               (TimeoutGarbageCollector._waiters (fst three_waiters)))
  ∧ notified (snd three_waiters)
      (snd (Condition.notify 5 (fst three_waiters) (snd three_waiters)))
    ≡ₚ [0%nat; 2%nat].
Proof.
  pose proof (C6_notify_wakes_first_live (A:=unit) 5
                (fst three_waiters) (snd three_waiters)
                ltac:(lia) three_waiters_wf) as (H1 & H2 & _).
  split; [exact H1|exact H2].
Defined.

(** C6 as stated fails for a negative [n]: [n] never reaches 0, the loop
    empties the deque, and [notify(-1)] wakes both live waiters, where
    [min(-1, 2)] is [-1]. *)
Lemma C6_notify_negative_wakes_all :
  live_count (snd three_waiters)
    (TimeoutGarbageCollector._waiters (fst three_waiters)) = 2
  ∧ notified (snd three_waiters)
      (snd (Condition.notify (-1) (fst three_waiters) (snd three_waiters)))
    = [0%nat; 2%nat]
  ∧ TimeoutGarbageCollector._waiters
      (fst (Condition.notify (-1) (fst three_waiters) (snd three_waiters)))
    = []
  ∧ Z.of_nat (length (notified (snd three_waiters)
                        (snd (Condition.notify (-1) (fst three_waiters)
                                (snd three_waiters)))))
    ≠ Z.min (-1) (live_count (snd three_waiters)
                    (TimeoutGarbageCollector._waiters (fst three_waiters))).
Proof. vm_compute. repeat split; congruence. Qed.

(** * The semaphore *)

Section SemaphoreFacts.
Context {A : Type}.
Import TimeoutGarbageCollector.
Implicit Types (w : World A) (self : Semaphore.t) (f g : nat).
Implicit Types (deque : list nat) (s : Semaphore.t * World A).

(** [acquire] in one equation. *)
Lemma Semaphore_acquire_eq timeout self w :
  Semaphore.acquire timeout self w
  = if 0 <? Semaphore._value self then
      (length (futures w),
       Semaphore.mk (Semaphore.base self) (Semaphore._value self - 1),
       set_result (length (futures w)) VReleasingContextManager
         (snd (Future_new w)))
    else
      (length (futures w),
       Semaphore.mk
         (mk (_waiters (Semaphore.base self) ++ [length (futures w)])
             (_timeouts (Semaphore.base self)))
         (Semaphore._value self),
       _set_timeout (length (futures w)) timeout (snd (Future_new w))).
Proof.
  unfold Semaphore.acquire, _set_timeout. cbn [Future_new snd].
  destruct (0 <? Semaphore._value self); [done|].
  by destruct (truthy timeout).
Qed.

(** The loop of [release] gives the permit to the first waiter that is
    not done, or to nobody. *)
Lemma release_loop_value deque value w :
  let r := Semaphore.release_loop deque value w in
  (r.1.2 = value ∧ r.2 = w ∧ r.1.1 = [])
  ∨ (r.1.2 = value - 1
     ∧ ∃ stale f,
         deque = stale ++ f :: r.1.1
         ∧ Forall (λ g, done g w = true) stale
         ∧ done f w = false
         ∧ r.2 = set_result f VReleasingContextManager w).
Proof.
  induction deque as [|f deque IH]; cbn zeta; cbn [Semaphore.release_loop].
  - by left.
  - destruct (done f w) eqn:Hd; cbn [negb].
    + destruct IH as [IH|(Hv & stale & f' & H1 & H2 & H3 & H4)]; [by left|].
      right. split; [done|]. exists (f :: stale), f'.
      split; [by rewrite H1 at 1|]. split; [by constructor|done].
    + right. split; [done|]. exists [], f. cbn [fst snd app].
      split; [done|]. split; [constructor|done].
Qed.

Lemma Semaphore_release_value self w :
  Semaphore._value (fst (Semaphore.release self w)) = Semaphore._value self
  ∨ Semaphore._value (fst (Semaphore.release self w)) = Semaphore._value self + 1.
Proof.
  unfold Semaphore.release.
  pose proof (release_loop_value (_waiters (Semaphore.base self))
                (Semaphore._value self + 1) w) as H. cbn zeta in H.
  destruct (Semaphore.release_loop _ _ w) as [[deque v] w'].
  cbn [fst snd Semaphore._value] in *.
  destruct H as [(-> & _)|(-> & _)]; [right|left]; lia.
Qed.

Lemma Semaphore_acquire_value timeout self w :
  0 <= Semaphore._value self →
  0 <= Semaphore._value (Semaphore.acquire timeout self w).1.2
       <= Semaphore._value self.
Proof.
  intros H. rewrite Semaphore_acquire_eq.
  destruct (0 <? Semaphore._value self) eqn:E; cbn [fst snd Semaphore._value].
  - apply Z.ltb_lt in E. lia.
  - lia.
Qed.

Lemma Semaphore_fire_value h self w :
  Semaphore._value (fst (Semaphore.fire h self w)) = Semaphore._value self.
Proof.
  unfold Semaphore.fire. by destruct (take_timeout h w) as [[f w1]|].
Qed.

Lemma semaphore_step_value c s :
  0 <= Semaphore._value (fst s) →
  0 <= Semaphore._value (fst (semaphore_step c s)).
Proof.
  destruct s as [self w]. cbn [fst]. intros H.
  destruct c as [timeout| |h]; cbn [semaphore_step fst snd].
  - pose proof (Semaphore_acquire_value timeout self w H) as H'.
    destruct (Semaphore.acquire timeout self w) as [[f s'] w'].
    cbn [fst snd] in *. lia.
  - destruct (Semaphore_release_value self w) as [-> | ->]; lia.
  - by rewrite Semaphore_fire_value.
Qed.

Lemma semaphore_run_value cs s :
  0 <= Semaphore._value (fst s) →
  0 <= Semaphore._value (fst (semaphore_run cs s)).
Proof.
  revert s. induction cs as [|c cs IH]; intros s H; [done|].
  unfold semaphore_run in *. cbn [foldl]. apply IH.
  by apply semaphore_step_value.
Qed.

Lemma bounded_step_value c (b b' : BoundedSemaphore.t * World A) :
  bounded_step c b = Some b' →
  0 <= Semaphore._value (BoundedSemaphore.sem (fst b))
       <= BoundedSemaphore._initial_value (fst b) →
  BoundedSemaphore._initial_value (fst b')
  = BoundedSemaphore._initial_value (fst b)
  ∧ 0 <= Semaphore._value (BoundedSemaphore.sem (fst b'))
         <= BoundedSemaphore._initial_value (fst b').
Proof.
  destruct b as [self w]. cbn [fst]. intros Hstep H.
  destruct c as [timeout| |h]; cbn [bounded_step fst snd] in Hstep.
  - unfold BoundedSemaphore.acquire in Hstep.
    pose proof (Semaphore_acquire_value timeout (BoundedSemaphore.sem self) w
                  ltac:(lia)) as H'.
    destruct (Semaphore.acquire timeout _ w) as [[f s'] w'].
    injection Hstep as <-. cbn [fst snd BoundedSemaphore._initial_value
                                  BoundedSemaphore.sem] in *. lia.
  - unfold BoundedSemaphore.release in Hstep.
    destruct (_ <=? _) eqn:E; [done|]. apply Z.leb_gt in E.
    pose proof (Semaphore_release_value (BoundedSemaphore.sem self) w) as H'.
    destruct (Semaphore.release _ w) as [s' w'].
    injection Hstep as <-. cbn [fst snd BoundedSemaphore._initial_value
                                  BoundedSemaphore.sem] in *. lia.
  - unfold BoundedSemaphore.fire in Hstep.
    pose proof (Semaphore_fire_value h (BoundedSemaphore.sem self) w) as H'.
    destruct (Semaphore.fire h _ w) as [s' w'].
    injection Hstep as <-. cbn [fst snd BoundedSemaphore._initial_value
                                  BoundedSemaphore.sem] in *. lia.
Qed.

Lemma bounded_run_value cs (b b' : BoundedSemaphore.t * World A) :
  bounded_run cs b = Some b' →
  0 <= Semaphore._value (BoundedSemaphore.sem (fst b))
       <= BoundedSemaphore._initial_value (fst b) →
  BoundedSemaphore._initial_value (fst b')
  = BoundedSemaphore._initial_value (fst b)
  ∧ 0 <= Semaphore._value (BoundedSemaphore.sem (fst b'))
         <= BoundedSemaphore._initial_value (fst b').
Proof.
  revert b. induction cs as [|c cs IH]; intros b Hrun H.
  - injection Hrun as <-. done.
  - cbn [bounded_run] in Hrun.
    destruct (bounded_step c b) as [b1|] eqn:E; [|done].
    destruct (bounded_step_value c b b1 E H) as [Hi Hb].
    destruct (IH b1 Hrun Hb) as [Hi' Hb']. split; [congruence|done].
Qed.

(** C4: from [Semaphore(value)], after every sequence of [acquire],
    [release] and timeouts the counter is at least 0; from
    [BoundedSemaphore(value)], after every such sequence in which no
    [release] raised, it is between 0 and the initial value. *)
Theorem C4_semaphore_value_bounds :
  (∀ (value : Z) self (w : World A) cs,
     Semaphore.__init__ value = inr self →
     0 <= Semaphore._value (fst (semaphore_run cs (self, w))))
  ∧ (∀ (value : Z) (self : BoundedSemaphore.t) (w : World A) cs
       (s' : BoundedSemaphore.t * World A),
       BoundedSemaphore.__init__ value = inr self →
       bounded_run cs (self, w) = Some s' →
       0 <= Semaphore._value (BoundedSemaphore.sem (fst s')) <= value).
Proof.
  split.
  - intros value self w cs Hinit. apply semaphore_run_value.
    unfold Semaphore.__init__ in Hinit.
    destruct (value <? 0) eqn:E; [done|]. apply Z.ltb_ge in E.
    injection Hinit as <-. done.
  - intros value b w cs s' Hinit Hrun.
    unfold BoundedSemaphore.__init__, Semaphore.__init__ in Hinit.
    destruct (value <? 0) eqn:E; [done|]. apply Z.ltb_ge in E.
    injection Hinit as <-.
    destruct (bounded_run_value cs _ s' Hrun) as [Hi Hb].
    + cbn. lia.
    + rewrite Hi in Hb. exact Hb.
Qed.

End SemaphoreFacts.

(** Two permits, three acquirers, then two releases. *)
Lemma C4_semaphore_value_bounds_witness :
  0 <= Semaphore._value
         (fst (semaphore_run
                 [SAcquire TNone; SAcquire TNone; SAcquire (TDelta 3);
                  SRelease; SFire 0; SRelease]
                 (Semaphore.mk TimeoutGarbageCollector.__init__ 2,
                  World_empty (A:=unit))))
  ∧ ∃ s',
      bounded_run
        [SAcquire TNone; SAcquire TNone; SAcquire (TDelta 3);
         SRelease; SFire 0; SRelease]
        (BoundedSemaphore.mk
           (Semaphore.mk TimeoutGarbageCollector.__init__ 2) 2,
         World_empty (A:=unit)) = Some s'
      ∧ 0 <= Semaphore._value (BoundedSemaphore.sem (fst s')) <= 2.
Proof.
  split.
  - apply (proj1 (C4_semaphore_value_bounds (A:=unit)) 2). reflexivity.
  - eexists. split; [vm_compute; reflexivity|].
    eapply (proj2 (C4_semaphore_value_bounds (A:=unit)) 2
              (BoundedSemaphore.mk
                 (Semaphore.mk TimeoutGarbageCollector.__init__ 2) 2)
              World_empty
              [SAcquire TNone; SAcquire TNone; SAcquire (TDelta 3);
               SRelease; SFire 0; SRelease]);
      [reflexivity|vm_compute; reflexivity].
Defined.

(** * FIFO hand-over of permits *)

Section Fairness.
Context {A : Type}.
Import TimeoutGarbageCollector.
Implicit Types (w : World A) (self : Semaphore.t) (f g : nat).
Implicit Types (s : Semaphore.t * World A) (ws : list nat).

Lemma acquire_keeps_outcome timeout self w g x :
  outcome_of g w = Some x →
  outcome_of g (snd (Semaphore.acquire timeout self w)) = Some x.
Proof.
  intros Hg. rewrite Semaphore_acquire_eq.
  destruct (0 <? Semaphore._value self); cbn [snd].
  - unfold set_result. apply outcome_of_resolve_keep.
    by rewrite outcome_of_Future_new.
  - by rewrite outcome_of__set_timeout, outcome_of_Future_new.
Qed.

Lemma acquires_keep_outcome timeouts s g x :
  outcome_of g (snd s) = Some x →
  outcome_of g (snd (snd (acquires timeouts s))) = Some x.
Proof.
  revert s. induction timeouts as [|t ts IH]; intros [self w] Hg; [done|].
  cbn [acquires fst snd] in *.
  pose proof (acquire_keeps_outcome t self w g x Hg) as H1.
  destruct (Semaphore.acquire t self w) as [[f self1] w1].
  pose proof (IH (self1, w1) H1) as H2.
  by destruct (acquires ts (self1, w1)) as [fs s2].
Qed.

(** While permits last, every [acquire] is served at once. *)
Lemma acquires_served timeouts s :
  Z.of_nat (length timeouts) <= Semaphore._value (fst s) →
  let r := acquires timeouts s in
  Forall (λ f, outcome_of f (snd (snd r))
               = Some (Result VReleasingContextManager)) (fst r)
  ∧ Semaphore._value (fst (snd r))
    = Semaphore._value (fst s) - Z.of_nat (length timeouts)
  ∧ Semaphore.base (fst (snd r)) = Semaphore.base (fst s).
Proof.
  revert s. induction timeouts as [|t ts IH]; intros [self w] Hlen; cbn zeta.
  - cbn. split; [constructor|]. split; [lia|done].
  - cbn [acquires fst snd length] in *.
    rewrite Semaphore_acquire_eq.
    rewrite (proj2 (Z.ltb_lt 0 (Semaphore._value self))) by lia.
    set (w1 := set_result (length (futures w)) VReleasingContextManager
                 (snd (Future_new w))).
    set (self1 := Semaphore.mk (Semaphore.base self) (Semaphore._value self - 1)).
    specialize (IH (self1, w1)). cbn zeta in IH. cbn [fst snd] in IH.
    destruct IH as (IH1 & IH2 & IH3); [subst self1; cbn; lia|].
    pose proof (acquires_keep_outcome ts (self1, w1) (length (futures w))
                  (Result VReleasingContextManager)) as Hk.
    destruct (acquires ts (self1, w1)) as [fs s2]. cbn [fst snd] in *.
    split; [|split].
    + constructor; [|done]. apply Hk. subst w1. unfold set_result.
      apply outcome_of_resolve_pending. apply pending_Future_new.
    + rewrite IH2. subst self1. cbn. lia.
    + rewrite IH3. by subst self1.
Qed.

(** Once the permits are gone, every [acquire] queues a new future at
    the back and resolves nothing. *)
Lemma acquires_queued timeouts s :
  Semaphore._value (fst s) = 0 →
  let r := acquires timeouts s in
  fst r = seq (length (futures (snd s))) (length timeouts)
  ∧ Semaphore._value (fst (snd r)) = 0
  ∧ _waiters (Semaphore.base (fst (snd r)))
    = _waiters (Semaphore.base (fst s)) ++ fst r
  ∧ length (futures (snd (snd r)))
    = (length (futures (snd s)) + length timeouts)%nat
  ∧ ∀ g, outcome_of g (snd (snd r)) = outcome_of g (snd s).
Proof.
  revert s. induction timeouts as [|t ts IH]; intros [self w] Hv; cbn zeta.
  - cbn [acquires fst snd length seq]. split; [done|]. split; [done|].
    split; [by rewrite app_nil_r|]. split; [lia|done].
  - cbn [acquires fst snd length] in *.
    rewrite Semaphore_acquire_eq. rewrite Hv. cbn [Z.ltb Z.compare].
    set (w1 := _set_timeout (length (futures w)) t (snd (Future_new w))).
    set (self1 := Semaphore.mk _ _).
    specialize (IH (self1, w1)). cbn zeta in IH. cbn [fst snd] in IH.
    destruct IH as (IH1 & IH2 & IH3 & IH4 & IH5); [by subst self1|].
    assert (Hlen : length (futures w1) = S (length (futures w))).
    { subst w1. by rewrite length_futures__set_timeout, length_futures_Future_new. }
    destruct (acquires ts (self1, w1)) as [fs s2]. cbn [fst snd] in *.
    split; [|split; [|split; [|split]]].
    + rewrite IH1, Hlen. done.
    + done.
    + rewrite IH3. subst self1. cbn. by rewrite <- app_assoc.
    + rewrite IH4, Hlen. lia.
    + intros g. rewrite IH5. subst w1.
      by rewrite outcome_of__set_timeout, outcome_of_Future_new.
Qed.

(** With no permit left and a pending waiter at the front, [release]
    resolves that waiter and the counter is 0 again. *)
Lemma release_hands_over self w f ws :
  Semaphore._value self = 0 →
  _waiters (Semaphore.base self) = f :: ws →
  pending w f →
  Semaphore.release self w
  = (Semaphore.mk (mk ws (_timeouts (Semaphore.base self))) 0,
     set_result f VReleasingContextManager w).
Proof.
  intros Hv Hw [_ Hp]. unfold Semaphore.release. rewrite Hw, Hv.
  cbn [Semaphore.release_loop].
  by rewrite (proj2 (done_false_outcome f w) Hp).
Qed.

Lemma release_keeps_outcome self w g x :
  outcome_of g w = Some x →
  outcome_of g (snd (Semaphore.release self w)) = Some x.
Proof.
  intros Hg. unfold Semaphore.release.
  pose proof (release_loop_value (_waiters (Semaphore.base self))
                (Semaphore._value self + 1) w) as H. cbn zeta in H.
  destruct (Semaphore.release_loop _ _ w) as [[deque v] w'].
  cbn [fst snd] in *.
  destruct H as [(_ & -> & _)|(_ & stale & f & _ & _ & _ & ->)]; [done|].
  unfold set_result. by apply outcome_of_resolve_keep.
Qed.

Lemma releases_keep_outcome k s g x :
  outcome_of g (snd s) = Some x →
  outcome_of g (snd (releases k s)) = Some x.
Proof.
  revert s. induction k as [|k IH]; intros [self w] Hg; [done|].
  cbn [releases fst snd] in *. apply IH.
  by apply release_keeps_outcome.
Qed.

(** [k] releases on a semaphore without permits whose queue holds
    distinct pending waiters: the first [k] waiters are resolved, in
    queue order, the others still wait, and the counter is 0. *)
Lemma releases_hand_over k ws self w :
  Semaphore._value self = 0 →
  _waiters (Semaphore.base self) = ws →
  NoDup ws → Forall (pending w) ws →
  (k <= length ws)%nat →
  let s' := releases k (self, w) in
  Semaphore._value (fst s') = 0
  ∧ _waiters (Semaphore.base (fst s')) = drop k ws
  ∧ ∀ i f, ws !! i = Some f →
      outcome_of f (snd s')
      = if decide (i < k)%nat then Some (Result VReleasingContextManager)
        else None.
Proof.
  revert ws self w. induction k as [|k IH]; intros ws self w Hv Hw Hnd Hp Hk.
  - cbn. split; [done|]. split; [done|]. intros i f Hi.
    apply list_elem_of_lookup_2 in Hi.
    by apply (proj1 (Forall_forall _ _) Hp).
  - destruct ws as [|f0 ws]; [cbn in Hk; lia|].
    apply NoDup_cons in Hnd as [Hnotin Hnd].
    apply Forall_cons in Hp as [Hp0 Hp].
    cbn zeta. cbn [releases fst snd].
    rewrite (release_hands_over self w f0 ws Hv Hw Hp0).
    set (w1 := set_result f0 VReleasingContextManager w).
    set (self1 := Semaphore.mk _ 0).
    assert (Hp1 : Forall (pending w1) ws).
    { apply Forall_forall. intros g Hg.
      pose proof (proj1 (Forall_forall _ _) Hp g Hg) as [Hgv Hgo].
      subst w1. unfold set_result. split.
      - by apply valid_resolve.
      - rewrite outcome_of_resolve_ne; [done|]. intros ->. done. }
    destruct (IH ws self1 w1 eq_refl eq_refl Hnd Hp1 ltac:(cbn in Hk; lia))
      as (IH1 & IH2 & IH3).
    split; [done|]. split; [done|].
    intros [|i] f Hi.
    + cbn in Hi. injection Hi as <-.
      rewrite decide_True by lia.
      apply releases_keep_outcome. cbn [snd]. subst w1. unfold set_result.
      by apply outcome_of_resolve_pending.
    + cbn in Hi. rewrite (IH3 i f Hi).
      destruct (decide (i < k)%nat), (decide (S i < S k)%nat); (done || lia).
Qed.

(** C2: take [Semaphore(value)], let [value] callers acquire, so that no
    permit is left, and let [N] more callers acquire.  These [N] get
    pending futures, queued in call order.  After [k <= N] releases the
    first [k] of them hold the permit, in that order, the others still
    wait, and the counter is 0: the permit a [release] frees goes to the
    oldest waiter and is never left for another caller to take. *)
Theorem C2_fifo_fairness (value : Z) self w (holders queue : list timeout_arg)
    (k : nat) :
  Semaphore.__init__ value = inr self →
  Z.of_nat (length holders) = value →
  (k <= length queue)%nat →
  let s1 := snd (acquires holders (self, w)) in
  let queued := fst (acquires queue s1) in
  let s2 := snd (acquires queue s1) in
  let s3 := releases k s2 in
  Forall (λ f, outcome_of f (snd s1)
               = Some (Result VReleasingContextManager))
         (fst (acquires holders (self, w)))
  ∧ length queued = length queue
  ∧ Forall (λ f, outcome_of f (snd s2) = None) queued
  ∧ _waiters (Semaphore.base (fst s2)) = queued
  ∧ (∀ i f, queued !! i = Some f →
       outcome_of f (snd s3)
       = if decide (i < k)%nat then Some (Result VReleasingContextManager)
         else None)
  ∧ _waiters (Semaphore.base (fst s3)) = drop k queued
  ∧ Semaphore._value (fst s3) = 0.
Proof.
  intros Hinit Hh Hk s1 queued s2 s3.
  unfold Semaphore.__init__ in Hinit.
  destruct (value <? 0); [done|]. injection Hinit as <-.
  destruct (acquires_served holders
              (Semaphore.mk TimeoutGarbageCollector.__init__ value, w))
    as (Hs1 & Hs2 & Hs3); [cbn; lia|].
  cbn [fst snd Semaphore._value Semaphore.base] in Hs2, Hs3.
  fold s1 in Hs1, Hs2, Hs3.
  destruct (acquires_queued queue s1) as (Hq1 & Hq2 & Hq3 & Hq4 & Hq5); [lia|].
  fold queued in Hq1, Hq3. fold s2 in Hq2, Hq3, Hq4, Hq5.
  rewrite Hs3 in Hq3. cbn in Hq3.
  assert (Hlen : length queued = length queue) by (by rewrite Hq1, length_seq).
  assert (Hpend : Forall (pending (snd s2)) queued).
  { apply Forall_forall. intros f Hf. rewrite Hq1 in Hf.
    apply elem_of_seq in Hf. split.
    - unfold valid. rewrite Hq4. lia.
    - rewrite Hq5. apply outcome_of_invalid. unfold valid. lia. }
  destruct (releases_hand_over k queued (fst s2) (snd s2) Hq2 Hq3)
    as (Hr1 & Hr2 & Hr3).
  { rewrite Hq1. apply NoDup_seq. }
  { done. }
  { lia. }
  replace (fst s2, snd s2) with s2 in * by (by destruct s2).
  fold s3 in Hr1, Hr2, Hr3.
  split; [done|]. split; [done|]. split.
  { eapply Forall_impl; [exact Hpend|]. by intros f [_ ?]. }
  split; [done|]. split; [done|]. split; done.
Qed.

End Fairness.

(** [Semaphore(2)], two holders, three waiters, two releases: the first
    two waiters hold the permit, the third still waits. *)
Lemma C2_fifo_fairness_witness :
  let s1 := snd (acquires [TNone; TNone]
                   (Semaphore.mk TimeoutGarbageCollector.__init__ 2,
                    World_empty (A:=unit))) in
  let s3 := releases 2 (snd (acquires [TNone; TDelta 4; TNone] s1)) in
  fst (acquires [TNone; TDelta 4; TNone] s1) = [2%nat; 3%nat; 4%nat]
  ∧ outcome_of 2 (snd s3) = Some (Result VReleasingContextManager)
  ∧ outcome_of 3 (snd s3) = Some (Result VReleasingContextManager)
  ∧ outcome_of 4 (snd s3) = None
  ∧ Semaphore._value (fst s3) = 0.
Proof.
  intros s1 s3.
  pose proof (C2_fifo_fairness (A:=unit) 2
                (Semaphore.mk TimeoutGarbageCollector.__init__ 2) World_empty
                [TNone; TNone] [TNone; TDelta 4; TNone] 2
                eq_refl eq_refl ltac:(cbn; lia))
    as (_ & _ & _ & _ & H & _ & Hv).
  split; [reflexivity|].
  split; [exact (H 0%nat 2%nat eq_refl)|].
  split; [exact (H 1%nat 3%nat eq_refl)|].
  split; [exact (H 2%nat 4%nat eq_refl)|exact Hv].
Defined.

(** * A timeout that is falsy schedules nothing *)

Section Extends.
Context {A : Type}.
Implicit Types (w : World A) (f g h : nat) (o : outcome A).

Lemma timers_valid_targets w : timers_valid w ↔ Forall (valid w) (targets w).
Proof. unfold timers_valid, targets. by rewrite Forall_fmap. Qed.

Lemma extends_refl w : extends w w.
Proof. split; [done|]. split; [by left|done]. Qed.

Lemma extends_trans w1 w2 w3 : extends w1 w2 → extends w2 w3 → extends w1 w3.
Proof.
  intros (L1 & T1 & O1) (L2 & T2 & O2). split; [lia|]. split.
  - intros g Hg. destruct (T2 g Hg) as [Hin|Hnew].
    + destruct (T1 g Hin) as [?|?]; [by left|right; lia].
    + right. lia.
  - intros g Hv Hn Ho. apply O1; [done..|]. apply O2; [| |done].
    + unfold valid in *. lia.
    + intros Hin. destruct (T1 g Hin) as [?|?]; [done|].
      unfold valid in Hv. lia.
Qed.

Lemma timers_valid_extends w w' :
  extends w w' → timers_valid w → timers_valid w'.
Proof.
  intros (L & T & _) Ht. apply timers_valid_targets.
  apply timers_valid_targets in Ht. apply Forall_forall. intros g Hg.
  destruct (T g Hg) as [Hin|Hnew].
  - pose proof (proj1 (Forall_forall _ _) Ht g Hin) as Hv.
    unfold valid in *. lia.
  - unfold valid. lia.
Qed.

Lemma untimed_extends w w' f : extends w w' → untimed w f → untimed w' f.
Proof.
  intros (L & T & O) (Hv & Hn & Ho). split; [|split].
  - unfold valid in *. lia.
  - intros Hin. destruct (T f Hin) as [?|?]; [done|].
    unfold valid in Hv. lia.
  - intros Ht. apply Ho. by apply O.
Qed.

Lemma extends_Future_new w : extends w (snd (Future_new w)).
Proof.
  split; [rewrite length_futures_Future_new; lia|]. split.
  - intros g Hg. by left.
  - intros g _ _. by rewrite outcome_of_Future_new.
Qed.

Lemma targets_remove_timeout h w g :
  g ∈ targets (remove_timeout h w) → g ∈ targets w.
Proof.
  unfold targets. cbn. intros Hin.
  apply list_elem_of_fmap in Hin as (e & -> & He).
  apply list_elem_of_filter in He as [_ He].
  apply list_elem_of_fmap. by exists e.
Qed.

Lemma extends_remove_timeout h w : extends w (remove_timeout h w).
Proof.
  split; [done|]. split; [|done].
  intros g Hg. left. by apply targets_remove_timeout in Hg.
Qed.

Lemma extends_remove_timeouts hs w :
  extends w (foldl (λ w' h, remove_timeout h w') w hs).
Proof.
  revert w. induction hs as [|h hs IH]; intros w; [apply extends_refl|].
  cbn [foldl]. eapply extends_trans; [apply extends_remove_timeout|apply IH].
Qed.

Lemma targets_resolve g o w x : x ∈ targets (resolve g o w) → x ∈ targets w.
Proof.
  unfold resolve.
  destruct (futures w !! g) as [fut|]; [|done].
  destruct (_result fut); [done|].
  intros Hx.
  destruct (extends_remove_timeouts (_callbacks fut)
              (mkWorld (<[g:=mkFuture (Some o) []]> (futures w)) (io_loop w)))
    as (_ & T & _).
  destruct (T x Hx) as [?|Hr]; [done|].
  rewrite futures_remove_timeouts in Hr. lia.
Qed.

(** Resolving [g] is harmless when the outcome is not a timeout's. *)
Lemma extends_resolve g o w :
  ¬ timeout_outcome (Some o) → extends w (resolve g o w).
Proof.
  intros Hno. split; [by rewrite length_futures_resolve|]. split.
  - intros x Hx. left. by apply targets_resolve in Hx.
  - intros x Hv Hn. destruct (decide (x = g)) as [->|Hne].
    + destruct (outcome_of g w) as [o'|] eqn:Ho.
      * by rewrite (outcome_of_resolve_keep g o w g o' Ho).
      * rewrite outcome_of_resolve_pending by done. done.
    + by rewrite outcome_of_resolve_ne.
Qed.

Lemma take_timeout_target h w g w' :
  take_timeout h w = Some (g, w') →
  g ∈ targets w ∧ w' = remove_timeout h w.
Proof.
  unfold take_timeout.
  destruct (list_find _ _) as [[i [h' [t g']]]|] eqn:E; [|done].
  intros [= -> <-]. split; [|done].
  apply list_find_Some in E as (Hi & _ & _).
  unfold targets. apply list_elem_of_fmap. exists (h', (t, g)).
  split; [done|]. by apply list_elem_of_lookup_2 in Hi.
Qed.

(** A timeout that fires resolves a future that had it scheduled. *)
Lemma extends_fire h w g w' o :
  take_timeout h w = Some (g, w') → extends w (resolve g o w').
Proof.
  intros E. apply take_timeout_target in E as [Hin ->].
  split; [by rewrite length_futures_resolve|]. split.
  - intros x Hx. left. apply targets_resolve in Hx.
    by apply targets_remove_timeout in Hx.
  - intros x Hv Hn. rewrite outcome_of_resolve_ne; [done|].
    intros ->. done.
Qed.

(** Scheduling a timeout for a future made since [w]. *)
Lemma extends__set_timeout w w1 g t :
  extends w w1 → (length (futures w) <= g)%nat → valid w1 g →
  extends w (_set_timeout g t w1).
Proof.
  intros (L & T & O) Hnew Hg.
  split; [rewrite length_futures__set_timeout; lia|]. split.
  - intros x. rewrite length_futures__set_timeout.
    unfold _set_timeout. destruct (truthy t); [|apply T].
    unfold targets. cbn. rewrite fmap_app. intros Hx.
    apply elem_of_app in Hx as [Hx|Hx]; [by apply T|].
    apply list_elem_of_singleton in Hx. cbn in Hx. subst x.
    right. unfold valid in Hg. lia.
  - intros x Hv Hn. rewrite outcome_of__set_timeout. by apply O.
Qed.

Lemma extends_resolve_all (v : value A) fs w :
  ¬ timeout_outcome (Some (Result v)) →
  extends w (foldl (λ w' g, set_result g v w') w fs).
Proof.
  intros Hv. revert w. induction fs as [|g fs IH]; intros w;
    [apply extends_refl|].
  cbn [foldl]. eapply extends_trans; [|apply IH].
  unfold set_result. by apply extends_resolve.
Qed.

(** A future just made is untimed where every scheduled timeout is for
    a future of the store. *)
Lemma untimed_new w :
  timers_valid w → untimed (snd (Future_new w)) (length (futures w)).
Proof.
  intros Ht. destruct (pending_Future_new w) as [Hv Ho].
  split; [done|]. split.
  - intros Hin. apply timers_valid_targets in Ht.
    pose proof (proj1 (Forall_forall _ _) Ht _ Hin) as Hlt.
    unfold valid in Hlt. lia.
  - rewrite Ho. intros [?|?]; done.
Qed.

Lemma not_timeout_VBool_true :
  ¬ timeout_outcome (A:=A) (Some (Result (VBool true))).
Proof. intros [?|?]; done. Qed.

Lemma not_timeout_VReleasingContextManager :
  ¬ timeout_outcome (A:=A) (Some (Result VReleasingContextManager)).
Proof. intros [?|?]; done. Qed.

Lemma not_timeout_VNone : ¬ timeout_outcome (A:=A) (Some (Result VNone)).
Proof. intros [?|?]; done. Qed.

Lemma not_timeout_VItem (x : A) :
  ¬ timeout_outcome (Some (Result (VItem x))).
Proof. intros [?|?]; done. Qed.

End Extends.

Section ExtendsLocks.
Context {A : Type}.
Import TimeoutGarbageCollector.
Implicit Types (w : World A) (f g h : nat).

(** What [wait] and the queueing branch of [acquire] do to the world. *)
Lemma extends_new_waiter t w :
  extends w (_set_timeout (length (futures w)) t (snd (Future_new w))).
Proof.
  apply extends__set_timeout; [apply extends_Future_new|lia|].
  apply (pending_Future_new w).
Qed.

Lemma extends_Condition_wait t (self : Condition.t) w :
  extends w (snd (Condition.wait t self w)).
Proof. rewrite Condition_wait_eq. apply extends_new_waiter. Qed.

Lemma extends_Condition_notify n (self : Condition.t) w :
  extends w (snd (Condition.notify n self w)).
Proof.
  unfold Condition.notify.
  destruct (Condition.notify_loop w n (_waiters self) []) as [[n' deque] fs].
  cbn [snd]. apply extends_resolve_all, not_timeout_VBool_true.
Qed.

Lemma extends_Condition_fire h (self : Condition.t) w :
  extends w (snd (Condition.fire h self w)).
Proof.
  unfold Condition.fire.
  destruct (take_timeout h w) as [[g w1]|] eqn:E; [|apply extends_refl].
  unfold Condition.on_timeout, set_result. cbn [snd].
  by eapply extends_fire.
Qed.

Lemma extends_condition_step c (s : Condition.t * World A) :
  extends (snd s) (snd (condition_step c s)).
Proof.
  destruct s as [self w]. destruct c as [t|n| |h]; cbn [condition_step fst snd].
  - pose proof (extends_Condition_wait t self w) as H.
    by destruct (Condition.wait t self w) as [[f s'] w'].
  - apply extends_Condition_notify.
  - apply extends_Condition_notify.
  - apply extends_Condition_fire.
Qed.

Lemma extends_condition_run cs (s : Condition.t * World A) :
  extends (snd s) (snd (condition_run cs s)).
Proof.
  revert s. induction cs as [|c cs IH]; intros s; [apply extends_refl|].
  unfold condition_run in *. cbn [foldl].
  eapply extends_trans; [apply extends_condition_step|apply IH].
Qed.

Lemma extends_Semaphore_acquire t (self : Semaphore.t) w :
  extends w (snd (Semaphore.acquire t self w)).
Proof.
  rewrite Semaphore_acquire_eq.
  destruct (0 <? Semaphore._value self); cbn [snd].
  - eapply extends_trans; [apply extends_Future_new|].
    unfold set_result. apply extends_resolve.
    apply not_timeout_VReleasingContextManager.
  - apply extends_new_waiter.
Qed.

Lemma extends_Semaphore_release (self : Semaphore.t) w :
  extends w (snd (Semaphore.release self w)).
Proof.
  unfold Semaphore.release.
  pose proof (release_loop_value (_waiters (Semaphore.base self))
                (Semaphore._value self + 1) w) as H. cbn zeta in H.
  destruct (Semaphore.release_loop _ _ w) as [[deque v] w'].
  cbn [fst snd] in *.
  destruct H as [(_ & -> & _)|(_ & stale & f & _ & _ & _ & ->)];
    [apply extends_refl|].
  unfold set_result. apply extends_resolve.
  apply not_timeout_VReleasingContextManager.
Qed.

Lemma extends_Semaphore_fire h (self : Semaphore.t) w :
  extends w (snd (Semaphore.fire h self w)).
Proof.
  unfold Semaphore.fire.
  destruct (take_timeout h w) as [[g w1]|] eqn:E; [|apply extends_refl].
  unfold Semaphore.on_timeout, set_exception. cbn [snd].
  by eapply extends_fire.
Qed.

Lemma extends_semaphore_step c (s : Semaphore.t * World A) :
  extends (snd s) (snd (semaphore_step c s)).
Proof.
  destruct s as [self w]. destruct c as [t| |h]; cbn [semaphore_step fst snd].
  - pose proof (extends_Semaphore_acquire t self w) as H.
    by destruct (Semaphore.acquire t self w) as [[f s'] w'].
  - apply extends_Semaphore_release.
  - apply extends_Semaphore_fire.
Qed.

Lemma extends_semaphore_run cs (s : Semaphore.t * World A) :
  extends (snd s) (snd (semaphore_run cs s)).
Proof.
  revert s. induction cs as [|c cs IH]; intros s; [apply extends_refl|].
  unfold semaphore_run in *. cbn [foldl].
  eapply extends_trans; [apply extends_semaphore_step|apply IH].
Qed.

(** A lock goes through its semaphore for everything it does to the
    world. *)
Lemma Lock_acquire_world t (self : Lock.t) w :
  Lock.acquire t self w
  = ((Semaphore.acquire t (BoundedSemaphore.sem (Lock._block self)) w).1.1,
     Lock.mk (BoundedSemaphore.mk
                (Semaphore.acquire t (BoundedSemaphore.sem (Lock._block self)) w).1.2
                (BoundedSemaphore._initial_value (Lock._block self))),
     (Semaphore.acquire t (BoundedSemaphore.sem (Lock._block self)) w).2).
Proof.
  unfold Lock.acquire, BoundedSemaphore.acquire.
  by destruct (Semaphore.acquire t _ w) as [[f s'] w'].
Qed.

Lemma extends_lock_step c (s : Lock.t * World A) :
  extends (snd s) (snd (lock_step c s)).
Proof.
  destruct s as [self w]. destruct c as [t| |h]; cbn [lock_step fst snd].
  - rewrite Lock_acquire_world. cbn [snd]. apply extends_Semaphore_acquire.
  - unfold Lock.release, BoundedSemaphore.release.
    destruct (_ <=? _); [apply extends_refl|].
    pose proof (extends_Semaphore_release
                  (BoundedSemaphore.sem (Lock._block self)) w) as H.
    by destruct (Semaphore.release _ w) as [s' w'].
  - unfold Lock.fire, BoundedSemaphore.fire.
    pose proof (extends_Semaphore_fire h
                  (BoundedSemaphore.sem (Lock._block self)) w) as H.
    by destruct (Semaphore.fire h _ w) as [s' w'].
Qed.

Lemma extends_lock_run cs (s : Lock.t * World A) :
  extends (snd s) (snd (lock_run cs s)).
Proof.
  revert s. induction cs as [|c cs IH]; intros s; [apply extends_refl|].
  unfold lock_run in *. cbn [foldl].
  eapply extends_trans; [apply extends_lock_step|apply IH].
Qed.

End ExtendsLocks.

Section ExtendsQueue.
Context {A : Type} {M : Queue.Methods A}.
Implicit Types (w : World A) (self : Queue.t A) (item : A).

Lemma extends_Event_clear (e : Event.t) w : extends w (snd (Event.clear e w)).
Proof.
  destruct (done (Event._future e) w) eqn:Hd.
  - rewrite Event_clear_done by done. apply extends_Future_new.
  - rewrite Event_clear_not_done by done. apply extends_refl.
Qed.

Lemma extends_Event_set (e : Event.t) w : extends w (Event.set e w).
Proof.
  unfold Event.set. destruct (negb _); [|apply extends_refl].
  unfold set_result. apply extends_resolve, not_timeout_VNone.
Qed.

Lemma extends_put_nowait item self w :
  extends w (snd (state_of (Queue.put_nowait item self w))).
Proof.
  unfold Queue.put_nowait.
  destruct (Queue._getters (Queue._consume_expired self w)) as [|g gs].
  - destruct (Queue.full _); [apply extends_refl|].
    rewrite __put_internal_eq. apply extends_Event_clear.
  - destruct (Queue.empty _); [|apply extends_refl].
    rewrite __put_internal_eq.
    destruct (Queue._get _) as [[x q]|]; cbn [state_of snd].
    + eapply extends_trans; [apply extends_Event_clear|].
      unfold set_result. apply extends_resolve, not_timeout_VItem.
    + apply extends_Event_clear.
Qed.

Lemma extends_get_nowait self w :
  extends w (snd (state_of (Queue.get_nowait self w))).
Proof.
  unfold Queue.get_nowait.
  destruct (Queue._putters (Queue._consume_expired self w)) as [|[i p] ps].
  - destruct (negb _); [|apply extends_refl].
    destruct (Queue._get _) as [[x q]|]; apply extends_refl.
  - destruct (Queue.full _); [|apply extends_refl].
    rewrite __put_internal_eq.
    assert (H : extends w (set_result p VNone
                  (snd (Event.clear (Queue._finished
                                       (Queue._consume_expired self w)) w)))).
    { eapply extends_trans; [apply extends_Event_clear|].
      unfold set_result. apply extends_resolve, not_timeout_VNone. }
    destruct (Queue._get _) as [[x q]|]; exact H.
Qed.

Lemma extends_put item timeout self w :
  extends w (snd (state_of (Queue.put item timeout self w))).
Proof.
  unfold Queue.put.
  pose proof (extends_put_nowait item self w) as H.
  destruct (Queue.put_nowait item self w) as [[] [s1 w1]|e [s1 w1]];
    cbn [state_of snd] in *; [done|].
  destruct e; try done. cbn [Future_new state_of snd].
  eapply extends_trans; [exact H|]. apply extends_new_waiter.
Qed.

Lemma extends_get timeout self w :
  extends w (snd (state_of (Queue.get timeout self w))).
Proof.
  unfold Queue.get. cbn [Future_new].
  pose proof (extends_get_nowait self (snd (Future_new w))) as H.
  cbn [Future_new snd] in H.
  destruct (Queue.get_nowait self _) as [x [s1 w1]|e [s1 w1]];
    cbn [state_of snd] in *.
  - eapply extends_trans; [apply extends_Future_new|].
    eapply extends_trans; [exact H|].
    unfold set_result. apply extends_resolve, not_timeout_VItem.
  - assert (H0 : extends w w1)
      by (eapply extends_trans; [apply extends_Future_new|exact H]).
    destruct e; try done. cbn [state_of snd].
    apply extends__set_timeout; [done|lia|].
    destruct H as (L & _). unfold valid. cbn in L.
    rewrite length_app in L. cbn in L. lia.
Qed.

Lemma extends_task_done self w :
  extends w (snd (state_of (Queue.task_done self w))).
Proof.
  unfold Queue.task_done. destruct (_ <=? 0); [apply extends_refl|].
  destruct (_ =? 0); [|apply extends_refl]. apply extends_Event_set.
Qed.

Lemma extends_Queue_fire h self w : extends w (snd (Queue.fire h self w)).
Proof.
  unfold Queue.fire.
  destruct (take_timeout h w) as [[g w1]|] eqn:E; [|apply extends_refl].
  unfold set_exception. cbn [snd]. by eapply extends_fire.
Qed.

Lemma extends_queue_step c (s : Queue.t A * World A) :
  extends (snd s) (snd (queue_step c s)).
Proof.
  destruct s as [self w]. destruct c; cbn [queue_step fst snd].
  - apply extends_put.
  - apply extends_get.
  - apply extends_put_nowait.
  - apply extends_get_nowait.
  - apply extends_task_done.
  - apply extends_Queue_fire.
Qed.

Lemma extends_queue_run cs (s : Queue.t A * World A) :
  extends (snd s) (snd (queue_run cs s)).
Proof.
  revert s. induction cs as [|c cs IH]; intros s; [apply extends_refl|].
  unfold queue_run in *. cbn [foldl].
  eapply extends_trans; [apply extends_queue_step|apply IH].
Qed.

End ExtendsQueue.

Section FalsyTimeout.
Context {A : Type}.
Import TimeoutGarbageCollector.
Implicit Types (w : World A) (f g h : nat).
Variable timeout : timeout_arg.
Hypothesis falsy : truthy timeout = false.

Lemma _set_timeout_falsy g w : _set_timeout g timeout w = w.
Proof. unfold _set_timeout. by rewrite falsy. Qed.

Lemma _set_timeout_TNone g w : _set_timeout g TNone w = w.
Proof. reflexivity. Qed.

Lemma Condition_wait_falsy (self : Condition.t) w :
  Condition.wait timeout self w = Condition.wait TNone self w.
Proof. by rewrite !Condition_wait_eq, _set_timeout_falsy. Qed.

Lemma Semaphore_acquire_falsy (self : Semaphore.t) w :
  Semaphore.acquire timeout self w = Semaphore.acquire TNone self w.
Proof. by rewrite !Semaphore_acquire_eq, _set_timeout_falsy. Qed.

Lemma Lock_acquire_falsy (self : Lock.t) w :
  Lock.acquire timeout self w = Lock.acquire TNone self w.
Proof. by rewrite !Lock_acquire_world, Semaphore_acquire_falsy. Qed.

Lemma Queue_put_falsy (M : Queue.Methods A) item (self : Queue.t A) w :
  Queue.put item timeout self w = Queue.put item TNone self w.
Proof.
  unfold Queue.put.
  destruct (Queue.put_nowait item self w) as [[] [s1 w1]|e [s1 w1]]; [done|].
  destruct e; try done. cbn [Future_new]. by rewrite _set_timeout_falsy.
Qed.

Lemma Queue_get_falsy (M : Queue.Methods A) (self : Queue.t A) w :
  Queue.get timeout self w = Queue.get TNone self w.
Proof.
  unfold Queue.get. cbn [Future_new].
  destruct (Queue.get_nowait self _) as [x [s1 w1]|e [s1 w1]]; [done|].
  destruct e; try done. by rewrite _set_timeout_falsy.
Qed.

Lemma Condition_wait_untimed (self : Condition.t) w :
  timers_valid w →
  untimed (Condition.wait timeout self w).2 (Condition.wait timeout self w).1.1.
Proof.
  intros Ht. rewrite Condition_wait_eq, _set_timeout_falsy. cbn [fst snd].
  by apply untimed_new.
Qed.

Lemma Semaphore_acquire_untimed (self : Semaphore.t) w :
  timers_valid w →
  untimed (Semaphore.acquire timeout self w).2
          (Semaphore.acquire timeout self w).1.1.
Proof.
  intros Ht. rewrite Semaphore_acquire_eq, _set_timeout_falsy.
  destruct (0 <? Semaphore._value self); cbn [fst snd].
  - eapply untimed_extends; [|by apply untimed_new].
    unfold set_result. apply extends_resolve.
    apply not_timeout_VReleasingContextManager.
  - by apply untimed_new.
Qed.

Lemma Queue_put_untimed (M : Queue.Methods A) item (self : Queue.t A) w f s' :
  timers_valid w →
  Queue.put item timeout self w = Return (Ref f) s' →
  untimed (snd s') f.
Proof.
  intros Ht. unfold Queue.put.
  pose proof (extends_put_nowait item self w) as H.
  destruct (Queue.put_nowait item self w) as [[] [s1 w1]|e [s1 w1]]; [done|].
  destruct e; try done. cbn [Future_new state_of snd] in *.
  rewrite _set_timeout_falsy. intros [= <- <-]. cbn [snd].
  apply (untimed_new w1). by eapply timers_valid_extends.
Qed.

Lemma Queue_get_untimed (M : Queue.Methods A) (self : Queue.t A) w f s' :
  timers_valid w →
  Queue.get timeout self w = Return f s' →
  untimed (snd s') f.
Proof.
  intros Ht. unfold Queue.get. cbn [Future_new].
  pose proof (untimed_new w Ht) as Hu.
  pose proof (extends_get_nowait self (snd (Future_new w))) as H.
  cbn [Future_new snd] in *.
  destruct (Queue.get_nowait self _) as [x [s1 w1]|e [s1 w1]];
    cbn [state_of snd] in *.
  - intros [= <- <-]. cbn [snd].
    eapply untimed_extends; [|eapply untimed_extends; [exact H|exact Hu]].
    unfold set_result. apply extends_resolve, not_timeout_VItem.
  - destruct e; try done. rewrite _set_timeout_falsy.
    intros [= <- <-]. cbn [snd]. by eapply untimed_extends.
Qed.

(** C10: with a timeout that is falsy (0, or a zero [timedelta]),
    [Condition.wait], [Semaphore.acquire], [Lock.acquire], [Queue.put] and
    [Queue.get] do what they do with [None]; the future they return has
    no timeout scheduled, and whatever calls and timeouts follow, it is
    never resolved the way a timeout resolves it ([False] for a
    condition, [TimeoutError] otherwise). *)
Theorem C10_falsy_timeout_schedules_nothing :
  (∀ (self : Condition.t) w,
     Condition.wait timeout self w = Condition.wait TNone self w)
  ∧ (∀ (self : Semaphore.t) w,
       Semaphore.acquire timeout self w = Semaphore.acquire TNone self w)
  ∧ (∀ (self : Lock.t) w,
       Lock.acquire timeout self w = Lock.acquire TNone self w)
  ∧ (∀ (M : Queue.Methods A) item (self : Queue.t A) w,
       Queue.put item timeout self w = Queue.put item TNone self w)
  ∧ (∀ (M : Queue.Methods A) (self : Queue.t A) w,
       Queue.get timeout self w = Queue.get TNone self w)
  ∧ (∀ (self : Condition.t) w cs, timers_valid w →
       let r := Condition.wait timeout self w in
       untimed r.2 r.1.1
       ∧ ¬ timeout_outcome
             (outcome_of r.1.1 (snd (condition_run cs (r.1.2, r.2)))))
  ∧ (∀ (self : Semaphore.t) w cs, timers_valid w →
       let r := Semaphore.acquire timeout self w in
       untimed r.2 r.1.1
       ∧ ¬ timeout_outcome
             (outcome_of r.1.1 (snd (semaphore_run cs (r.1.2, r.2)))))
  ∧ (∀ (self : Lock.t) w cs, timers_valid w →
       let r := Lock.acquire timeout self w in
       untimed r.2 r.1.1
       ∧ ¬ timeout_outcome
             (outcome_of r.1.1 (snd (lock_run cs (r.1.2, r.2)))))
  ∧ (∀ (M : Queue.Methods A) item (self : Queue.t A) w f s' cs,
       timers_valid w →
       Queue.put item timeout self w = Return (Ref f) s' →
       untimed (snd s') f
       ∧ ¬ timeout_outcome (outcome_of f (snd (queue_run cs s'))))
  ∧ (∀ (M : Queue.Methods A) (self : Queue.t A) w f s' cs,
       timers_valid w →
       Queue.get timeout self w = Return f s' →
       untimed (snd s') f
       ∧ ¬ timeout_outcome (outcome_of f (snd (queue_run cs s')))).
Proof.
  split; [exact Condition_wait_falsy|].
  split; [exact Semaphore_acquire_falsy|].
  split; [exact Lock_acquire_falsy|].
  split; [exact Queue_put_falsy|].
  split; [exact Queue_get_falsy|].
  split; [|split; [|split; [|split]]].
  - intros self w cs Ht r.
    pose proof (Condition_wait_untimed self w Ht) as Hu. fold r in Hu.
    split; [exact Hu|].
    pose proof (extends_condition_run cs (r.1.2, r.2)) as He.
    by destruct (untimed_extends _ _ _ He Hu) as (_ & _ & ?).
  - intros self w cs Ht r.
    pose proof (Semaphore_acquire_untimed self w Ht) as Hu. fold r in Hu.
    split; [exact Hu|].
    pose proof (extends_semaphore_run cs (r.1.2, r.2)) as He.
    by destruct (untimed_extends _ _ _ He Hu) as (_ & _ & ?).
  - intros self w cs Ht r.
    assert (Hu : untimed r.2 r.1.1).
    { unfold r. rewrite Lock_acquire_world. cbn [fst snd].
      by apply Semaphore_acquire_untimed. }
    split; [exact Hu|].
    pose proof (extends_lock_run cs (r.1.2, r.2)) as He.
    by destruct (untimed_extends _ _ _ He Hu) as (_ & _ & ?).
  - intros M item self w f s' cs Ht Hput.
    pose proof (Queue_put_untimed M item self w f s' Ht Hput) as Hu.
    split; [exact Hu|].
    pose proof (extends_queue_run cs s') as He.
    by destruct (untimed_extends _ _ _ He Hu) as (_ & _ & ?).
  - intros M self w f s' cs Ht Hget.
    pose proof (Queue_get_untimed M self w f s' Ht Hget) as Hu.
    split; [exact Hu|].
    pose proof (extends_queue_run cs s') as He.
    by destruct (untimed_extends _ _ _ He Hu) as (_ & _ & ?).
Qed.

End FalsyTimeout.

(** Every world a sequence of calls reaches from the empty one has its
    timeouts scheduled for futures of the store. *)
Lemma timers_valid_World_empty {A : Type} : timers_valid (World_empty (A:=A)).
Proof. constructor. Qed.

(** A coroutine waits on a condition with [timeout=0] while another one
    waits with a real timeout; that timeout fires, later calls follow,
    and the first waiter is still not resolved to [False]. *)
Lemma C10_falsy_timeout_schedules_nothing_witness :
  let r := Condition.wait (TDeadline 0) (fst timed_waiter) (snd timed_waiter) in
  r = Condition.wait TNone (fst timed_waiter) (snd timed_waiter)
  ∧ untimed r.2 r.1.1
  ∧ ¬ timeout_outcome
        (outcome_of r.1.1
           (snd (condition_run [CFire 0; CWait (TDelta 2); CFire 1; CNotify 1]
                   (r.1.2, r.2)))).
Proof.
  intros r.
  pose proof (C10_falsy_timeout_schedules_nothing (A:=unit) (TDeadline 0)
                eq_refl) as (H1 & _ & _ & _ & _ & H6 & _).
  split; [exact (H1 (fst timed_waiter) (snd timed_waiter))|].
  apply (H6 (fst timed_waiter) (snd timed_waiter)
            [CFire 0; CWait (TDelta 2); CFire 1; CNotify 1]).
  eapply (timers_valid_extends World_empty).
  - apply (extends_condition_run [CWait (TDelta 5)]
             (Condition.__init__, World_empty)).
  - apply timers_valid_World_empty.
Defined.

(** * Every reachable queue is well formed *)

Section QueueWellFormed.
Context {A : Type} {M : Queue.Methods A}.
Implicit Types (w : World A) (self : Queue.t A) (item : A).

(** [queue_wf] reads the world only through the size of the store. *)
Lemma queue_wf_fields self w :
  queue_wf self w ↔
  0 <= Queue._unfinished_tasks self
  ∧ (Event._future (Queue._finished self) < length (futures w))%nat
  ∧ Forall (λ g, (g < length (futures w))%nat) (Queue._getters self)
  ∧ Forall (λ g, (g < length (futures w))%nat) (snd <$> Queue._putters self)
  ∧ (Event._future (Queue._finished self) ∉ Queue._getters self)
  ∧ (Event._future (Queue._finished self) ∉ snd <$> Queue._putters self).
Proof. reflexivity. Qed.

Lemma queue_wf_grow self w w' :
  (length (futures w) <= length (futures w'))%nat →
  queue_wf self w → queue_wf self w'.
Proof.
  intros Hle (H1 & H2 & H3 & H4 & H5 & H6).
  split; [done|]. split; [unfold valid in *; lia|].
  split; [|split; [|done]].
  - eapply Forall_impl; [exact H3|]. unfold valid. intros; lia.
  - eapply Forall_impl; [exact H4|]. unfold valid. intros; lia.
Qed.

Lemma queue_wf_with_queue self q w :
  queue_wf self w → queue_wf (Queue.with_queue self q) w.
Proof. done. Qed.

Lemma queue_wf__consume_expired self w :
  queue_wf self w → queue_wf (Queue._consume_expired self w) w.
Proof.
  intros (H1 & H2 & H3 & H4 & H5 & H6).
  destruct (expired_getters_split w (Queue._getters self)) as (sg & Hg & _).
  destruct (expired_putters_split w (Queue._putters self)) as (sp & Hp & _).
  rewrite Hg in H3, H5. rewrite Hp, fmap_app in H4, H6.
  apply Forall_app in H3 as [_ H3]. apply Forall_app in H4 as [_ H4].
  split; [done|]. split; [done|]. split; [done|]. split; [done|].
  cbn [Queue._consume_expired Queue._getters Queue._putters Queue._finished].
  split.
  - intros Hin. apply H5. apply elem_of_app. by right.
  - intros Hin. apply H6. apply elem_of_app. by right.
Qed.

Lemma queue_wf___put_internal item self w :
  queue_wf self w →
  queue_wf (fst (Queue.__put_internal item self w))
           (snd (Queue.__put_internal item self w)).
Proof.
  intros Hwf. rewrite __put_internal_eq. cbn [fst snd].
  pose proof (Event_clear_length (Queue._finished self) w) as Hlen.
  pose proof (queue_wf_grow self w _ Hlen Hwf) as (H1 & H2 & H3 & H4 & H5 & H6).
  destruct Hwf as (_ & G2 & G3 & G4 & _ & _).
  split; [cbn; lia|].
  split; [cbn [Queue._finished]; by apply Event_clear_valid|].
  split; [done|]. split; [done|].
  cbn [Queue._getters Queue._putters Queue._finished].
  destruct (Event_clear_future (Queue._finished self) w) as [[-> _]| ->];
    [done|].
  split.
  - intros Hin. pose proof (proj1 (Forall_forall _ _) G3 _ Hin) as Hlt.
    unfold valid in Hlt. lia.
  - intros Hin. pose proof (proj1 (Forall_forall _ _) G4 _ Hin) as Hlt.
    unfold valid in Hlt. lia.
Qed.

Lemma queue_wf_resolve self w g o :
  queue_wf self w → queue_wf self (resolve g o w).
Proof. apply queue_wf_grow. by rewrite length_futures_resolve. Qed.

(** Dropping the first getter or the first putter. *)
Lemma queue_wf_pop_getter m q g gs ps u fin w :
  queue_wf (Queue.mk m q (g :: gs) ps u fin) w →
  queue_wf (Queue.mk m q gs ps u fin) w.
Proof.
  intros (H1 & H2 & H3 & H4 & H5 & H6). cbn in *.
  apply Forall_cons in H3 as [_ H3].
  split; [done|]. split; [done|]. split; [done|]. split; [done|].
  split; [|done]. cbn. intros Hin. apply H5. by right.
Qed.

Lemma queue_wf_pop_putter m q gs p ps u fin w :
  queue_wf (Queue.mk m q gs (p :: ps) u fin) w →
  queue_wf (Queue.mk m q gs ps u fin) w.
Proof.
  intros (H1 & H2 & H3 & H4 & H5 & H6). cbn in *.
  apply Forall_cons in H4 as [_ H4].
  split; [done|]. split; [done|]. split; [done|]. split; [done|].
  split; [done|]. cbn. intros Hin. apply H6. by right.
Qed.

(** Queueing a future that has just been made. *)
Lemma queue_wf_push_getter self w w' f :
  queue_wf self w →
  Event._future (Queue._finished self) ≠ f →
  valid w' f → (length (futures w) <= length (futures w'))%nat →
  queue_wf (Queue.mk (Queue._maxsize self) (Queue._queue self)
              (Queue._getters self ++ [f]) (Queue._putters self)
              (Queue._unfinished_tasks self) (Queue._finished self)) w'.
Proof.
  intros Hwf Hne Hv Hle.
  pose proof (queue_wf_grow self w w' Hle Hwf) as (H1 & H2 & H3 & H4 & H5 & H6).
  split; [done|]. split; [done|]. cbn.
  split; [apply Forall_app; split; [done|by apply Forall_singleton]|].
  split; [done|]. split; [|done].
  intros Hin. apply elem_of_app in Hin as [?|Hin]; [done|].
  by apply list_elem_of_singleton in Hin.
Qed.

Lemma queue_wf_push_putter self w w' item f :
  queue_wf self w →
  Event._future (Queue._finished self) ≠ f →
  valid w' f → (length (futures w) <= length (futures w'))%nat →
  queue_wf (Queue.mk (Queue._maxsize self) (Queue._queue self)
              (Queue._getters self) (Queue._putters self ++ [(item, f)])
              (Queue._unfinished_tasks self) (Queue._finished self)) w'.
Proof.
  intros Hwf Hne Hv Hle.
  pose proof (queue_wf_grow self w w' Hle Hwf) as (H1 & H2 & H3 & H4 & H5 & H6).
  split; [done|]. split; [done|]. cbn. rewrite fmap_app. cbn.
  split; [done|].
  split; [apply Forall_app; split; [done|by apply Forall_singleton]|].
  split; [done|].
  intros Hin. apply elem_of_app in Hin as [?|Hin]; [done|].
  by apply list_elem_of_singleton in Hin.
Qed.

Lemma queue_wf_put_nowait item self w :
  queue_wf self w →
  queue_wf (fst (state_of (Queue.put_nowait item self w)))
           (snd (state_of (Queue.put_nowait item self w))).
Proof.
  intros Hwf. apply queue_wf__consume_expired in Hwf.
  unfold Queue.put_nowait.
  destruct (Queue._consume_expired self w) as [m q gs ps u fin] eqn:E.
  cbn [Queue._getters]. destruct gs as [|g gs].
  - destruct (Queue.full _); [done|]. by apply queue_wf___put_internal.
  - destruct (Queue.empty _); [|done].
    apply queue_wf_pop_getter in Hwf.
    pose proof (queue_wf___put_internal item _ w Hwf) as H.
    cbn [Queue._maxsize Queue._queue Queue._putters Queue._unfinished_tasks
         Queue._finished].
    destruct (Queue.__put_internal item _ w) as [self3 w3].
    cbn [fst snd] in H.
    destruct (Queue._get _) as [[x q']|]; cbn [state_of fst snd]; [|done].
    unfold set_result. apply queue_wf_resolve. by apply queue_wf_with_queue.
Qed.

Lemma queue_wf_get_nowait self w :
  queue_wf self w →
  queue_wf (fst (state_of (Queue.get_nowait self w)))
           (snd (state_of (Queue.get_nowait self w))).
Proof.
  intros Hwf. apply queue_wf__consume_expired in Hwf.
  unfold Queue.get_nowait.
  destruct (Queue._consume_expired self w) as [m q gs ps u fin] eqn:E.
  cbn [Queue._putters]. destruct ps as [|[i p] ps].
  - destruct (negb _); [|done].
    destruct (Queue._get _) as [[x q']|]; done.
  - destruct (Queue.full _); [|done].
    apply queue_wf_pop_putter in Hwf.
    pose proof (queue_wf___put_internal i _ w Hwf) as H.
    cbn [Queue._maxsize Queue._queue Queue._getters Queue._unfinished_tasks
         Queue._finished].
    destruct (Queue.__put_internal i _ w) as [self3 w3].
    cbn [fst snd] in H.
    destruct (Queue._get _) as [[x q']|]; cbn [state_of fst snd];
      unfold set_result; apply queue_wf_resolve; [|done].
    by apply queue_wf_with_queue.
Qed.

Lemma queue_wf_step c (s : Queue.t A * World A) :
  queue_wf (fst s) (snd s) →
  queue_wf (fst (queue_step c s)) (snd (queue_step c s)).
Proof.
  destruct s as [self w]. cbn [fst snd]. intros Hwf.
  destruct c as [item t|t|item| | |h]; cbn [queue_step fst snd].
  - unfold Queue.put.
    pose proof (queue_wf_put_nowait item self w Hwf) as H.
    destruct (Queue.put_nowait item self w) as [[] [s1 w1]|e [s1 w1]];
      cbn [state_of fst snd] in *; [done|].
    destruct e; try done. cbn [Future_new state_of fst snd].
    apply (queue_wf_push_putter s1 w1); [done| | |].
    + destruct H as (_ & Hv & _). unfold valid in Hv. lia.
    + unfold valid. rewrite length_futures__set_timeout.
      cbn. rewrite length_app. cbn. lia.
    + rewrite length_futures__set_timeout. cbn. rewrite length_app. lia.
  - unfold Queue.get. cbn [Future_new].
    assert (Hwf0 : queue_wf self (snd (Future_new w))).
    { eapply queue_wf_grow; [|exact Hwf].
      rewrite length_futures_Future_new. lia. }
    pose proof (queue_wf_get_nowait self _ Hwf0) as H.
    pose proof (extends_get_nowait self (snd (Future_new w))) as (L & _).
    rewrite length_futures_Future_new in L.
    cbn [Future_new snd] in *.
    destruct (Queue.get_nowait self _) as [x [s1 w1]|e [s1 w1]] eqn:E;
      cbn [state_of fst snd] in *.
    + unfold set_result. by apply queue_wf_resolve.
    + destruct e; try done. cbn [state_of fst snd].
      apply (queue_wf_push_getter s1 w1); [done| | |].
      * revert E. unfold Queue.get_nowait.
        destruct (Queue._putters _) as [|[i p] ps].
        -- destruct (negb _).
           ++ by destruct (Queue._get _) as [[x q']|].
           ++ intros [= <- <-]. cbn.
              destruct Hwf as (_ & Hv & _). unfold valid in Hv. lia.
        -- destruct (Queue.full _); [|done].
           rewrite __put_internal_eq. by destruct (Queue._get _) as [[x q']|].
      * unfold valid. rewrite length_futures__set_timeout. lia.
      * by rewrite length_futures__set_timeout.
  - by apply queue_wf_put_nowait.
  - by apply queue_wf_get_nowait.
  - unfold Queue.task_done.
    destruct (Queue._unfinished_tasks self <=? 0) eqn:E; [done|].
    apply Z.leb_gt in E.
    destruct Hwf as (H1 & H2 & H3 & H4 & H5 & H6).
    assert (Hwf1 : queue_wf
              (Queue.mk (Queue._maxsize self) (Queue._queue self)
                 (Queue._getters self) (Queue._putters self)
                 (Queue._unfinished_tasks self - 1) (Queue._finished self)) w).
    { split; [cbn; lia|done]. }
    destruct (_ =? 0); cbn [state_of fst snd]; [|done].
    unfold Event.set. destruct (negb _); [|done].
    unfold set_result. by apply queue_wf_resolve.
  - unfold Queue.fire.
    destruct (take_timeout h w) as [[g w1]|] eqn:E; [|done].
    cbn [fst snd]. unfold set_exception. apply queue_wf_resolve.
    eapply queue_wf_grow; [|exact Hwf].
    by rewrite (futures_take_timeout _ _ _ _ E).
Qed.

Lemma queue_wf_run cs (s : Queue.t A * World A) :
  queue_wf (fst s) (snd s) →
  queue_wf (fst (queue_run cs s)) (snd (queue_run cs s)).
Proof.
  revert s. induction cs as [|c cs IH]; intros s Hwf; [done|].
  unfold queue_run in *. cbn [foldl]. apply IH. by apply queue_wf_step.
Qed.

Lemma queue_wf___init__ maxsize w self w' :
  Queue.__init__ maxsize w = Return self w' → queue_wf self w'.
Proof.
  unfold Queue.__init__. destruct maxsize as [m|]; [|done].
  destruct (m <? 0); [done|]. cbn [Event.__init__ Future_new].
  intros [= <- <-].
  assert (Hlen : length (futures (Event.set (Event.mk (length (futures w)))
                                    (snd (Future_new w))))
                 = S (length (futures w))).
  { unfold Event.set. destruct (negb _).
    - unfold set_result. by rewrite length_futures_resolve, length_futures_Future_new.
    - by rewrite length_futures_Future_new. }
  cbn [Future_new snd] in Hlen.
  split; [done|]. split; [unfold valid; cbn [Queue._finished Event._future]; lia|].
  cbn. split; [constructor|]. split; [constructor|].
  split; apply not_elem_of_nil.
Qed.

End QueueWellFormed.

(** * The storage of the three queues *)

Section HeapqLength.
Context {A : Type} (lt : A → A → bool).

Lemma length__siftdown_loop fuel (heap : list A) newitem startpos pos :
  length (heapq._siftdown_loop lt fuel heap newitem startpos pos) = length heap.
Proof.
  revert heap pos. induction fuel as [|fuel IH]; intros heap pos;
    cbn [heapq._siftdown_loop]; [apply length_insert|].
  destruct (Nat.ltb startpos pos); [|apply length_insert].
  destruct (lt newitem _); [|apply length_insert].
  rewrite IH. apply length_insert.
Qed.

Lemma length__siftdown (heap : list A) startpos pos :
  length (heapq._siftdown lt heap startpos pos) = length heap.
Proof.
  unfold heapq._siftdown. destruct (heap !! pos); [|done].
  apply length__siftdown_loop.
Qed.

Lemma length__siftup_loop fuel (heap : list A) newitem endpos pos childpos :
  length (fst (heapq._siftup_loop lt fuel heap newitem endpos pos childpos))
  = length heap.
Proof.
  revert heap pos childpos. induction fuel as [|fuel IH];
    intros heap pos childpos; cbn [heapq._siftup_loop]; [done|].
  destruct (Nat.ltb childpos endpos); [|done].
  rewrite IH. apply length_insert.
Qed.

Lemma length__siftup (heap : list A) pos :
  length (heapq._siftup lt heap pos) = length heap.
Proof.
  unfold heapq._siftup. destruct (heap !! pos) as [newitem|]; [|done].
  pose proof (length__siftup_loop (length heap) heap newitem (length heap) pos
                (2 * pos + 1)%nat) as H.
  destruct (heapq._siftup_loop _ _ _ _ _ _ _) as [heap' pos'].
  rewrite length__siftdown, length_insert. exact H.
Qed.

Lemma length_heappush (heap : list A) item :
  length (heapq.heappush lt heap item) = S (length heap).
Proof.
  unfold heapq.heappush. rewrite length__siftdown, length_app. cbn. lia.
Qed.

Lemma heappop_length (heap : list A) x heap' :
  heapq.heappop lt heap = Some (x, heap') → length heap = S (length heap').
Proof.
  unfold heapq.heappop.
  destruct heap as [|a l _] using rev_ind; [done|].
  rewrite last_snoc, removelast_last.
  destruct l as [|returnitem rest].
  - intros [= _ <-]. done.
  - intros [= _ <-]. rewrite length__siftup, length_app. cbn. lia.
Qed.

Lemma heappop_nonempty (heap : list A) :
  heap ≠ [] → heapq.heappop lt heap ≠ None.
Proof.
  unfold heapq.heappop.
  destruct heap as [|a l _] using rev_ind; [done|]. intros _.
  rewrite last_snoc, removelast_last. by destruct l.
Qed.

End HeapqLength.

Lemma Queue_methods_laws {A : Type} : MethodsLaws (Queue.methods (A:=A)).
Proof.
  split.
  - done.
  - intros item q. cbn. rewrite length_app. cbn. lia.
  - intros [|y q] x q'; [done|]. by intros [= _ <-].
  - by intros [|y q].
Qed.

Lemma LifoQueue_methods_laws {A : Type} : MethodsLaws (LifoQueue.methods (A:=A)).
Proof.
  split.
  - done.
  - intros item q. cbn. rewrite length_app. cbn. lia.
  - intros q x q'. cbn.
    destruct q as [|a l _] using rev_ind; [done|].
    rewrite last_snoc, removelast_last. intros [= _ <-].
    rewrite length_app. cbn. lia.
  - intros q Hq. cbn.
    destruct q as [|a l _] using rev_ind; [done|].
    by rewrite last_snoc.
Qed.

Lemma PriorityQueue_methods_laws {A : Type} (lt : A → A → bool) :
  MethodsLaws (PriorityQueue.methods lt).
Proof.
  split.
  - done.
  - intros item q. apply length_heappush.
  - intros q x q'. apply heappop_length.
  - intros q. apply heappop_nonempty.
Qed.

(** * The invariant of the queue *)

Section QueueInvariant.
Context {A : Type} {M : Queue.Methods A} {L : MethodsLaws M}.
Implicit Types (w : World A) (self : Queue.t A) (item : A).

Lemma full_spec self :
  Queue.full self = true ↔
  Queue._maxsize self ≠ 0 ∧ Queue._maxsize self <= Queue.qsize self.
Proof.
  unfold Queue.full, Queue.maxsize.
  destruct (Queue._maxsize self =? 0) eqn:E.
  - apply Z.eqb_eq in E. split; [done|]. by intros [? _].
  - apply Z.eqb_neq in E. rewrite Z.leb_le. tauto.
Qed.

Lemma full_false_spec self :
  Queue.full self = false ↔
  Queue._maxsize self = 0 ∨ Queue.qsize self < Queue._maxsize self.
Proof.
  unfold Queue.full, Queue.maxsize.
  destruct (Queue._maxsize self =? 0) eqn:E.
  - apply Z.eqb_eq in E. split; [by left|done].
  - apply Z.eqb_neq in E. rewrite Z.leb_gt. split; [by right|].
    intros [?|?]; [done|lia].
Qed.

Lemma queue_inv__consume_expired self w :
  queue_inv self → queue_inv (Queue._consume_expired self w).
Proof.
  intros (H1 & H2 & H3 & H4).
  destruct (expired_getters_split w (Queue._getters self)) as (sg & Hg & _).
  destruct (expired_putters_split w (Queue._putters self)) as (sp & Hp & _).
  split; [done|]. split; [done|]. split.
  - cbn. intros Hne. apply H3. rewrite Hg. by destruct sg, (Queue.expired_getters _ _).
  - cbn [Queue._consume_expired Queue._putters]. intros Hne.
    assert (Hf : Queue.full self = true).
    { apply H4. rewrite Hp. by destruct sp, (Queue.expired_putters _ _). }
    exact Hf.
Qed.

(** What [_get] gives right after [_put]. *)
Lemma _get__put item (q : list A) :
  ∃ x q', Queue._get (Queue._put item q) = Some (x, q')
          ∧ length q' = length q.
Proof.
  destruct (Queue._get (Queue._put item q)) as [[x q']|] eqn:E.
  - exists x, q'. split; [done|].
    apply _get_length in E. rewrite _put_length in E. lia.
  - exfalso. eapply _get_nonempty; [|exact E].
    intros Hnil. pose proof (_put_length item q) as Hl.
    rewrite Hnil in Hl. done.
Qed.

(** On a queue that keeps its invariant [put_nowait] returns, keeping
    the invariant, or raises [QueueFull] with no getter waiting and the
    storage full. *)
Lemma put_nowait_cases item self w :
  queue_inv self →
  (∃ s', Queue.put_nowait item self w = Return tt s' ∧ queue_inv (fst s'))
  ∨ (Queue.put_nowait item self w
     = Raise QueueFull (Queue._consume_expired self w, w)
     ∧ Queue._getters (Queue._consume_expired self w) = []
     ∧ Queue.full (Queue._consume_expired self w) = true).
Proof.
  intros Hinv. apply (queue_inv__consume_expired self w) in Hinv.
  unfold Queue.put_nowait.
  destruct (Queue._consume_expired self w) as [m q gs ps u fin].
  destruct Hinv as (H1 & H2 & H3 & H4). cbn in H1, H2, H3, H4.
  cbn [Queue._getters]. destruct gs as [|g gs].
  - destruct (Queue.full _) eqn:Hf; [by right|]. left.
    rewrite __put_internal_eq. eexists. split; [done|].
    apply full_false_spec in Hf. unfold Queue.qsize in Hf. cbn in Hf.
    unfold queue_inv, Queue.qsize.
    cbn [fst Queue._maxsize Queue._queue Queue._getters Queue._putters].
    split; [done|]. split.
    + rewrite _put_length. intros Hm. destruct Hf as [?|?]; [done|lia].
    + split; [done|]. intros Hp. by specialize (H4 Hp).
  - left. pose proof (H3 ltac:(done)) as ->. cbn [Queue.empty Queue._queue].
    rewrite __put_internal_eq. cbn [Queue._queue].
    destruct (_get__put item []) as (x & q' & -> & Hl).
    destruct q' as [|? ?]; [|done].
    eexists. split; [done|].
    unfold queue_inv, Queue.qsize, Queue.with_queue.
    cbn [fst Queue.with_queue Queue._maxsize Queue._queue Queue._getters
         Queue._putters].
    split; [done|]. split; [intros _; cbn; lia|]. split; [done|].
    intros Hp. exact (H4 Hp).
Qed.

Lemma get_nowait_cases self w :
  queue_inv self →
  (∃ x s', Queue.get_nowait self w = Return x s' ∧ queue_inv (fst s'))
  ∨ (Queue.get_nowait self w
     = Raise QueueEmpty (Queue._consume_expired self w, w)
     ∧ Queue._putters (Queue._consume_expired self w) = []
     ∧ Queue._queue (Queue._consume_expired self w) = []).
Proof.
  intros Hinv. apply (queue_inv__consume_expired self w) in Hinv.
  unfold Queue.get_nowait.
  destruct (Queue._consume_expired self w) as [m q gs ps u fin].
  destruct Hinv as (H1 & H2 & H3 & H4). cbn in H1, H2, H3, H4.
  cbn [Queue._putters]. destruct ps as [|[item p] ps].
  - unfold Queue.qsize at 1. cbn [Queue._queue].
    destruct q as [|y q]; [by right|]. left. cbn [length negb Z.eqb Z.of_nat].
    destruct (Queue._get (y :: q)) as [[x q']|] eqn:E.
    + eexists _, _. split; [done|].
      apply _get_length in E. cbn in E.
      unfold queue_inv, Queue.qsize, Queue.with_queue in *.
      cbn [fst Queue.with_queue Queue._maxsize Queue._queue Queue._getters
           Queue._putters] in *.
      split; [done|]. split.
      * intros Hm. specialize (H2 Hm). cbn in H2. lia.
      * split; [|done]. intros Hg. by specialize (H3 Hg).
    + exfalso. by eapply (_get_nonempty (y :: q)).
  - left. pose proof (H4 ltac:(done)) as Hf. rewrite Hf.
    rewrite __put_internal_eq. cbn [Queue._queue].
    destruct (_get__put item q) as (x & q' & -> & Hl).
    eexists _, _. split; [done|].
    apply full_spec in Hf.
    unfold queue_inv, Queue.qsize, Queue.with_queue in *.
    cbn [fst Queue.with_queue Queue._maxsize Queue._queue Queue._getters
         Queue._putters] in *.
    split; [done|]. split; [rewrite Hl; tauto|]. split.
    + intros Hg. specialize (H3 Hg). subst q. cbn in Hf. lia.
    + intros _. apply full_spec. unfold Queue.qsize.
      cbn [Queue._maxsize Queue._queue]. by rewrite Hl.
Qed.

Lemma queue_inv_step c (s : Queue.t A * World A) :
  queue_inv (fst s) → queue_inv (fst (queue_step c s)).
Proof.
  destruct s as [self w]. cbn [fst snd]. intros Hinv.
  destruct c as [item t|t|item| | |h]; cbn [queue_step fst snd].
  - unfold Queue.put.
    destruct (put_nowait_cases item self w Hinv)
      as [(s' & -> & Hs)|(-> & Hg & Hf)]; [done|].
    cbn [Future_new state_of fst].
    pose proof (queue_inv__consume_expired self w Hinv) as (H1 & H2 & H3 & H4).
    split; [done|]. split; [done|]. split; [|done].
    cbn [Queue._getters Queue._queue]. by rewrite Hg.
  - unfold Queue.get. cbn [Future_new].
    destruct (get_nowait_cases self (snd (Future_new w)) Hinv)
      as [(x & [s1 w1] & Hr & Hs)|(Hr & Hp & Hq)];
      cbn [Future_new snd] in Hr; rewrite Hr; [done|].
    cbn [state_of fst].
    pose proof (queue_inv__consume_expired self (snd (Future_new w)) Hinv)
      as (H1 & H2 & H3 & H4).
    cbn [Future_new snd] in *.
    split; [done|]. split; [done|]. split; [done|].
    cbn [Queue._putters]. by rewrite Hp.
  - destruct (put_nowait_cases item self w Hinv)
      as [(s' & -> & Hs)|(-> & Hg & Hf)]; [done|].
    by apply queue_inv__consume_expired.
  - destruct (get_nowait_cases self w Hinv)
      as [(x & s' & -> & Hs)|(-> & Hp & Hq)]; [done|].
    by apply queue_inv__consume_expired.
  - unfold Queue.task_done. destruct (_ <=? 0); [done|].
    by destruct (_ =? 0).
  - unfold Queue.fire. by destruct (take_timeout h w) as [[f w1]|].
Qed.

Lemma queue_inv_run cs (s : Queue.t A * World A) :
  queue_inv (fst s) → queue_inv (fst (queue_run cs s)).
Proof.
  revert s. induction cs as [|c cs IH]; intros s H; [done|].
  unfold queue_run in *. cbn [foldl]. apply IH. by apply queue_inv_step.
Qed.

Lemma queue_inv___init__ maxsize w self w' :
  Queue.__init__ maxsize w = Return self w' → queue_inv self.
Proof.
  unfold Queue.__init__. destruct maxsize as [m|]; [|done].
  destruct (m <? 0) eqn:E; [done|]. apply Z.ltb_ge in E.
  cbn [Event.__init__ Future_new]. intros [= <- _].
  rewrite _init_empty. split; [done|].
  split; [intros _; unfold Queue.qsize; cbn; lia|].
  split; done.
Qed.

End QueueInvariant.

Section QueueReachable.
Context {A : Type} {M : Queue.Methods A} {L : MethodsLaws M}.
Implicit Types (w : World A) (self : Queue.t A) (item : A).

(** X1: a queue built with [maxsize > 0] never stores more than
    [maxsize] items, whatever calls are made on it. *)
Theorem X1_bounded_queue_never_overfills maxsize w self w0 cs :
  Queue.__init__ (Some maxsize) w = Return self w0 →
  maxsize ≠ 0 →
  Queue.qsize (fst (queue_run cs (self, w0))) <= maxsize.
Proof.
  intros Hinit Hm.
  pose proof (queue_inv_run cs (self, w0) (queue_inv___init__ _ _ _ _ Hinit))
    as (_ & H2 & _).
  assert (Hmax : Queue._maxsize (fst (queue_run cs (self, w0))) = maxsize).
  { rewrite _maxsize_queue_run. cbn [fst]. revert Hinit.
    unfold Queue.__init__. destruct (maxsize <? 0); [done|].
    cbn [Event.__init__ Future_new]. by intros [= <- _]. }
  rewrite Hmax in H2. by apply H2.
Qed.

(** X2: getters and putters never wait at the same time: after every
    call one of the two lists is empty; getters wait only while the
    storage is empty and putters only while it is full. *)
Theorem X2_getters_and_putters_exclude maxsize w self w0 cs :
  Queue.__init__ maxsize w = Return self w0 →
  let q := fst (queue_run cs (self, w0)) in
  (Queue._getters q = [] ∨ Queue._putters q = [])
  ∧ (Queue._getters q ≠ [] → Queue.empty q = true)
  ∧ (Queue._putters q ≠ [] → Queue.full q = true).
Proof.
  intros Hinit q.
  pose proof (queue_inv_run cs (self, w0) (queue_inv___init__ _ _ _ _ Hinit))
    as (H1 & H2 & H3 & H4). fold q in H1, H2, H3, H4.
  split; [|split].
  - destruct (Queue._getters q) as [|g gs] eqn:Hg; [by left|]. right.
    destruct (Queue._putters q) as [|p ps] eqn:Hp; [done|]. exfalso.
    pose proof (H4 ltac:(done)) as Hf. apply full_spec in Hf.
    unfold Queue.qsize in Hf. rewrite (H3 ltac:(done)) in Hf. cbn in Hf. lia.
  - intros Hg. unfold Queue.empty. by rewrite (H3 Hg).
  - exact H4.
Qed.

(** X3: on a queue reached from its constructor the two [assert]s never
    fail and [_get] is never called on an empty storage: [put_nowait]
    raises [QueueFull] exactly when [full()] holds and otherwise
    returns, [get_nowait] raises [QueueEmpty] exactly when [empty()]
    holds and otherwise returns, and [put] and [get] never raise. *)
Theorem X3_only_QueueFull_and_QueueEmpty maxsize w self w0 cs item timeout :
  Queue.__init__ maxsize w = Return self w0 →
  let q := fst (queue_run cs (self, w0)) in
  let w1 := snd (queue_run cs (self, w0)) in
  raised (Queue.put_nowait item q w1)
  = (if Queue.full q then Some QueueFull else None)
  ∧ raised (Queue.get_nowait q w1)
    = (if Queue.empty q then Some QueueEmpty else None)
  ∧ raised (Queue.put item timeout q w1) = None
  ∧ raised (Queue.get timeout q w1) = None.
Proof.
  intros Hinit q w1.
  pose proof (queue_inv_run cs (self, w0) (queue_inv___init__ _ _ _ _ Hinit))
    as Hinv. fold q in Hinv.
  pose proof Hinv as (H1 & H2 & H3 & H4).
  split; [|split; [|split]].
  - destruct (put_nowait_cases item q w1 Hinv)
      as [(s' & Hr & _)|(Hr & Hg & Hf)].
    + rewrite Hr. cbn [raised].
      destruct (Queue.full q) eqn:Hf; [|done]. exfalso.
      revert Hr. unfold Queue.put_nowait.
      destruct (Queue._getters (Queue._consume_expired q w1)) as [|g gs] eqn:Hg.
      * assert (Hf' : Queue.full (Queue._consume_expired q w1) = true)
          by exact Hf.
        by rewrite Hf'.
      * assert (Hne : Queue._getters q ≠ []).
        { intros Hnil. cbn in Hg. by rewrite Hnil in Hg. }
        apply full_spec in Hf. unfold Queue.qsize in Hf.
        rewrite (H3 Hne) in Hf. cbn in Hf. lia.
    + rewrite Hr. cbn [raised].
      assert (Hf' : Queue.full q = true) by exact Hf. by rewrite Hf'.
  - destruct (get_nowait_cases q w1 Hinv)
      as [(x & s' & Hr & _)|(Hr & Hp & Hq)].
    + rewrite Hr. cbn [raised].
      destruct (Queue.empty q) eqn:He; [|done]. exfalso.
      unfold Queue.empty in He.
      destruct (Queue._queue q) as [|y l] eqn:Hq; [|done].
      revert Hr. unfold Queue.get_nowait.
      destruct (Queue._putters (Queue._consume_expired q w1))
        as [|[i p] ps] eqn:Hp.
      * unfold Queue.qsize. cbn [Queue._consume_expired Queue._queue].
        by rewrite Hq.
      * assert (Hne : Queue._putters q ≠ []).
        { intros Hnil. cbn in Hp. by rewrite Hnil in Hp. }
        pose proof (H4 Hne) as Hf. apply full_spec in Hf.
        unfold Queue.qsize in Hf. rewrite Hq in Hf. cbn in Hf. lia.
    + rewrite Hr. cbn [raised]. cbn in Hq. unfold Queue.empty.
      by rewrite Hq.
  - unfold Queue.put.
    destruct (put_nowait_cases item q w1 Hinv)
      as [(s' & -> & _)|(-> & _ & _)]; done.
  - unfold Queue.get. cbn [Future_new].
    destruct (get_nowait_cases q (snd (Future_new w1)) Hinv)
      as [(x & [s1 w2] & Hr & _)|(Hr & _ & _)];
      cbn [Future_new snd] in Hr; by rewrite Hr.
Qed.

End QueueReachable.

Lemma X1_bounded_queue_never_overfills_witness :
  Queue.qsize (fst busy_queue) <= 2.
Proof.
  apply (X1_bounded_queue_never_overfills (L:=Queue_methods_laws) 2
           World_empty (fst (new_queue Queue.methods 2))
           (snd (new_queue Queue.methods 2))
           [QGet (TDelta 1); QPutNowait 1; QPut 2 TNone; QPut 3 TNone;
            QPut 4 TNone]).
  - reflexivity.
  - lia.
Defined.

Lemma X2_getters_and_putters_exclude_witness :
  (Queue._getters (fst busy_queue) = [] ∨ Queue._putters (fst busy_queue) = [])
  ∧ (Queue._getters (fst busy_queue) ≠ [] → Queue.empty (fst busy_queue) = true)
  ∧ (Queue._putters (fst busy_queue) ≠ [] → Queue.full (fst busy_queue) = true).
Proof.
  apply (X2_getters_and_putters_exclude (L:=Queue_methods_laws) (Some 2)
           World_empty (fst (new_queue Queue.methods 2))
           (snd (new_queue Queue.methods 2))
           [QGet (TDelta 1); QPutNowait 1; QPut 2 TNone; QPut 3 TNone;
            QPut 4 TNone]).
  reflexivity.
Defined.

Lemma X3_only_QueueFull_and_QueueEmpty_witness :
  raised (Queue.put_nowait (M:=Queue.methods) 5 (fst busy_queue) (snd busy_queue))
  = Some QueueFull
  ∧ raised (Queue.get_nowait (M:=Queue.methods) (fst busy_queue) (snd busy_queue))
    = None.
Proof.
  pose proof (X3_only_QueueFull_and_QueueEmpty (L:=Queue_methods_laws) (Some 2)
           World_empty (fst (new_queue Queue.methods 2))
           (snd (new_queue Queue.methods 2))
           [QGet (TDelta 1); QPutNowait 1; QPut 2 TNone; QPut 3 TNone;
            QPut 4 TNone] 5 TNone eq_refl) as (H1 & H2 & _).
  split; [exact H1|exact H2].
Defined.

(** * The [_finished] event follows the counter of unfinished tasks *)

Section Finished.
Context {A : Type}.
Implicit Types (w : World A) (fin : Event.t) (u : Z) (f g h : nat).

Lemma targets_Future_new w : targets (snd (Future_new w)) = targets w.
Proof. reflexivity. Qed.

Lemma targets_Event_clear fin w : targets (snd (Event.clear fin w)) = targets w.
Proof. unfold Event.clear. by destruct (done _ w). Qed.

Lemma targets__set_timeout g t w f :
  f ∈ targets (_set_timeout g t w) → f ∈ targets w ∨ f = g.
Proof.
  unfold _set_timeout. destruct (truthy t); [|by left].
  unfold targets. cbn. rewrite fmap_app. intros Hin.
  apply elem_of_app in Hin as [?|Hin]; [by left|].
  apply list_elem_of_singleton in Hin. by right.
Qed.

Lemma finished_inv_resolve fin u w g o :
  finished_inv fin u w → g ≠ Event._future fin →
  finished_inv fin u (resolve g o w).
Proof.
  intros (Ht & Hv & Hn & Hu & Hs) Hne.
  split; [|split; [|split; [|split]]].
  - apply timers_valid_targets. apply timers_valid_targets in Ht.
    apply Forall_forall. intros x Hx. apply targets_resolve in Hx.
    apply valid_resolve. by apply (proj1 (Forall_forall _ _) Ht).
  - by apply valid_resolve.
  - intros Hin. by apply targets_resolve in Hin.
  - done.
  - unfold Event.is_set, done in *.
    by rewrite outcome_of_resolve_ne.
Qed.

Lemma finished_inv_Future_new fin u w :
  finished_inv fin u w → finished_inv fin u (snd (Future_new w)).
Proof.
  intros (Ht & Hv & Hn & Hu & Hs).
  split; [|split; [|split; [|split]]].
  - by eapply timers_valid_extends; [apply extends_Future_new|].
  - by apply valid_Future_new.
  - done.
  - done.
  - unfold Event.is_set, done in *. by rewrite outcome_of_Future_new.
Qed.

Lemma finished_inv__set_timeout fin u w g t :
  finished_inv fin u w → g ≠ Event._future fin → valid w g →
  finished_inv fin u (_set_timeout g t w).
Proof.
  intros (Ht & Hv & Hn & Hu & Hs) Hne Hg.
  split; [|split; [|split; [|split]]].
  - apply timers_valid_targets. apply timers_valid_targets in Ht.
    apply Forall_forall. intros x Hx. unfold valid.
    rewrite length_futures__set_timeout.
    apply targets__set_timeout in Hx as [Hx| ->]; [|done].
    by apply (proj1 (Forall_forall _ _) Ht).
  - unfold valid. by rewrite length_futures__set_timeout.
  - intros Hin. apply targets__set_timeout in Hin as [?|?]; [done|].
    by apply Hne.
  - done.
  - unfold Event.is_set, done in *. by rewrite outcome_of__set_timeout.
Qed.

(** [__put_internal]'s [clear] with the counter going up. *)
Lemma finished_inv_clear fin u w :
  finished_inv fin u w →
  finished_inv (fst (Event.clear fin w)) (u + 1) (snd (Event.clear fin w)).
Proof.
  intros (Ht & Hv & Hn & Hu & Hs).
  split; [|split; [|split; [|split]]].
  - by eapply timers_valid_extends; [apply extends_Event_clear|].
  - by apply Event_clear_valid.
  - rewrite targets_Event_clear.
    destruct (Event_clear_future fin w) as [[-> _]| ->]; [done|].
    intros Hin. apply timers_valid_targets in Ht.
    pose proof (proj1 (Forall_forall _ _) Ht _ Hin) as Hlt.
    unfold valid in Hlt. lia.
  - lia.
  - rewrite Event_is_set_clear. split; [done|lia].
Qed.

Lemma finished_inv_fire fin u w h g w1 o :
  take_timeout h w = Some (g, w1) →
  finished_inv fin u w → finished_inv fin u (resolve g o w1).
Proof.
  intros E (Ht & Hv & Hn & Hu & Hs).
  apply take_timeout_target in E as [Hin ->].
  apply finished_inv_resolve; [|by intros ->].
  split; [|split; [|split; [|split]]]; [|done| |done|done].
  - by eapply timers_valid_extends; [apply extends_remove_timeout|].
  - intros Hx. by apply targets_remove_timeout in Hx.
Qed.

Lemma finished_inv_task_done fin u w :
  finished_inv fin u w → 0 < u →
  finished_inv fin (u - 1) (if u - 1 =? 0 then Event.set fin w else w).
Proof.
  intros H Hpos. pose proof H as (Ht & Hv & Hn & Hu & Hs).
  destruct (u - 1 =? 0) eqn:E.
  - apply Z.eqb_eq in E.
    assert (Hd : done (Event._future fin) w = false).
    { destruct (done (Event._future fin) w) eqn:Hd; [|done].
      apply Hs in Hd. lia. }
    split; [|split; [|split; [|split]]].
    + by eapply timers_valid_extends; [apply extends_Event_set|].
    + unfold Event.set. rewrite Hd. cbn. unfold set_result.
      by apply valid_resolve.
    + unfold Event.set. rewrite Hd. cbn. unfold set_result.
      intros Hin. by apply targets_resolve in Hin.
    + lia.
    + rewrite Event_is_set_set by done. done.
  - apply Z.eqb_neq in E.
    split; [done|]. split; [done|]. split; [done|]. split; [lia|].
    split; [|done]. intros Hset. apply Hs in Hset. lia.
Qed.

End Finished.

Section FinishedCalls.
Context {A : Type} {M : Queue.Methods A}.
Implicit Types (w : World A) (self : Queue.t A) (item : A).

(** What [put_nowait] and [get_nowait] do to the event, the counter and
    the world, whether they return or raise. *)
Lemma put_nowait_world item self w :
  let s' := state_of (Queue.put_nowait item self w) in
  (Queue._finished (fst s') = Queue._finished self
   ∧ Queue._unfinished_tasks (fst s') = Queue._unfinished_tasks self
   ∧ snd s' = w)
  ∨ (Queue._finished (fst s') = fst (Event.clear (Queue._finished self) w)
     ∧ Queue._unfinished_tasks (fst s') = Queue._unfinished_tasks self + 1
     ∧ (snd s' = snd (Event.clear (Queue._finished self) w)
        ∨ ∃ g x, g ∈ Queue._getters self
                 ∧ snd s' = set_result g (VItem x)
                              (snd (Event.clear (Queue._finished self) w)))).
Proof.
  cbn zeta. unfold Queue.put_nowait.
  destruct (Queue._getters (Queue._consume_expired self w)) as [|g gs] eqn:Hg.
  - destruct (Queue.full _); [by left|]. right.
    rewrite __put_internal_eq. cbn. split; [done|]. split; [done|]. by left.
  - destruct (Queue.empty _); [|by left]. right.
    rewrite __put_internal_eq.
    destruct (Queue._get _) as [[x q]|]; cbn.
    + split; [done|]. split; [done|]. right. exists g, x. split; [|done].
      apply (expired_getters_elem w). cbn in Hg. rewrite Hg. by left.
    + split; [done|]. split; [done|]. by left.
Qed.

Lemma get_nowait_world self w :
  let s' := state_of (Queue.get_nowait self w) in
  (Queue._finished (fst s') = Queue._finished self
   ∧ Queue._unfinished_tasks (fst s') = Queue._unfinished_tasks self
   ∧ snd s' = w)
  ∨ (Queue._finished (fst s') = fst (Event.clear (Queue._finished self) w)
     ∧ Queue._unfinished_tasks (fst s') = Queue._unfinished_tasks self + 1
     ∧ ∃ p, p ∈ snd <$> Queue._putters self
            ∧ snd s' = set_result p VNone
                         (snd (Event.clear (Queue._finished self) w))).
Proof.
  cbn zeta. unfold Queue.get_nowait.
  destruct (Queue._putters (Queue._consume_expired self w))
    as [|[i p] ps] eqn:Hp.
  - destruct (negb _); [|by left].
    destruct (Queue._get _) as [[x q]|]; by left.
  - destruct (Queue.full _); [|by left]. right.
    rewrite __put_internal_eq.
    assert (Hin : p ∈ snd <$> Queue._putters self).
    { apply list_elem_of_fmap. exists (i, p). split; [done|].
      apply (expired_putters_elem w). cbn in Hp. rewrite Hp. by left. }
    destruct (Queue._get _) as [[x q]|]; cbn;
      (split; [done|]; split; [done|]; by exists p).
Qed.

(** A waiter of the queue is not the future of the event, before or
    after a [clear]. *)
Lemma waiter_not_cleared self w g :
  queue_wf self w →
  g ∈ Queue._getters self ∨ g ∈ snd <$> Queue._putters self →
  g ≠ Event._future (fst (Event.clear (Queue._finished self) w)).
Proof.
  intros (_ & Hv & Hg & Hp & Hng & Hnp) Hin.
  assert (Hvg : valid w g).
  { destruct Hin as [Hin|Hin].
    - by apply (proj1 (Forall_forall _ _) Hg).
    - by apply (proj1 (Forall_forall _ _) Hp). }
  destruct (Event_clear_future (Queue._finished self) w) as [[-> _]| ->].
  - intros ->. by destruct Hin.
  - unfold valid in Hvg. lia.
Qed.

Lemma finished_inv_step c (s : Queue.t A * World A) :
  queue_wf (fst s) (snd s) →
  finished_inv (Queue._finished (fst s)) (Queue._unfinished_tasks (fst s))
    (snd s) →
  finished_inv (Queue._finished (fst (queue_step c s)))
    (Queue._unfinished_tasks (fst (queue_step c s))) (snd (queue_step c s)).
Proof.
  destruct s as [self w]. cbn [fst snd]. intros Hwf Hinv.
  assert (Hput : ∀ item,
    finished_inv
      (Queue._finished (fst (state_of (Queue.put_nowait item self w))))
      (Queue._unfinished_tasks (fst (state_of (Queue.put_nowait item self w))))
      (snd (state_of (Queue.put_nowait item self w)))).
  { intros item.
    destruct (put_nowait_world item self w)
      as [(-> & -> & ->)|(-> & -> & [-> |(g & x & Hg & ->)])]; [done| |].
    - by apply finished_inv_clear.
    - unfold set_result. apply finished_inv_resolve.
      + by apply finished_inv_clear.
      + apply waiter_not_cleared; [done|by left]. }
  assert (Hget : ∀ w0, queue_wf self w0 →
    finished_inv (Queue._finished self) (Queue._unfinished_tasks self) w0 →
    finished_inv
      (Queue._finished (fst (state_of (Queue.get_nowait self w0))))
      (Queue._unfinished_tasks (fst (state_of (Queue.get_nowait self w0))))
      (snd (state_of (Queue.get_nowait self w0)))).
  { intros w0 Hwf0 Hinv0.
    destruct (get_nowait_world self w0)
      as [(-> & -> & ->)|(-> & -> & p & Hp & ->)]; [done|].
    unfold set_result. apply finished_inv_resolve.
    - by apply finished_inv_clear.
    - apply waiter_not_cleared; [done|by right]. }
  destruct c as [item t|t|item| | |h]; cbn [queue_step fst snd].
  - unfold Queue.put. specialize (Hput item).
    pose proof (queue_wf_put_nowait item self w Hwf) as Hwf1.
    destruct (Queue.put_nowait item self w) as [[] [s1 w1]|e [s1 w1]];
      cbn [state_of fst snd] in *; [done|].
    destruct e; try done. cbn [Future_new state_of fst snd Queue._finished
                                 Queue._unfinished_tasks].
    destruct Hwf1 as (_ & Hv & _). unfold valid in Hv.
    apply finished_inv__set_timeout.
    + by apply (finished_inv_Future_new _ _ w1).
    + lia.
    + apply (pending_Future_new w1).
  - unfold Queue.get. cbn [Future_new].
    assert (Hwf0 : queue_wf self (snd (Future_new w))).
    { eapply queue_wf_grow; [|exact Hwf].
      rewrite length_futures_Future_new. lia. }
    specialize (Hget _ Hwf0 (finished_inv_Future_new _ _ _ Hinv)).
    pose proof (queue_wf_get_nowait self _ Hwf0) as Hwf1.
    pose proof (extends_get_nowait self (snd (Future_new w))) as (Hlen & _).
    rewrite length_futures_Future_new in Hlen.
    pose proof (get_nowait_world self (snd (Future_new w))) as Hcases.
    cbn zeta in Hcases. cbn [Future_new snd] in *.
    destruct (Queue.get_nowait self _) as [x [s1 w1]|e [s1 w1]];
      cbn [state_of fst snd] in *.
    + unfold set_result. apply finished_inv_resolve; [done|].
      destruct Hwf as (_ & Hv & _). unfold valid in Hv.
      destruct Hcases as [(-> & _)|(-> & _)]; [lia|].
      destruct (Event_clear_future (Queue._finished self)
                  (mkWorld (futures w ++ [mkFuture None []]) (io_loop w)))
        as [[-> _]| ->]; [lia|].
      cbn. rewrite length_app. cbn. lia.
    + destruct e; try done.
      cbn [state_of fst snd Queue._finished Queue._unfinished_tasks].
      apply finished_inv__set_timeout; [done| |unfold valid; lia].
      destruct Hwf as (_ & Hv & _). unfold valid in Hv.
      destruct Hcases as [(-> & _)|(-> & _)]; [lia|].
      destruct (Event_clear_future (Queue._finished self)
                  (mkWorld (futures w ++ [mkFuture None []]) (io_loop w)))
        as [[-> _]| ->]; [lia|].
      cbn. rewrite length_app. cbn. lia.
  - apply Hput.
  - by apply Hget.
  - unfold Queue.task_done.
    destruct (Queue._unfinished_tasks self <=? 0) eqn:E; [done|].
    apply Z.leb_gt in E.
    pose proof (finished_inv_task_done _ _ _ Hinv E) as H.
    by destruct (_ =? 0).
  - unfold Queue.fire.
    destruct (take_timeout h w) as [[g w1]|] eqn:E; [|done].
    cbn [fst snd]. unfold set_exception. by eapply finished_inv_fire.
Qed.

Lemma finished_inv_run cs (s : Queue.t A * World A) :
  queue_wf (fst s) (snd s) →
  finished_inv (Queue._finished (fst s)) (Queue._unfinished_tasks (fst s))
    (snd s) →
  finished_inv (Queue._finished (fst (queue_run cs s)))
    (Queue._unfinished_tasks (fst (queue_run cs s))) (snd (queue_run cs s)).
Proof.
  revert s. induction cs as [|c cs IH]; intros s Hwf Hinv; [done|].
  unfold queue_run in *. cbn [foldl]. apply IH.
  - by apply queue_wf_step.
  - by apply finished_inv_step.
Qed.

Lemma finished_inv___init__ maxsize w self w0 :
  timers_valid w →
  Queue.__init__ maxsize w = Return self w0 →
  finished_inv (Queue._finished self) (Queue._unfinished_tasks self) w0.
Proof.
  intros Ht. unfold Queue.__init__. destruct maxsize as [m|]; [|done].
  destruct (m <? 0); [done|]. cbn [Event.__init__ Future_new].
  intros [= <- <-]. cbn [Queue._finished Queue._unfinished_tasks].
  pose proof (untimed_new w Ht) as (Hv & Hn & _).
  pose proof (pending_Future_new w) as [_ Hp].
  assert (Hd : done (length (futures w)) (snd (Future_new w)) = false)
    by (by apply done_false_outcome).
  cbn [Future_new snd] in *.
  split; [|split; [|split; [|split]]].
  - eapply timers_valid_extends; [|exact Ht].
    eapply extends_trans; [apply extends_Future_new|apply extends_Event_set].
  - unfold Event.set. cbn [Event._future]. rewrite Hd. cbn [negb].
    unfold set_result. by apply valid_resolve.
  - unfold Event.set. cbn [Event._future]. rewrite Hd. cbn [negb].
    unfold set_result. intros Hin. by apply targets_resolve in Hin.
  - done.
  - split; [done|]. intros _. by apply Event_is_set_set.
Qed.

(** X4: on a queue reached from its constructor the [_finished] event is
    set exactly when the counter of unfinished tasks is 0, so the future
    that [join()] returns without a timeout is done exactly when every
    item put has been matched by a [task_done]. *)
Theorem X4_join_done_iff_no_unfinished_task maxsize w self w0 cs :
  timers_valid w →
  Queue.__init__ maxsize w = Return self w0 →
  let q := fst (queue_run cs (self, w0)) in
  let w1 := snd (queue_run cs (self, w0)) in
  (Event.is_set (Queue._finished q) w1 = true
   ↔ Queue._unfinished_tasks q = 0)
  ∧ ∃ f, Queue_join TNone q = Plain f
         ∧ (done f w1 = true ↔ Queue._unfinished_tasks q = 0).
Proof.
  intros Ht Hinit q w1.
  pose proof (finished_inv_run cs (self, w0)
                (queue_wf___init__ _ _ _ _ Hinit)
                (finished_inv___init__ _ _ _ _ Ht Hinit))
    as (_ & _ & _ & _ & Hs).
  fold q w1 in Hs. split; [exact Hs|].
  exists (Event._future (Queue._finished q)). split; [done|exact Hs].
Qed.

End FinishedCalls.

Lemma X4_join_done_iff_no_unfinished_task_witness :
  Queue._unfinished_tasks (fst half_done_queue) = 1
  ∧ (Event.is_set (Queue._finished (fst half_done_queue)) (snd half_done_queue)
     = true ↔ Queue._unfinished_tasks (fst half_done_queue) = 0).
Proof.
  split; [reflexivity|].
  apply (X4_join_done_iff_no_unfinished_task (M:=Queue.methods) (Some 0)
           World_empty (fst (new_queue Queue.methods 0))
           (snd (new_queue Queue.methods 0))
           [QPutNowait 1; QPut 2 TNone; QGetNowait; QTaskDone]).
  - apply timers_valid_World_empty.
  - reflexivity.
Defined.

(** * Permits are neither lost nor made up *)

Section Permits.
Context {A : Type}.
Import TimeoutGarbageCollector.
Implicit Types (w : World A) (self : Semaphore.t) (f g : nat).
Implicit Types (s : Semaphore.t * World A).

Lemma done_resolve_keep g o w f :
  done f w = true → done f (resolve g o w) = true.
Proof.
  unfold done. destruct (outcome_of f w) as [x|] eqn:E; [|done].
  by rewrite (outcome_of_resolve_keep g o w f x E).
Qed.

Lemma done_Future_new w f : done f (snd (Future_new w)) = done f w.
Proof. unfold done. by rewrite outcome_of_Future_new. Qed.

Lemma done__set_timeout g t w f : done f (_set_timeout g t w) = done f w.
Proof. unfold done. by rewrite outcome_of__set_timeout. Qed.

Lemma done_take_timeout h w g w1 f :
  take_timeout h w = Some (g, w1) → done f w1 = done f w.
Proof. intros E. unfold done. by rewrite (outcome_of_take_timeout _ _ _ _ f E). Qed.

(** The waiters of a semaphore stay distinct futures of the store. *)
Lemma waiters_wf_semaphore_step c s :
  waiters_wf (snd s) (_waiters (Semaphore.base (fst s))) →
  waiters_wf (snd (semaphore_step c s))
    (_waiters (Semaphore.base (fst (semaphore_step c s)))).
Proof.
  destruct s as [self w]. cbn [fst snd]. intros [Hnd Hv].
  destruct c as [t| |h]; cbn [semaphore_step fst snd].
  - rewrite Semaphore_acquire_eq.
    destruct (0 <? Semaphore._value self); cbn [fst snd Semaphore.base].
    + split; [done|]. eapply Forall_impl; [exact Hv|]. intros f Hf.
      unfold set_result. apply valid_resolve. by apply valid_Future_new.
    + cbn [_waiters]. split.
      * apply NoDup_app. split; [done|]. split; [|apply NoDup_singleton].
        intros f Hf Hin. apply list_elem_of_singleton in Hin. subst f.
        pose proof (proj1 (Forall_forall _ _) Hv _ Hf) as Hlt.
        unfold valid in Hlt. lia.
      * assert (Hlen : length (futures (_set_timeout (length (futures w)) t
                                          (snd (Future_new w))))
                       = S (length (futures w))).
        { by rewrite length_futures__set_timeout, length_futures_Future_new. }
        apply Forall_app. split.
        -- eapply Forall_impl; [exact Hv|]. intros f. unfold valid.
           rewrite Hlen. lia.
        -- apply Forall_singleton. unfold valid. rewrite Hlen. lia.
  - unfold Semaphore.release.
    pose proof (release_loop_value (_waiters (Semaphore.base self))
                  (Semaphore._value self + 1) w) as H. cbn zeta in H.
    destruct (Semaphore.release_loop _ _ w) as [[deque v] w'].
    cbn [fst snd Semaphore.base _waiters] in *.
    destruct H as [(_ & -> & ->)|(_ & stale & f & Heq & _ & _ & ->)].
    + split; constructor.
    + rewrite Heq in Hnd, Hv. split.
      * apply NoDup_app in Hnd as (_ & _ & Hnd).
        by apply NoDup_cons in Hnd as [_ ?].
      * apply Forall_app in Hv as [_ Hv]. apply Forall_cons in Hv as [_ Hv].
        eapply Forall_impl; [exact Hv|]. intros x Hx.
        unfold set_result. by apply valid_resolve.
  - unfold Semaphore.fire.
    destruct (take_timeout h w) as [[g w1]|] eqn:E; [|done].
    unfold Semaphore.on_timeout. cbn [fst snd Semaphore.base].
    pose proof (futures_take_timeout _ _ _ _ E) as Hfut.
    assert (Hlen : ∀ x, valid w x → valid (set_exception g TimeoutError w1) x).
    { intros x. unfold valid, set_exception.
      by rewrite length_futures_resolve, Hfut. }
    unfold _garbage_collect. destruct (100 <? _); cbn [_waiters].
    + split.
      * by apply NoDup_filter.
      * apply Forall_forall. intros x Hx.
        apply list_elem_of_filter in Hx as [_ Hx]. apply Hlen.
        by apply (proj1 (Forall_forall _ _) Hv).
    + split; [done|]. eapply Forall_impl; [exact Hv|]. exact Hlen.
Qed.

Lemma waiters_wf_semaphore_run cs s :
  waiters_wf (snd s) (_waiters (Semaphore.base (fst s))) →
  waiters_wf (snd (semaphore_run cs s))
    (_waiters (Semaphore.base (fst (semaphore_run cs s)))).
Proof.
  revert s. induction cs as [|c cs IH]; intros s Hwf; [done|].
  unfold semaphore_run in *. cbn [foldl]. apply IH.
  by apply waiters_wf_semaphore_step.
Qed.

(** While a permit is available nobody is left waiting. *)
Lemma idle_waiters_step c s :
  (0 < Semaphore._value (fst s) →
   Forall (λ f, done f (snd s) = true) (_waiters (Semaphore.base (fst s)))) →
  0 < Semaphore._value (fst (semaphore_step c s)) →
  Forall (λ f, done f (snd (semaphore_step c s)) = true)
         (_waiters (Semaphore.base (fst (semaphore_step c s)))).
Proof.
  destruct s as [self w]. cbn [fst snd]. intros Hinv.
  destruct c as [t| |h]; cbn [semaphore_step fst snd].
  - rewrite Semaphore_acquire_eq.
    destruct (0 <? Semaphore._value self) eqn:E;
      cbn [fst snd Semaphore.base Semaphore._value].
    + apply Z.ltb_lt in E. intros _.
      eapply Forall_impl; [exact (Hinv E)|]. intros f Hf. cbn beta in *.
      unfold set_result. apply done_resolve_keep. by rewrite done_Future_new.
    + apply Z.ltb_ge in E. lia.
  - unfold Semaphore.release.
    pose proof (release_loop_value (_waiters (Semaphore.base self))
                  (Semaphore._value self + 1) w) as H. cbn zeta in H.
    destruct (Semaphore.release_loop _ _ w) as [[deque v] w'].
    cbn [fst snd Semaphore.base Semaphore._value _waiters] in *.
    destruct H as [(-> & -> & ->)|(-> & stale & f & Heq & _ & Hlive & ->)].
    + intros _. constructor.
    + intros Hpos. exfalso.
      assert (Hf : done f w = true).
      { apply (proj1 (Forall_forall _ _) (Hinv ltac:(lia))).
        rewrite Heq. apply elem_of_app. right. by left. }
      congruence.
  - unfold Semaphore.fire.
    destruct (take_timeout h w) as [[g w1]|] eqn:E; [|exact Hinv].
    unfold Semaphore.on_timeout.
    cbn [fst snd Semaphore.base Semaphore._value].
    intros Hpos. specialize (Hinv Hpos).
    assert (Hkeep : ∀ f, done f w = true →
                         done f (set_exception g TimeoutError w1) = true).
    { intros f Hf. unfold set_exception. apply done_resolve_keep.
      by rewrite (done_take_timeout _ _ _ _ f E). }
    unfold _garbage_collect. destruct (100 <? _); cbn [_waiters].
    + apply Forall_forall. intros f Hf.
      apply list_elem_of_filter in Hf as [_ Hf]. apply Hkeep.
      by apply (proj1 (Forall_forall _ _) Hinv).
    + eapply Forall_impl; [exact Hinv|]. exact Hkeep.
Qed.

(** X5: a semaphore never keeps a coroutine waiting while it has a
    permit: in every state reached from [Semaphore(value)], if the
    counter is above 0 then every future still in the queue is done (it
    timed out and waits to be dropped). *)
Theorem X5_no_waiter_while_permit_left (value : Z) self w cs :
  Semaphore.__init__ value = inr self →
  let s := semaphore_run cs (self, w) in
  0 < Semaphore._value (fst s) →
  Forall (λ f, done f (snd s) = true) (_waiters (Semaphore.base (fst s))).
Proof.
  intros Hinit. unfold Semaphore.__init__ in Hinit.
  destruct (value <? 0); [done|]. injection Hinit as <-.
  cbn zeta.
  assert (H : ∀ cs0 s0,
    (0 < Semaphore._value (fst s0) →
     Forall (λ f, done f (snd s0) = true) (_waiters (Semaphore.base (fst s0)))) →
    0 < Semaphore._value (fst (semaphore_run cs0 s0)) →
    Forall (λ f, done f (snd (semaphore_run cs0 s0)) = true)
      (_waiters (Semaphore.base (fst (semaphore_run cs0 s0))))).
  { induction cs0 as [|c cs0 IH]; intros s0 H0; [done|].
    unfold semaphore_run in *. cbn [foldl]. apply IH.
    by apply idle_waiters_step. }
  apply H. intros _. constructor.
Qed.

Lemma granted_futures w w' : futures w' = futures w → granted w' = granted w.
Proof. unfold granted. by intros ->. Qed.

Lemma granted_Future_new w : granted (snd (Future_new w)) = granted w.
Proof.
  unfold granted. cbn. rewrite List.filter_app, length_app. cbn. lia.
Qed.

(** Replacing an entry of a list changes the count of a filter by what
    the old and the new entry weigh. *)
Lemma length_filter_insert {B : Type} (P : B → bool) (l : list B) i x y :
  l !! i = Some x →
  (length (List.filter P (<[i:=y]> l)) + (if P x then 1 else 0)
   = length (List.filter P l) + (if P y then 1 else 0))%nat.
Proof.
  revert i. induction l as [|b l IH]; intros i Hi; [done|].
  destruct i as [|i].
  - cbn in Hi. injection Hi as ->. cbn.
    destruct (P x), (P y); cbn; lia.
  - cbn in Hi. specialize (IH i Hi).
    change (<[S i:=y]> (b :: l)) with (b :: <[i:=y]> l).
    cbn [List.filter]. destruct (P b); cbn [length]; lia.
Qed.

Lemma length_filter_alter {B : Type} (P : B → bool) (k : B → B) (l : list B) i :
  (∀ b, P (k b) = P b) →
  length (List.filter P (alter k i l)) = length (List.filter P l).
Proof.
  intros Hk. revert i. induction l as [|b l IH]; intros i; [done|].
  destruct i as [|i]; cbn.
  - rewrite Hk. by destruct (P b).
  - change (list_alter k i l) with (alter k i l).
    destruct (P b); cbn; by rewrite IH.
Qed.

Lemma granted__set_timeout g t w : granted (_set_timeout g t w) = granted w.
Proof.
  unfold _set_timeout. destruct (truthy t); [|done].
  unfold granted. cbn. by rewrite length_filter_alter.
Qed.

Lemma granted_resolve_pending g o w :
  pending w g →
  granted (resolve g o w)
  = granted w + (if is_granted (mkFuture (Some o) []) then 1 else 0).
Proof.
  intros [Hv Hp]. unfold resolve, outcome_of in *.
  destruct (futures w !! g) as [fut|] eqn:Hg.
  - rewrite Hp. unfold granted. rewrite futures_remove_timeouts. cbn [futures].
    pose proof (length_filter_insert is_granted (futures w) g fut
                  (mkFuture (Some o) []) Hg) as H.
    assert (Hn : is_granted fut = false) by (unfold is_granted; by rewrite Hp).
    rewrite Hn in H. destruct (is_granted (mkFuture (Some o) [])); lia.
  - apply lookup_ge_None in Hg. unfold valid in Hv. lia.
Qed.

Lemma granted_resolve_other g o w :
  is_granted (mkFuture (Some o) []) = false →
  granted (resolve g o w) = granted w.
Proof.
  intros Ho. unfold resolve.
  destruct (futures w !! g) as [fut|] eqn:Hg; [|done].
  destruct (_result fut) eqn:Hr; [done|].
  unfold granted. rewrite futures_remove_timeouts. cbn [futures].
  pose proof (length_filter_insert is_granted (futures w) g fut
                (mkFuture (Some o) []) Hg) as H.
  assert (Hn : is_granted fut = false) by (unfold is_granted; by rewrite Hr).
  rewrite Hn, Ho in H. lia.
Qed.

Lemma permits_step c s :
  waiters_wf (snd s) (_waiters (Semaphore.base (fst s))) →
  Semaphore._value (fst (semaphore_step c s)) + granted (snd (semaphore_step c s))
  = Semaphore._value (fst s) + granted (snd s) + release_count [c].
Proof.
  destruct s as [self w]. cbn [fst snd]. intros [Hnd Hv].
  destruct c as [t| |h]; cbn [semaphore_step fst snd];
    [change (release_count [SAcquire t]) with 0
    |change (release_count [SRelease]) with 1
    |change (release_count [SFire h]) with 0].
  - rewrite Semaphore_acquire_eq.
    destruct (0 <? Semaphore._value self);
      cbn [fst snd Semaphore._value].
    + unfold set_result.
      rewrite granted_resolve_pending by apply pending_Future_new.
      rewrite granted_Future_new. cbn. lia.
    + rewrite granted__set_timeout, granted_Future_new. cbn. lia.
  - unfold Semaphore.release.
    pose proof (release_loop_value (_waiters (Semaphore.base self))
                  (Semaphore._value self + 1) w) as H. cbn zeta in H.
    destruct (Semaphore.release_loop _ _ w) as [[deque v] w'].
    cbn [fst snd Semaphore._value] in *.
    destruct H as [(-> & -> & _)|(-> & stale & f & Heq & _ & Hlive & ->)].
    + cbn. lia.
    + unfold set_result. rewrite granted_resolve_pending.
      * cbn. lia.
      * split; [|by apply done_false_outcome].
        apply (proj1 (Forall_forall _ _) Hv). rewrite Heq.
        apply elem_of_app. right. by left.
  - unfold Semaphore.fire.
    destruct (take_timeout h w) as [[g w1]|] eqn:E; [|cbn; lia].
    unfold Semaphore.on_timeout, set_exception.
    cbn [fst snd Semaphore._value].
    rewrite granted_resolve_other by done.
    rewrite (granted_futures w w1) by (by eapply futures_take_timeout).
    cbn. lia.
Qed.

Lemma release_count_cons c cs :
  release_count (c :: cs) = release_count [c] + release_count cs.
Proof. unfold release_count. destruct c; cbn; lia. Qed.

Lemma permits_run cs s :
  waiters_wf (snd s) (_waiters (Semaphore.base (fst s))) →
  Semaphore._value (fst (semaphore_run cs s)) + granted (snd (semaphore_run cs s))
  = Semaphore._value (fst s) + granted (snd s) + release_count cs.
Proof.
  revert s. induction cs as [|c cs IH]; intros s Hwf.
  - cbn. unfold release_count. cbn. lia.
  - unfold semaphore_run in *. cbn [foldl].
    rewrite IH by (by apply waiters_wf_semaphore_step).
    rewrite permits_step by done. rewrite (release_count_cons c cs). lia.
Qed.

(** X6: the counter of a semaphore is its initial value, plus the number
    of [release] calls, minus the number of acquires granted (futures
    resolved with a [_ReleasingContextManager]) since it was built. *)
Theorem X6_counter_is_initial_plus_releases_minus_grants (value : Z) self w cs :
  Semaphore.__init__ value = inr self →
  let s := semaphore_run cs (self, w) in
  Semaphore._value (fst s)
  = value + release_count cs - (granted (snd s) - granted w).
Proof.
  intros Hinit. unfold Semaphore.__init__ in Hinit.
  destruct (value <? 0); [done|]. injection Hinit as <-. cbn zeta.
  pose proof (permits_run cs
                (Semaphore.mk TimeoutGarbageCollector.__init__ value, w)) as H.
  cbn [fst snd Semaphore._value Semaphore.base _waiters] in H.
  assert (Hwf : waiters_wf w ([] : list nat)) by (split; constructor).
  specialize (H Hwf). lia.
Qed.

End Permits.

Lemma X5_no_waiter_while_permit_left_witness :
  Semaphore._value (fst used_semaphore) = 1
  ∧ Forall (λ f, done f (snd used_semaphore) = true)
      (TimeoutGarbageCollector._waiters (Semaphore.base (fst used_semaphore))).
Proof.
  split; [reflexivity|].
  apply (X5_no_waiter_while_permit_left (A:=unit) 2
           (Semaphore.mk TimeoutGarbageCollector.__init__ 2) World_empty
           [SAcquire TNone; SAcquire TNone; SAcquire (TDelta 1); SAcquire TNone;
            SFire 0; SRelease; SRelease]).
  - reflexivity.
  - reflexivity.
Defined.

Lemma X6_counter_is_initial_plus_releases_minus_grants_witness :
  Semaphore._value (fst used_semaphore)
  = 2 + 2 - (granted (snd used_semaphore) - granted (World_empty (A:=unit)))
  ∧ granted (snd used_semaphore) = 3.
Proof.
  split; [|reflexivity].
  apply (X6_counter_is_initial_plus_releases_minus_grants (A:=unit) 2
           (Semaphore.mk TimeoutGarbageCollector.__init__ 2) World_empty
           [SAcquire TNone; SAcquire TNone; SAcquire (TDelta 1); SAcquire TNone;
            SFire 0; SRelease; SRelease]).
  reflexivity.
Defined.


(** * The waiter lists stay small *)

Section DeadWaiters.
Context {A : Type}.
Import TimeoutGarbageCollector.
Implicit Types (w : World A) (f g h : nat) (l : list nat).

Lemma dead_count_nonneg w l : 0 <= dead_count w l.
Proof. unfold dead_count. lia. Qed.

Lemma dead_count_app w l1 l2 :
  dead_count w (l1 ++ l2) = dead_count w l1 + dead_count w l2.
Proof. unfold dead_count. rewrite List.filter_app, length_app. lia. Qed.

Lemma dead_count_cons w f l :
  dead_count w (f :: l) = (if done f w then 1 else 0) + dead_count w l.
Proof.
  unfold dead_count. cbn [List.filter]. destruct (done f w); cbn [length]; lia.
Qed.

Lemma dead_count_ext w w' l :
  (∀ f, f ∈ l → done f w' = done f w) → dead_count w' l = dead_count w l.
Proof.
  induction l as [|f l IH]; intros H; [done|].
  rewrite !dead_count_cons. rewrite H by left.
  rewrite IH; [done|]. intros g Hg. apply H. by right.
Qed.

Lemma dead_count_filter_live w l :
  dead_count w (filter (λ f, live w f) l) = 0.
Proof.
  induction l as [|f l IH]; [done|].
  destruct (done f w) eqn:Hd.
  - rewrite filter_cons_False; [done|]. unfold live. rewrite Hd. cbn. tauto.
  - rewrite filter_cons_True by (unfold live; rewrite Hd; cbn; tauto).
    rewrite dead_count_cons, Hd, IH. done.
Qed.

Lemma done_resolve_ne g o w f : f ≠ g → done f (resolve g o w) = done f w.
Proof. intros Hne. unfold done. by rewrite outcome_of_resolve_ne. Qed.

Lemma dead_count_resolve_other g o w l :
  g ∉ l → dead_count (resolve g o w) l = dead_count w l.
Proof.
  intros Hg. apply dead_count_ext. intros f Hf. apply done_resolve_ne.
  intros ->. done.
Qed.

(** Resolving one future makes at most one waiter of a list of distinct
    waiters dead. *)
Lemma dead_count_resolve g o w l :
  NoDup l → dead_count (resolve g o w) l <= dead_count w l + 1.
Proof.
  induction l as [|f l IH]; intros Hnd.
  - unfold dead_count. cbn. lia.
  - apply NoDup_cons in Hnd as [Hf Hnd]. rewrite !dead_count_cons.
    destruct (decide (f = g)) as [->|Hne].
    + rewrite dead_count_resolve_other by done.
      destruct (done g (resolve g o w)), (done g w); lia.
    + rewrite done_resolve_ne by done. specialize (IH Hnd). lia.
Qed.

Lemma dead_count_resolve_all (v : value A) fs w l :
  (∀ f, f ∈ fs → f ∉ l) →
  dead_count (foldl (λ w' f, set_result f v w') w fs) l = dead_count w l.
Proof.
  revert w. induction fs as [|f fs IH]; intros w H; [done|].
  cbn [foldl]. rewrite IH by (intros g Hg; apply H; by right).
  unfold set_result. apply dead_count_resolve_other. apply H. by left.
Qed.

(** The loop of [notify], for any [n]: it pops a prefix of the deque and
    takes the waiters of that prefix that are not done; it stops on an
    empty deque or when as many as [n] are taken. *)
Lemma notify_loop_any w n deque waiters :
  ∃ scanned rest,
    let woken := filter (λ f, live w f) scanned in
    Condition.notify_loop w n deque waiters
    = (n - Z.of_nat (length woken), rest, waiters ++ woken)
    ∧ deque = scanned ++ rest
    ∧ (rest = [] ∨ n = Z.of_nat (length woken)).
Proof.
  revert n waiters. induction deque as [|f deque IH]; intros n waiters.
  - exists [], []. cbn. rewrite app_nil_r, Z.sub_0_r. split; [done|]. split; [done|by left].
  - cbn [Condition.notify_loop]. destruct (n =? 0) eqn:E.
    + apply Z.eqb_eq in E. subst n. exists [], (f :: deque). cbn.
      rewrite app_nil_r. split; [done|]. split; [done|by right].
    + destruct (done f w) eqn:Hd; cbn [negb].
      * destruct (IH n waiters) as (scanned & rest & H1 & H2 & H3).
        cbn zeta in *. exists (f :: scanned), rest.
        assert (Hnl : ¬ live w f) by (unfold live; rewrite Hd; simpl; tauto).
        rewrite !filter_cons_False by exact Hnl.
        split; [exact H1|]. split; [by rewrite H2|exact H3].
      * destruct (IH (n - 1) (waiters ++ [f]))
          as (scanned & rest & H1 & H2 & H3).
        cbn zeta in *. exists (f :: scanned), rest.
        assert (Hl : live w f) by (unfold live; rewrite Hd; simpl; tauto).
        rewrite !filter_cons_True by exact Hl. cbn [length].
        split; [|split].
        -- rewrite H1, <- app_assoc. cbn [app]. f_equal. f_equal. lia.
        -- by rewrite H2.
        -- destruct H3 as [H3|H3]; [by left|right; lia].
Qed.

Lemma gc_inv_futures self w w' :
  futures w' = futures w → gc_inv self w → gc_inv self w'.
Proof.
  intros Hf [Ht Hd]. split; [done|].
  rewrite (dead_count_ext w w'); [done|]. intros f _.
  unfold done, outcome_of. by rewrite Hf.
Qed.

(** A new future behind the waiters adds no dead one. *)
Lemma gc_inv_push self w t :
  gc_inv self w →
  gc_inv (mk (_waiters self ++ [length (futures w)]) (_timeouts self))
    (_set_timeout (length (futures w)) t (snd (Future_new w))).
Proof.
  intros [Ht Hd]. split; [done|]. cbn [_waiters _timeouts].
  rewrite (dead_count_ext w).
  - rewrite dead_count_app, dead_count_cons.
    assert (Hn : done (length (futures w)) w = false).
    { apply done_false_outcome, outcome_of_invalid. unfold valid. lia. }
    rewrite Hn. unfold dead_count at 2. cbn. lia.
  - intros f _. by rewrite done__set_timeout, done_Future_new.
Qed.

(** Dropping a prefix of the waiters while resolving futures that are
    not among the ones kept. *)
Lemma gc_inv_pop self w scanned rest w' :
  _waiters self = scanned ++ rest →
  dead_count w' rest = dead_count w rest →
  gc_inv self w → gc_inv (mk rest (_timeouts self)) w'.
Proof.
  intros Heq Hd' [Ht Hd]. split; [done|]. cbn [_waiters _timeouts].
  rewrite Hd'. rewrite Heq, dead_count_app in Hd.
  pose proof (dead_count_nonneg w scanned). lia.
Qed.

(** What an [on_timeout] closure does: it resolves its waiter and calls
    [_garbage_collect]. *)
Lemma gc_inv__garbage_collect self w g o :
  NoDup (_waiters self) →
  gc_inv self w →
  gc_inv (_garbage_collect self (resolve g o w)) (resolve g o w).
Proof.
  intros Hnd [Ht Hd]. unfold _garbage_collect.
  destruct (100 <? _timeouts self + 1) eqn:E.
  - split; cbn [_waiters _timeouts]; [lia|].
    rewrite dead_count_filter_live. lia.
  - apply Z.ltb_ge in E. split; cbn [_waiters _timeouts]; [lia|].
    pose proof (dead_count_resolve g o w (_waiters self) Hnd). lia.
Qed.

Lemma gc_inv_condition_step c (s : Condition.t * World A) :
  waiters_wf (snd s) (_waiters (fst s)) →
  gc_inv (fst s) (snd s) →
  gc_inv (fst (condition_step c s)) (snd (condition_step c s)).
Proof.
  destruct s as [self w]. cbn [fst snd]. intros [Hnd Hv] Hinv.
  assert (Hnotify : ∀ n, gc_inv (fst (Condition.notify n self w))
                            (snd (Condition.notify n self w))).
  { intros n. unfold Condition.notify.
    destruct (notify_loop_any w n (_waiters self) [])
      as (scanned & rest & H1 & H2 & _). cbn zeta in H1. rewrite H1.
    cbn [fst snd app]. eapply gc_inv_pop; [exact H2| |exact Hinv].
    apply dead_count_resolve_all. intros f Hf Hin.
    apply list_elem_of_filter in Hf as [_ Hf].
    rewrite H2 in Hnd. apply NoDup_app in Hnd as (_ & Hdis & _).
    by apply (Hdis f). }
  destruct c as [timeout|n| |h]; cbn [condition_step fst snd].
  - rewrite Condition_wait_eq. cbn [fst snd]. by apply gc_inv_push.
  - apply Hnotify.
  - apply Hnotify.
  - unfold Condition.fire.
    destruct (take_timeout h w) as [[f w1]|] eqn:E; [|done].
    unfold Condition.on_timeout, set_result. cbn [fst snd].
    apply gc_inv__garbage_collect; [done|].
    eapply gc_inv_futures; [|exact Hinv]. by eapply futures_take_timeout.
Qed.

Lemma gc_inv_condition_run cs (s : Condition.t * World A) :
  waiters_wf (snd s) (_waiters (fst s)) →
  gc_inv (fst s) (snd s) →
  gc_inv (fst (condition_run cs s)) (snd (condition_run cs s)).
Proof.
  revert s. induction cs as [|c cs IH]; intros s Hwf Hinv; [done|].
  unfold condition_run in *. cbn [foldl]. apply IH.
  - by apply waiters_wf_condition_step.
  - by apply gc_inv_condition_step.
Qed.

Lemma gc_inv_semaphore_step c (s : Semaphore.t * World A) :
  waiters_wf (snd s) (_waiters (Semaphore.base (fst s))) →
  gc_inv (Semaphore.base (fst s)) (snd s) →
  gc_inv (Semaphore.base (fst (semaphore_step c s)))
    (snd (semaphore_step c s)).
Proof.
  destruct s as [self w]. cbn [fst snd]. intros [Hnd Hv] Hinv.
  destruct c as [t| |h]; cbn [semaphore_step fst snd].
  - rewrite Semaphore_acquire_eq.
    destruct (0 <? Semaphore._value self); cbn [fst snd Semaphore.base].
    + destruct Hinv as [Ht Hd]. split; [done|].
      unfold set_result. rewrite dead_count_resolve_other.
      * rewrite (dead_count_ext w); [done|]. intros f _.
        apply done_Future_new.
      * intros Hin. pose proof (proj1 (Forall_forall _ _) Hv _ Hin) as Hlt.
        unfold valid in Hlt. lia.
    + by apply gc_inv_push.
  - unfold Semaphore.release.
    pose proof (release_loop_value (_waiters (Semaphore.base self))
                  (Semaphore._value self + 1) w) as H. cbn zeta in H.
    destruct (Semaphore.release_loop _ _ w) as [[deque v] w'].
    cbn [fst snd Semaphore.base] in *.
    destruct H as [(_ & -> & ->)|(_ & stale & f & Heq & _ & _ & ->)].
    + destruct Hinv as [Ht Hd]. split; [done|].
      cbn [_waiters _timeouts]. change (dead_count w []) with 0. lia.
    + apply (gc_inv_pop _ w (stale ++ [f]) deque).
      * rewrite Heq. by rewrite <- app_assoc.
      * unfold set_result. apply dead_count_resolve_other.
        rewrite Heq in Hnd. apply NoDup_app in Hnd as (_ & _ & Hnd).
        by apply NoDup_cons in Hnd as [? _].
      * exact Hinv.
  - unfold Semaphore.fire.
    destruct (take_timeout h w) as [[f w1]|] eqn:E; [|done].
    unfold Semaphore.on_timeout, set_exception. cbn [fst snd Semaphore.base].
    apply gc_inv__garbage_collect; [done|].
    eapply gc_inv_futures; [|exact Hinv]. by eapply futures_take_timeout.
Qed.

Lemma gc_inv_semaphore_run cs (s : Semaphore.t * World A) :
  waiters_wf (snd s) (_waiters (Semaphore.base (fst s))) →
  gc_inv (Semaphore.base (fst s)) (snd s) →
  gc_inv (Semaphore.base (fst (semaphore_run cs s)))
    (snd (semaphore_run cs s)).
Proof.
  revert s. induction cs as [|c cs IH]; intros s Hwf Hinv; [done|].
  unfold semaphore_run in *. cbn [foldl]. apply IH.
  - by apply waiters_wf_semaphore_step.
  - by apply gc_inv_semaphore_step.
Qed.

Lemma gc_inv___init__ w : gc_inv (A:=A) TimeoutGarbageCollector.__init__ w.
Proof. split; cbn; [lia|]. unfold dead_count. cbn. lia. Qed.

(** X7: a condition never keeps more than 100 timed-out waiters in its
    list: after any sequence of [wait], [notify], [notify_all] and fired
    timeouts on a new [Condition], [_timeouts] lies in 0..100 and the
    number of waiters in [_waiters] that are done is at most
    [_timeouts]. *)
Theorem X7_condition_keeps_at_most_100_dead_waiters cs w :
  let s := condition_run cs (Condition.__init__, w) in
  0 <= _timeouts (fst s) <= 100
  ∧ dead_count (snd s) (_waiters (fst s)) <= _timeouts (fst s)
  ∧ dead_count (snd s) (_waiters (fst s)) <= 100.
Proof.
  cbn zeta.
  destruct (gc_inv_condition_run cs (Condition.__init__, w)) as [Ht Hd].
  - split; constructor.
  - apply gc_inv___init__.
  - split; [done|]. split; [done|]. lia.
Qed.

(** X8: the same for a semaphore: after any sequence of [acquire],
    [release] and fired timeouts on a new [Semaphore(value)],
    [_timeouts] lies in 0..100 and at most [_timeouts] of the queued
    waiters are done. *)
Theorem X8_semaphore_keeps_at_most_100_dead_waiters (value : Z) self w cs :
  Semaphore.__init__ value = inr self →
  let s := semaphore_run cs (self, w) in
  0 <= _timeouts (Semaphore.base (fst s)) <= 100
  ∧ dead_count (snd s) (_waiters (Semaphore.base (fst s)))
    <= _timeouts (Semaphore.base (fst s))
  ∧ dead_count (snd s) (_waiters (Semaphore.base (fst s))) <= 100.
Proof.
  intros Hinit. unfold Semaphore.__init__ in Hinit.
  destruct (value <? 0); [done|]. injection Hinit as <-. cbn zeta.
  destruct (gc_inv_semaphore_run cs
              (Semaphore.mk TimeoutGarbageCollector.__init__ value, w))
    as [Ht Hd].
  - split; constructor.
  - apply gc_inv___init__.
  - split; [done|]. split; [done|]. lia.
Qed.

End DeadWaiters.

Lemma X8_semaphore_keeps_at_most_100_dead_waiters_witness :
  dead_count (snd used_semaphore)
    (TimeoutGarbageCollector._waiters (Semaphore.base (fst used_semaphore)))
  <= TimeoutGarbageCollector._timeouts (Semaphore.base (fst used_semaphore))
  ∧ TimeoutGarbageCollector._timeouts (Semaphore.base (fst used_semaphore)) = 1.
Proof.
  split; [|reflexivity].
  apply (X8_semaphore_keeps_at_most_100_dead_waiters (A:=unit) 2
           (Semaphore.mk TimeoutGarbageCollector.__init__ 2) World_empty
           [SAcquire TNone; SAcquire TNone; SAcquire (TDelta 1); SAcquire TNone;
            SFire 0; SRelease; SRelease]).
  reflexivity.
Defined.


(** * No waiter is lost *)

Section Tracked.
Context {A : Type}.
Import TimeoutGarbageCollector.
Implicit Types (w : World A) (f g h b : nat) (l : list nat).

Lemma done_resolve_self g o w : valid w g → done g (resolve g o w) = true.
Proof.
  intros Hv. destruct (done g w) eqn:Hd.
  - by apply done_resolve_keep.
  - apply done_true_outcome. rewrite outcome_of_resolve_pending; [done|].
    split; [done|]. by apply done_false_outcome.
Qed.

Lemma done_resolve_back g o w f :
  done f (resolve g o w) = false → done f w = false.
Proof.
  intros H. destruct (done f w) eqn:Hd; [|done].
  by rewrite (done_resolve_keep g o w f Hd) in H.
Qed.

Lemma done_resolve_all_keep (v : value A) fs w f :
  done f w = true → done f (foldl (λ w' g, set_result g v w') w fs) = true.
Proof.
  revert w. induction fs as [|g fs IH]; intros w Hd; [done|].
  cbn [foldl]. apply IH. by apply done_resolve_keep.
Qed.

Lemma done_resolve_all_elem (v : value A) fs w f :
  f ∈ fs → valid w f →
  done f (foldl (λ w' g, set_result g v w') w fs) = true.
Proof.
  revert w. induction fs as [|g fs IH]; intros w Hin Hv.
  - by apply elem_of_nil in Hin.
  - cbn [foldl]. apply elem_of_cons in Hin as [->|Hin].
    + apply done_resolve_all_keep. by apply done_resolve_self.
    + apply IH; [done|]. by apply valid_resolve.
Qed.

(** The loop of [release] on a deque of waiters that are all done hands
    the permit to nobody and empties the deque. *)
Lemma release_loop_stale deque value w :
  Forall (λ g, done g w = true) deque →
  Semaphore.release_loop deque value w = ([], value, w).
Proof.
  induction deque as [|f deque IH]; intros H; [done|].
  apply Forall_cons in H as [Hf H]. cbn [Semaphore.release_loop].
  rewrite Hf. cbn [negb]. by apply IH.
Qed.

Lemma release_loop_live stale f rest value w :
  Forall (λ g, done g w = true) stale → done f w = false →
  Semaphore.release_loop (stale ++ f :: rest) value w
  = (rest, value - 1, set_result f VReleasingContextManager w).
Proof.
  induction stale as [|g stale IH]; intros H Hf.
  - cbn [app Semaphore.release_loop]. by rewrite Hf.
  - apply Forall_cons in H as [Hg H]. cbn [app Semaphore.release_loop].
    rewrite Hg. cbn [negb]. by apply IH.
Qed.

(** A deque is all done, or has a first waiter that is not. *)
Lemma first_live w l :
  Forall (λ g, done g w = true) l
  ∨ ∃ stale f rest, l = stale ++ f :: rest
                   ∧ Forall (λ g, done g w = true) stale
                   ∧ done f w = false.
Proof.
  induction l as [|g l IH]; [left; constructor|].
  destruct (done g w) eqn:Hg.
  - destruct IH as [IH|(stale & f & rest & -> & Hs & Hf)].
    + left. by constructor.
    + right. exists (g :: stale), f, rest. split; [done|].
      split; [by constructor|done].
  - right. exists [], g, l. split; [done|]. split; [constructor|done].
Qed.

Lemma tracked_push b l w t :
  (b <= length (futures w))%nat →
  tracked b l w →
  tracked b (l ++ [length (futures w)])
    (_set_timeout (length (futures w)) t (snd (Future_new w))).
Proof.
  intros Hb H f. rewrite length_futures__set_timeout, length_futures_Future_new.
  rewrite done__set_timeout, done_Future_new. intros Hf Hd.
  apply elem_of_app.
  destruct (decide (f = length (futures w))) as [->|Hne].
  - right. by apply list_elem_of_singleton.
  - left. apply H; [lia|done].
Qed.

(** The closure of a timeout: the waiter is resolved, and
    [_garbage_collect] drops only waiters that are done. *)
Lemma tracked__garbage_collect b self w g o :
  tracked b (_waiters self) w →
  tracked b (_waiters (_garbage_collect self (resolve g o w))) (resolve g o w).
Proof.
  intros H f. rewrite length_futures_resolve. intros Hf Hd.
  pose proof (H f Hf (done_resolve_back _ _ _ _ Hd)) as Hin.
  unfold _garbage_collect. destruct (100 <? _); cbn [_waiters]; [|done].
  apply list_elem_of_filter. split; [|done]. unfold live. by rewrite Hd.
Qed.

Lemma tracked_futures b l w w' :
  futures w' = futures w → tracked b l w → tracked b l w'.
Proof.
  intros Hf H f. unfold done, outcome_of. rewrite Hf. apply H.
Qed.

Lemma tracked_condition_step b c (s : Condition.t * World A) :
  waiters_wf (snd s) (_waiters (fst s)) →
  (b <= length (futures (snd s)))%nat →
  tracked b (_waiters (fst s)) (snd s) →
  (b <= length (futures (snd (condition_step c s))))%nat
  ∧ tracked b (_waiters (fst (condition_step c s))) (snd (condition_step c s)).
Proof.
  destruct s as [self w]. cbn [fst snd]. intros [Hnd Hv] Hb H.
  assert (Hnotify : ∀ n,
    (b <= length (futures (snd (Condition.notify n self w))))%nat
    ∧ tracked b (_waiters (fst (Condition.notify n self w)))
        (snd (Condition.notify n self w))).
  { intros n. unfold Condition.notify.
    destruct (notify_loop_any w n (_waiters self) [])
      as (scanned & rest & H1 & H2 & _). cbn zeta in H1. rewrite H1.
    cbn [fst snd app _waiters]. rewrite length_futures_resolve_all.
    split; [done|]. intros f. rewrite length_futures_resolve_all.
    intros Hf Hd.
    assert (Hd0 : done f w = false).
    { destruct (done f w) eqn:E; [|done].
      by rewrite (done_resolve_all_keep _ _ _ _ E) in Hd. }
    pose proof (H f Hf Hd0) as Hin. rewrite H2 in Hin.
    apply elem_of_app in Hin as [Hin|Hin]; [|done]. exfalso.
    assert (Hw : f ∈ filter (λ f, live w f) scanned).
    { apply list_elem_of_filter. split; [|done].
      unfold live. by rewrite Hd0. }
    rewrite done_resolve_all_elem in Hd; [done|done|].
    unfold valid. lia. }
  destruct c as [timeout|n| |h]; cbn [condition_step fst snd].
  - rewrite Condition_wait_eq. cbn [fst snd _waiters].
    rewrite length_futures__set_timeout, length_futures_Future_new.
    split; [lia|]. by apply tracked_push.
  - apply Hnotify.
  - apply Hnotify.
  - unfold Condition.fire.
    destruct (take_timeout h w) as [[f w1]|] eqn:E; [|by split].
    unfold Condition.on_timeout, set_result. cbn [fst snd].
    pose proof (futures_take_timeout _ _ _ _ E) as Hfut.
    rewrite length_futures_resolve, Hfut. split; [done|].
    apply tracked__garbage_collect. by apply (tracked_futures b _ w).
Qed.

Lemma tracked_condition_run b cs (s : Condition.t * World A) :
  waiters_wf (snd s) (_waiters (fst s)) →
  (b <= length (futures (snd s)))%nat →
  tracked b (_waiters (fst s)) (snd s) →
  (b <= length (futures (snd (condition_run cs s))))%nat
  ∧ tracked b (_waiters (fst (condition_run cs s))) (snd (condition_run cs s)).
Proof.
  revert s. induction cs as [|c cs IH]; intros s Hwf Hb H; [done|].
  unfold condition_run in *. cbn [foldl].
  destruct (tracked_condition_step b c s Hwf Hb H) as [Hb' H'].
  apply IH; [by apply waiters_wf_condition_step|done|done].
Qed.

Lemma tracked_semaphore_step b c (s : Semaphore.t * World A) :
  waiters_wf (snd s) (_waiters (Semaphore.base (fst s))) →
  (b <= length (futures (snd s)))%nat →
  tracked b (_waiters (Semaphore.base (fst s))) (snd s) →
  (b <= length (futures (snd (semaphore_step c s))))%nat
  ∧ tracked b (_waiters (Semaphore.base (fst (semaphore_step c s))))
      (snd (semaphore_step c s)).
Proof.
  destruct s as [self w]. cbn [fst snd]. intros [Hnd Hv] Hb H.
  destruct c as [t| |h]; cbn [semaphore_step fst snd].
  - rewrite Semaphore_acquire_eq.
    destruct (0 <? Semaphore._value self);
      cbn [fst snd Semaphore.base _waiters].
    + unfold set_result.
      rewrite length_futures_resolve, length_futures_Future_new.
      split; [lia|]. intros f.
      rewrite length_futures_resolve, length_futures_Future_new.
      intros Hf Hd.
      destruct (decide (f = length (futures w))) as [->|Hne].
      * rewrite done_resolve_self in Hd; [done|]. apply pending_Future_new.
      * apply H; [lia|]. apply done_resolve_back in Hd.
        by rewrite done_Future_new in Hd.
    + rewrite length_futures__set_timeout, length_futures_Future_new.
      split; [lia|]. by apply tracked_push.
  - unfold Semaphore.release.
    destruct (first_live w (_waiters (Semaphore.base self)))
      as [Hs|(stale & f & rest & Heq & Hs & Hf)].
    + rewrite release_loop_stale by done.
      cbn [fst snd Semaphore.base _waiters]. split; [done|].
      intros g Hg Hd. pose proof (H g Hg Hd) as Hin.
      rewrite (proj1 (Forall_forall _ _) Hs g Hin) in Hd. done.
    + rewrite Heq, release_loop_live by done.
      cbn [fst snd Semaphore.base _waiters]. unfold set_result.
      rewrite length_futures_resolve. split; [done|].
      intros g. rewrite length_futures_resolve. intros Hg Hd.
      pose proof (H g Hg (done_resolve_back _ _ _ _ Hd)) as Hin.
      rewrite Heq in Hin.
      apply elem_of_app in Hin as [Hin|Hin].
      * rewrite done_resolve_keep in Hd; [done|].
        by apply (proj1 (Forall_forall _ _) Hs).
      * apply elem_of_cons in Hin as [->|Hin]; [|done].
        rewrite done_resolve_self in Hd; [done|].
        apply (proj1 (Forall_forall _ _) Hv). rewrite Heq.
        apply elem_of_app. right. by left.
  - unfold Semaphore.fire.
    destruct (take_timeout h w) as [[f w1]|] eqn:E; [|by split].
    unfold Semaphore.on_timeout, set_exception.
    cbn [fst snd Semaphore.base].
    pose proof (futures_take_timeout _ _ _ _ E) as Hfut.
    rewrite length_futures_resolve, Hfut. split; [done|].
    apply tracked__garbage_collect. by apply (tracked_futures b _ w).
Qed.

Lemma tracked_semaphore_run b cs (s : Semaphore.t * World A) :
  waiters_wf (snd s) (_waiters (Semaphore.base (fst s))) →
  (b <= length (futures (snd s)))%nat →
  tracked b (_waiters (Semaphore.base (fst s))) (snd s) →
  (b <= length (futures (snd (semaphore_run cs s))))%nat
  ∧ tracked b (_waiters (Semaphore.base (fst (semaphore_run cs s))))
      (snd (semaphore_run cs s)).
Proof.
  revert s. induction cs as [|c cs IH]; intros s Hwf Hb H; [done|].
  unfold semaphore_run in *. cbn [foldl].
  destruct (tracked_semaphore_step b c s Hwf Hb H) as [Hb' H'].
  apply IH; [by apply waiters_wf_semaphore_step|done|done].
Qed.

Lemma tracked_nil w : tracked (length (futures w)) [] w.
Proof. intros f Hf. lia. Qed.

(** X9: a condition loses no waiter: after any sequence of calls on a
    new [Condition], a future that [wait] has handed out and that is not
    done is still in [_waiters], where a [notify] will find it. *)
Theorem X9_pending_wait_is_in_waiters cs w f :
  let s := condition_run cs (Condition.__init__, w) in
  (length (futures w) <= f < length (futures (snd s)))%nat →
  done f (snd s) = false →
  f ∈ _waiters (fst s).
Proof.
  cbn zeta.
  destruct (tracked_condition_run (length (futures w)) cs
              (Condition.__init__, w)) as [_ H].
  - split; constructor.
  - done.
  - apply tracked_nil.
  - apply H.
Qed.

(** X10: [notify_all] wakes everyone: after any sequence of calls on a
    new [Condition], [notify_all] leaves [_waiters] empty and every
    future that [wait] has handed out done. *)
Theorem X10_notify_all_wakes_every_waiter cs w :
  let s := condition_run cs (Condition.__init__, w) in
  let s' := Condition.notify_all (fst s) (snd s) in
  _waiters (fst s') = []
  ∧ length (futures (snd s')) = length (futures (snd s))
  ∧ ∀ f, (length (futures w) <= f < length (futures (snd s)))%nat →
         done f (snd s') = true.
Proof.
  cbn zeta.
  pose proof (waiters_wf_condition_run cs (Condition.__init__, w)) as Hwf.
  destruct (tracked_condition_run (length (futures w)) cs
              (Condition.__init__, w)) as [Hb H];
    [split; constructor|done|apply tracked_nil|].
  specialize (Hwf ltac:(split; constructor)).
  destruct (condition_run cs (Condition.__init__, w)) as [self w1].
  cbn [fst snd] in *.
  destruct (tracked_condition_step (length (futures w)) CNotifyAll
              (self, w1) Hwf Hb H) as [_ H'].
  cbn [condition_step fst snd] in H'.
  unfold Condition.notify_all, Condition.notify in *.
  destruct (notify_loop_any w1 (Z.of_nat (length (_waiters self)))
              (_waiters self) [])
    as (scanned & rest & H1 & H2 & H3). cbn zeta in H1, H3.
  rewrite H1 in *. cbn [fst snd app _waiters] in *.
  assert (Hrest : rest = []).
  { destruct H3 as [H3|H3]; [done|].
    pose proof (length_filter (λ f, live w1 f) scanned) as Hle.
    rewrite H2, length_app in H3. destruct rest; [done|]. cbn in H3. lia. }
  subst rest. split; [done|]. rewrite length_futures_resolve_all.
  split; [done|]. intros f Hf.
  destruct (done f _) eqn:Hd; [done|].
  specialize (H' f). rewrite length_futures_resolve_all in H'.
  specialize (H' Hf Hd). by apply elem_of_nil in H'.
Qed.

(** X11: a semaphore loses no waiter: after any sequence of calls on a
    new [Semaphore(value)], a future that [acquire] has handed out and
    that is not done is still in [_waiters], where a [release] will find
    it. *)
Theorem X11_pending_acquire_is_in_waiters (value : Z) self cs w f :
  Semaphore.__init__ value = inr self →
  let s := semaphore_run cs (self, w) in
  (length (futures w) <= f < length (futures (snd s)))%nat →
  done f (snd s) = false →
  f ∈ _waiters (Semaphore.base (fst s)).
Proof.
  intros Hinit. unfold Semaphore.__init__ in Hinit.
  destruct (value <? 0); [done|]. injection Hinit as <-. cbn zeta.
  destruct (tracked_semaphore_run (length (futures w)) cs
              (Semaphore.mk TimeoutGarbageCollector.__init__ value, w))
    as [_ H].
  - split; constructor.
  - done.
  - apply tracked_nil.
  - apply H.
Qed.

End Tracked.

Lemma X9_pending_wait_is_in_waiters_witness :
  2%nat ∈ TimeoutGarbageCollector._waiters (fst three_waiters).
Proof.
  apply (X9_pending_wait_is_in_waiters (A:=unit)
           [CWait TNone; CWait (TDelta 5); CWait TNone; CFire 0]
           World_empty 2).
  - vm_compute. lia.
  - reflexivity.
Defined.

Lemma X11_pending_acquire_is_in_waiters_witness :
  3%nat ∈ TimeoutGarbageCollector._waiters
            (Semaphore.base
               (fst (semaphore_run
                       [SAcquire TNone; SAcquire TNone; SAcquire (TDelta 1);
                        SAcquire TNone; SFire 0]
                       (Semaphore.mk TimeoutGarbageCollector.__init__ 2,
                        World_empty (A:=unit))))).
Proof.
  apply (X11_pending_acquire_is_in_waiters (A:=unit) 2
           (Semaphore.mk TimeoutGarbageCollector.__init__ 2)
           [SAcquire TNone; SAcquire TNone; SAcquire (TDelta 1); SAcquire TNone;
            SFire 0]
           World_empty 3).
  - reflexivity.
  - vm_compute. lia.
  - reflexivity.
Defined.


(** * No timeout outlives its waiter *)

Section TimersLive.
Context {A : Type}.
Import TimeoutGarbageCollector.
Implicit Types (w : World A) (f g h : nat) (o : outcome A).

Lemma timers_live_World_empty : timers_live (World_empty (A:=A)).
Proof. constructor. Qed.

Lemma timers_live_not_done w g :
  timers_live w → g ∈ targets w → done g w = false.
Proof.
  intros H Hg. unfold targets in Hg.
  apply list_elem_of_fmap in Hg as (e & -> & He).
  destruct (proj1 (Forall_forall _ _) H e He) as (fut & Hl & Hr & _).
  apply done_false_outcome. unfold outcome_of. by rewrite Hl.
Qed.

Lemma timers_live_Future_new w : timers_live w → timers_live (snd (Future_new w)).
Proof.
  intros H. unfold timers_live. cbn [Future_new snd io_loop].
  eapply Forall_impl; [exact H|]. intros e (fut & Hl & Hr & Hc).
  exists fut. cbn [futures]. split; [|done].
  by apply lookup_app_l_Some.
Qed.

Lemma scheduled_remove_timeout h w e :
  e ∈ _scheduled (io_loop (remove_timeout h w))
  ↔ e ∈ _scheduled (io_loop w) ∧ fst e ≠ h.
Proof.
  unfold remove_timeout. cbn [io_loop _scheduled].
  rewrite list_elem_of_filter. split.
  - intros [Hn He]. split; [done|]. intros Heq.
    rewrite Heq, Nat.eqb_refl in Hn. done.
  - intros [He Hn]. split; [|done].
    by destruct (Nat.eqb_spec (fst e) h).
Qed.

Lemma scheduled_remove_timeouts hs w e :
  e ∈ _scheduled (io_loop (foldl (λ w' h, remove_timeout h w') w hs))
  ↔ e ∈ _scheduled (io_loop w) ∧ fst e ∉ hs.
Proof.
  revert w. induction hs as [|h hs IH]; intros w; cbn [foldl].
  - split; [intros He; split; [done|apply not_elem_of_nil]|by intros []].
  - rewrite IH, scheduled_remove_timeout. rewrite not_elem_of_cons. tauto.
Qed.

Lemma timers_live_remove_timeout h w :
  timers_live w → timers_live (remove_timeout h w).
Proof.
  intros H. apply Forall_forall. intros e He.
  apply scheduled_remove_timeout in He as [He _].
  exact (proj1 (Forall_forall _ _) H e He).
Qed.

(** Resolving a future runs its callbacks, which take its timeouts off
    the table. *)
Lemma timers_live_resolve g o w : timers_live w → timers_live (resolve g o w).
Proof.
  intros H. unfold resolve.
  destruct (futures w !! g) as [fut|] eqn:Hg; [|done].
  destruct (_result fut) eqn:Hr; [done|].
  apply Forall_forall. intros e He.
  apply scheduled_remove_timeouts in He as [He Hn]. cbn [io_loop] in He.
  destruct (proj1 (Forall_forall _ _) H e He) as (fut' & Hl & Hr' & Hc).
  exists fut'. rewrite futures_remove_timeouts. cbn [futures].
  split; [|done].
  rewrite list_lookup_insert_ne; [done|].
  intros Heq. rewrite <- Heq, Hg in Hl. injection Hl as <-. done.
Qed.

Lemma timers_live_resolve_all (v : value A) fs w :
  timers_live w → timers_live (foldl (λ w' f, set_result f v w') w fs).
Proof.
  revert w. induction fs as [|f fs IH]; intros w H; [done|].
  cbn [foldl]. apply IH. by apply timers_live_resolve.
Qed.

(** A timeout set for a pending future comes with its callback. *)
Lemma timers_live__set_timeout g t w :
  pending w g → timers_live w → timers_live (_set_timeout g t w).
Proof.
  intros [Hv Hp] H. unfold _set_timeout. destruct (truthy t); [|done].
  unfold timers_live, add_timeout, add_done_callback.
  cbn [io_loop _scheduled futures].
  unfold outcome_of in Hp.
  destruct (futures w !! g) as [fut|] eqn:Hg;
    [|apply lookup_ge_None in Hg; unfold valid in Hv; lia].
  apply Forall_app. split.
  - eapply Forall_impl; [exact H|]. intros e (fut' & Hl & Hr & Hc).
    unfold timer_live. cbn [futures].
    destruct (decide (snd (snd e) = g)) as [Heq|Hne].
    + rewrite Heq in *. rewrite Hg in Hl. injection Hl as <-.
      eexists. rewrite list_lookup_alter, Hg. cbn.
      destruct (decide (g = g)); [|done]. split; [done|].
      split; [done|]. apply elem_of_app. by left.
    + exists fut'. by rewrite list_lookup_alter_ne.
  - apply Forall_singleton. unfold timer_live. cbn [fst snd futures].
    eexists. rewrite list_lookup_alter, Hg. cbn.
      destruct (decide (g = g)); [|done]. split; [done|].
    split; [done|]. apply elem_of_app. right. by left.
Qed.

Lemma timers_live_new_waiter t w :
  timers_live w →
  timers_live (_set_timeout (length (futures w)) t (snd (Future_new w))).
Proof.
  intros H. apply timers_live__set_timeout.
  - apply pending_Future_new.
  - by apply timers_live_Future_new.
Qed.

(** The timeout that the I/O loop runs is for a future that is still
    pending. *)
Lemma timers_live_take_timeout h w g w1 :
  timers_live w → take_timeout h w = Some (g, w1) →
  timers_live w1 ∧ pending w1 g.
Proof.
  intros H E. unfold take_timeout in E.
  destruct (list_find _ _) as [[i [h' [t g']]]|] eqn:F; [|done].
  injection E as <- <-.
  apply list_find_Some in F as (Hi & _ & _).
  apply list_elem_of_lookup_2 in Hi.
  destruct (proj1 (Forall_forall _ _) H _ Hi) as (fut & Hl & Hr & _).
  cbn [snd] in Hl. split; [by apply timers_live_remove_timeout|].
  split.
  - unfold valid. rewrite futures_remove_timeout.
    by apply lookup_lt_Some in Hl.
  - unfold outcome_of. rewrite futures_remove_timeout. by rewrite Hl.
Qed.

Lemma timers_live_fire h w g w1 o :
  timers_live w → take_timeout h w = Some (g, w1) →
  timers_live (resolve g o w1).
Proof.
  intros H E. apply timers_live_resolve.
  by destruct (timers_live_take_timeout h w g w1 H E).
Qed.

Lemma timers_live_condition_step c (s : Condition.t * World A) :
  timers_live (snd s) → timers_live (snd (condition_step c s)).
Proof.
  destruct s as [self w]. cbn [fst snd]. intros H.
  assert (Hnotify : ∀ n, timers_live (snd (Condition.notify n self w))).
  { intros n. unfold Condition.notify.
    destruct (Condition.notify_loop w n (_waiters self) []) as [[n' d] fs].
    cbn [snd]. by apply timers_live_resolve_all. }
  destruct c as [t|n| |h]; cbn [condition_step fst snd].
  - rewrite Condition_wait_eq. cbn [snd]. by apply timers_live_new_waiter.
  - apply Hnotify.
  - apply Hnotify.
  - unfold Condition.fire.
    destruct (take_timeout h w) as [[g w1]|] eqn:E; [|done].
    unfold Condition.on_timeout, set_result. cbn [snd].
    by eapply timers_live_fire.
Qed.

Lemma timers_live_Semaphore_acquire t (self : Semaphore.t) w :
  timers_live w → timers_live (snd (Semaphore.acquire t self w)).
Proof.
  intros H. rewrite Semaphore_acquire_eq.
  destruct (0 <? Semaphore._value self); cbn [snd].
  - unfold set_result. by apply timers_live_resolve, timers_live_Future_new.
  - by apply timers_live_new_waiter.
Qed.

Lemma timers_live_Semaphore_release (self : Semaphore.t) w :
  timers_live w → timers_live (snd (Semaphore.release self w)).
Proof.
  intros H0. unfold Semaphore.release.
  pose proof (release_loop_value (_waiters (Semaphore.base self))
                (Semaphore._value self + 1) w) as H. cbn zeta in H.
  destruct (Semaphore.release_loop _ _ w) as [[deque v] w'].
  cbn [fst snd] in *.
  destruct H as [(_ & -> & _)|(_ & stale & f & _ & _ & _ & ->)]; [done|].
  unfold set_result. by apply timers_live_resolve.
Qed.

Lemma timers_live_Semaphore_fire h (self : Semaphore.t) w :
  timers_live w → timers_live (snd (Semaphore.fire h self w)).
Proof.
  intros H. unfold Semaphore.fire.
  destruct (take_timeout h w) as [[g w1]|] eqn:E; [|done].
  unfold Semaphore.on_timeout, set_exception. cbn [snd].
  by eapply timers_live_fire.
Qed.

Lemma timers_live_semaphore_step c (s : Semaphore.t * World A) :
  timers_live (snd s) → timers_live (snd (semaphore_step c s)).
Proof.
  destruct s as [self w]. cbn [fst snd]. intros H.
  destruct c as [t| |h]; cbn [semaphore_step fst snd].
  - pose proof (timers_live_Semaphore_acquire t self w H) as H'.
    by destruct (Semaphore.acquire t self w) as [[f s'] w'].
  - by apply timers_live_Semaphore_release.
  - by apply timers_live_Semaphore_fire.
Qed.

Lemma timers_live_lock_step c (s : Lock.t * World A) :
  timers_live (snd s) → timers_live (snd (lock_step c s)).
Proof.
  destruct s as [self w]. cbn [fst snd]. intros H0.
  destruct c as [t| |h]; cbn [lock_step fst snd].
  - rewrite Lock_acquire_world. cbn [snd].
    by apply timers_live_Semaphore_acquire.
  - unfold Lock.release, BoundedSemaphore.release.
    destruct (_ <=? _); [done|].
    pose proof (timers_live_Semaphore_release
                  (BoundedSemaphore.sem (Lock._block self)) w H0) as H.
    by destruct (Semaphore.release _ w) as [s' w'].
  - unfold Lock.fire, BoundedSemaphore.fire.
    pose proof (timers_live_Semaphore_fire h
                  (BoundedSemaphore.sem (Lock._block self)) w H0) as H.
    by destruct (Semaphore.fire h _ w) as [s' w'].
Qed.

Lemma timers_live_foldl {S C : Type} (step : C → S * World A → S * World A)
    (cs : list C) (s : S * World A) :
  (∀ c s, timers_live (snd s) → timers_live (snd (step c s))) →
  timers_live (snd s) → timers_live (snd (foldl (λ s c, step c s) s cs)).
Proof.
  intros Hstep. revert s. induction cs as [|c cs IH]; intros s H; [done|].
  cbn [foldl]. apply IH. by apply Hstep.
Qed.

(** X12: in locks.py no timeout outlives its waiter.  From a world in
    which every scheduled timeout is for a pending future that holds its
    cancelling callback (an empty I/O loop, say), any sequence of calls
    on a [Condition], a [Semaphore] or a [Lock] leads to such a world
    again, so that a future with a scheduled timeout is never done and
    the timeout the I/O loop runs always finds its waiter pending. *)
Theorem X12_locks_timeouts_are_for_pending_waiters w :
  timers_live w →
  ∀ w',
    (∃ cs (self : Condition.t), w' = snd (condition_run cs (self, w)))
    ∨ (∃ cs (self : Semaphore.t), w' = snd (semaphore_run cs (self, w)))
    ∨ (∃ cs (self : Lock.t), w' = snd (lock_run cs (self, w))) →
    timers_live w'
    ∧ (∀ g, g ∈ targets w' → done g w' = false)
    ∧ (∀ h g w'', take_timeout h w' = Some (g, w'') → pending w'' g).
Proof.
  intros H w' Hw'.
  assert (H' : timers_live w').
  { destruct Hw' as [(cs & self & ->)|[(cs & self & ->)|(cs & self & ->)]].
    - apply (timers_live_foldl condition_step);
        [apply timers_live_condition_step|done].
    - apply (timers_live_foldl semaphore_step);
        [apply timers_live_semaphore_step|done].
    - apply (timers_live_foldl lock_step);
        [apply timers_live_lock_step|done]. }
  split; [done|]. split.
  - intros g. by apply timers_live_not_done.
  - intros h g w'' E. by destruct (timers_live_take_timeout h w' g w'' H' E).
Qed.

Section Queues.
Context {M : Queue.Methods A}.
Implicit Types (self : Queue.t A) (item : A).

Lemma timers_live_Event_clear (e : Event.t) w :
  timers_live w → timers_live (snd (Event.clear e w)).
Proof.
  intros H. destruct (done (Event._future e) w) eqn:Hd.
  - rewrite Event_clear_done by done. by apply timers_live_Future_new.
  - by rewrite Event_clear_not_done.
Qed.

Lemma timers_live_Event_set (e : Event.t) w :
  timers_live w → timers_live (Event.set e w).
Proof.
  intros H. unfold Event.set. destruct (negb _); [|done].
  unfold set_result. by apply timers_live_resolve.
Qed.

Lemma timers_live_put_nowait item self w :
  timers_live w →
  timers_live (snd (state_of (Queue.put_nowait item self w))).
Proof.
  intros H. unfold Queue.put_nowait.
  destruct (Queue._getters (Queue._consume_expired self w)) as [|g gs].
  - destruct (Queue.full _); [done|].
    rewrite __put_internal_eq. by apply timers_live_Event_clear.
  - destruct (Queue.empty _); [|done].
    rewrite __put_internal_eq.
    destruct (Queue._get _) as [[x q]|]; cbn [state_of snd].
    + unfold set_result. by apply timers_live_resolve, timers_live_Event_clear.
    + by apply timers_live_Event_clear.
Qed.

Lemma timers_live_get_nowait self w :
  timers_live w →
  timers_live (snd (state_of (Queue.get_nowait self w))).
Proof.
  intros H. unfold Queue.get_nowait.
  destruct (Queue._putters (Queue._consume_expired self w)) as [|[i p] ps].
  - destruct (negb _); [|done].
    by destruct (Queue._get _) as [[x q]|].
  - destruct (Queue.full _); [|done].
    rewrite __put_internal_eq.
    assert (H1 : timers_live (set_result p VNone
                  (snd (Event.clear (Queue._finished
                                       (Queue._consume_expired self w)) w)))).
    { unfold set_result. by apply timers_live_resolve, timers_live_Event_clear. }
    by destruct (Queue._get _) as [[x q]|].
Qed.

(** A [put_nowait] that raises [QueueFull] and a [get_nowait] that
    raises [QueueEmpty] leave the world as it was. *)
Lemma put_nowait_QueueFull_world item self w s :
  Queue.put_nowait item self w = Raise QueueFull s → snd s = w.
Proof.
  unfold Queue.put_nowait.
  destruct (Queue._getters (Queue._consume_expired self w)) as [|g gs].
  - destruct (Queue.full _); [by intros [= <-]|done].
  - destruct (Queue.empty _); [|done].
    destruct (Queue.__put_internal _ _ _) as [s3 w3].
    by destruct (Queue._get _) as [[x q]|].
Qed.

Lemma get_nowait_QueueEmpty_world self w s :
  Queue.get_nowait self w = Raise QueueEmpty s → snd s = w.
Proof.
  unfold Queue.get_nowait.
  destruct (Queue._putters (Queue._consume_expired self w)) as [|[i p] ps].
  - destruct (negb _); [|by intros [= <-]].
    by destruct (Queue._get _) as [[x q]|].
  - destruct (Queue.full _); [|done].
    destruct (Queue.__put_internal _ _ _) as [s3 w3].
    by destruct (Queue._get _) as [[x q]|].
Qed.

Lemma timers_live_put item timeout self w :
  timers_live w →
  timers_live (snd (state_of (Queue.put item timeout self w))).
Proof.
  intros H0. unfold Queue.put.
  pose proof (timers_live_put_nowait item self w H0) as H.
  destruct (Queue.put_nowait item self w) as [[] [s1 w1]|e [s1 w1]];
    cbn [state_of snd] in *; [done|].
  destruct e; try done. cbn [Future_new state_of snd].
  by apply (timers_live_new_waiter timeout w1).
Qed.

Lemma timers_live_get timeout self w :
  timers_live w →
  timers_live (snd (state_of (Queue.get timeout self w))).
Proof.
  intros H0. unfold Queue.get. cbn [Future_new].
  pose proof (timers_live_get_nowait self (snd (Future_new w))
                (timers_live_Future_new w H0)) as H.
  pose proof (get_nowait_QueueEmpty_world self (snd (Future_new w))) as Hw.
  cbn [Future_new snd] in H, Hw.
  destruct (Queue.get_nowait self _) as [x [s1 w1]|e [s1 w1]];
    cbn [state_of snd] in *.
  - unfold set_result. by apply timers_live_resolve.
  - destruct e; try done. cbn [state_of snd].
    specialize (Hw _ eq_refl). cbn [snd] in Hw. subst w1.
    apply (timers_live_new_waiter timeout w H0).
Qed.

Lemma timers_live_task_done self w :
  timers_live w →
  timers_live (snd (state_of (Queue.task_done self w))).
Proof.
  intros H. unfold Queue.task_done. destruct (_ <=? 0); [done|].
  destruct (_ =? 0); [|done]. by apply timers_live_Event_set.
Qed.

Lemma timers_live_queue_step c (s : Queue.t A * World A) :
  timers_live (snd s) → timers_live (snd (queue_step c s)).
Proof.
  destruct s as [self w]. cbn [fst snd]. intros H.
  destruct c; cbn [queue_step fst snd].
  - by apply timers_live_put.
  - by apply timers_live_get.
  - by apply timers_live_put_nowait.
  - by apply timers_live_get_nowait.
  - by apply timers_live_task_done.
  - unfold Queue.fire.
    destruct (take_timeout h w) as [[g w1]|] eqn:E; [|done].
    unfold set_exception. cbn [snd]. by eapply timers_live_fire.
Qed.

(** X13: in queues.py no timeout outlives its waiter.  From a world in
    which every scheduled timeout is for a pending future that holds its
    cancelling callback, any sequence of calls on a queue leads to such
    a world again: a getter or putter that has been served has no
    timeout left on the I/O loop, and the timeout the I/O loop runs
    always finds its future pending. *)
Theorem X13_queue_timeouts_are_for_pending_waiters w self cs :
  timers_live w →
  let w' := snd (queue_run cs (self, w)) in
  timers_live w'
  ∧ (∀ g, g ∈ targets w' → done g w' = false)
  ∧ (∀ h g w'', take_timeout h w' = Some (g, w'') → pending w'' g).
Proof.
  intros H. cbn zeta.
  assert (H' : timers_live (snd (queue_run cs (self, w)))).
  { apply (timers_live_foldl queue_step);
      [apply timers_live_queue_step|done]. }
  split; [done|]. split.
  - intros g. by apply timers_live_not_done.
  - intros h g w'' E. by destruct (timers_live_take_timeout h _ g w'' H' E).
Qed.

End Queues.
End TimersLive.

Lemma X12_locks_timeouts_are_for_pending_waiters_witness :
  timers_live (snd three_waiters)
  ∧ targets (snd three_waiters) = []
  ∧ targets (snd timed_waiter) = [0%nat].
Proof.
  split; [|split; reflexivity].
  apply (X12_locks_timeouts_are_for_pending_waiters (A:=unit) World_empty).
  - constructor.
  - left. by exists [CWait TNone; CWait (TDelta 5); CWait TNone; CFire 0],
                   Condition.__init__.
Defined.

Lemma X13_queue_timeouts_are_for_pending_waiters_witness :
  timers_live (snd waiting_queue)
  ∧ targets (snd waiting_queue) = [4%nat].
Proof.
  split; [|reflexivity].
  apply (X13_queue_timeouts_are_for_pending_waiters (M:=Queue.methods)
           (snd (new_queue Queue.methods 1)) (fst (new_queue Queue.methods 1))
           [QGet (TDelta 3); QPut 1 TNone; QPut 2 (TDelta 4);
            QPut 3 (TDelta 5); QPut 4 (TDelta 6); QGet TNone]).
  constructor.
Defined.


(** * One holder at a time *)

Section Holders.
Context {A : Type}.
Import TimeoutGarbageCollector.
Implicit Types (w : World A) (l : Lock.t) (s : Lock.t * World A).

(** A step of a lock is the step of its semaphore, but for a [release]
    at the initial value, which raises and changes nothing. *)
Lemma lock_step_sem c l w :
  BoundedSemaphore._initial_value (Lock._block (fst (lock_step c (l, w))))
  = BoundedSemaphore._initial_value (Lock._block l)
  ∧ ((c = SRelease
      ∧ BoundedSemaphore._initial_value (Lock._block l)
        <= Semaphore._value (lock_sem l)
      ∧ Lock.release l w = Raise (RuntimeError "release unlocked lock") (l, w)
      ∧ lock_step c (l, w) = (l, w))
     ∨ ((c = SRelease →
         Semaphore._value (lock_sem l)
         < BoundedSemaphore._initial_value (Lock._block l)
         ∧ raised (Lock.release l w) = None)
        ∧ (lock_sem (fst (lock_step c (l, w))), snd (lock_step c (l, w)))
          = semaphore_step c (lock_sem l, w))).
Proof.
  destruct c as [t| |h]; cbn [lock_step semaphore_step fst snd].
  - rewrite Lock_acquire_world. cbn [fst snd Lock._block].
    split; [done|]. right. split; [done|]. unfold lock_sem.
    cbn [Lock._block BoundedSemaphore.sem].
    by destruct (Semaphore.acquire t _ w) as [[f s'] w'].
  - destruct (Z.le_gt_cases (BoundedSemaphore._initial_value (Lock._block l))
                (Semaphore._value (lock_sem l))) as [Hle|Hgt].
    + rewrite Lock_release_unlocked by done. cbn [state_of fst].
      split; [done|]. by left.
    + unfold Lock.release.
      destruct (BoundedSemaphore_release_returns (Lock._block l) w)
        as ([b w'] & -> & Heq); [unfold lock_sem in Hgt; lia|].
      cbn [fst snd state_of] in *. injection Heq as -> ->.
      cbn [Lock._block BoundedSemaphore._initial_value]. split; [done|].
      right. split; [by intros _|]. unfold lock_sem.
      cbn [Lock._block BoundedSemaphore.sem].
      by destruct (Semaphore.release _ w).
  - unfold Lock.fire, BoundedSemaphore.fire. unfold lock_sem.
    destruct (Semaphore.fire h _ w) as [s' w'].
    cbn [fst snd Lock._block BoundedSemaphore._initial_value
         BoundedSemaphore.sem].
    split; [done|]. right. by split.
Qed.

Lemma lock_inv_step c s :
  lock_inv (fst s) (snd s) →
  lock_inv (fst (lock_step c s)) (snd (lock_step c s))
  ∧ Semaphore._value (lock_sem (fst (lock_step c s)))
    + granted (snd (lock_step c s))
    = Semaphore._value (lock_sem (fst s)) + granted (snd s) + unlocks [c] s.
Proof.
  destruct s as [l w]. cbn [fst snd]. intros (Hi & Hv & Hwf).
  destruct (lock_step_sem c l w)
    as [Hinit [(-> & Hle & Hr & ->)|[Hrel Heq]]].
  - cbn [fst snd unlocks]. rewrite Hr. split; [done|]. lia.
  - pose proof (permits_step c (lock_sem l, w) Hwf) as Hp.
    pose proof (waiters_wf_semaphore_step c (lock_sem l, w) Hwf) as Hwf'.
    pose proof (semaphore_step_value c (lock_sem l, w)) as Hv0.
    rewrite <- Heq in Hp, Hwf', Hv0. cbn [fst snd] in Hp, Hwf', Hv0.
    assert (Hu : unlocks [c] (l, w) = release_count [c]).
    { cbn [unlocks fst snd]. destruct c as [t| |h]; [done| |done].
      destruct (Hrel eq_refl) as [_ Hn].
      by destruct (Lock.release l w). }
    rewrite Hu. split; [|exact Hp].
    split; [by rewrite Hinit|]. split; [|done].
    split; [apply Hv0; lia|].
    destruct c as [t| |h].
    + change (release_count [SAcquire t]) with 0 in Hp.
      pose proof (Zle_0_nat (length (List.filter is_granted (futures w)))).
      assert (Hg : granted w
                   <= granted (snd (lock_step (SAcquire t) (l, w)))).
      { cbn [lock_step fst snd]. rewrite Lock_acquire_world. cbn [snd].
        rewrite Semaphore_acquire_eq.
        destruct (0 <? _); cbn [snd].
        - unfold set_result.
          rewrite granted_resolve_pending by apply pending_Future_new.
          rewrite granted_Future_new. cbn. lia.
        - rewrite granted__set_timeout, granted_Future_new. lia. }
      lia.
    + destruct (Hrel eq_refl) as [Hlt _]. rewrite Hi in Hlt.
      assert (Hs : Semaphore._value
                     (fst (semaphore_step SRelease (lock_sem l, w)))
                   <= Semaphore._value (lock_sem l) + 1).
      { cbn [semaphore_step fst snd].
        destruct (Semaphore_release_value (lock_sem l) w) as [-> | ->]; lia. }
      rewrite <- Heq in Hs. cbn [fst] in Hs. lia.
    + assert (Hs : Semaphore._value
                     (fst (semaphore_step (SFire h) (lock_sem l, w)))
                   = Semaphore._value (lock_sem l)).
      { cbn [semaphore_step fst snd]. apply Semaphore_fire_value. }
      rewrite <- Heq in Hs. cbn [fst] in Hs. lia.
Qed.

Lemma unlocks_cons c cs s :
  unlocks (c :: cs) s = unlocks [c] s + unlocks cs (lock_step c s).
Proof. cbn [unlocks]. lia. Qed.

Lemma lock_inv_run cs s :
  lock_inv (fst s) (snd s) →
  lock_inv (fst (lock_run cs s)) (snd (lock_run cs s))
  ∧ Semaphore._value (lock_sem (fst (lock_run cs s)))
    + granted (snd (lock_run cs s))
    = Semaphore._value (lock_sem (fst s)) + granted (snd s) + unlocks cs s.
Proof.
  revert s. induction cs as [|c cs IH]; intros s H.
  - cbn. split; [done|]. lia.
  - unfold lock_run in *. cbn [foldl].
    destruct (lock_inv_step c s H) as [H1 E1].
    destruct (IH _ H1) as [H2 E2]. split; [done|].
    rewrite unlocks_cons. lia.
Qed.

(** X14: a lock has one holder at a time.  After any sequence of
    [acquire], [release] and fired timeouts on a new [Lock], the number
    of acquires granted minus the number of [release] calls that
    returned is 0 or 1, namely 1 minus the counter of the semaphore; and
    [release] raises the "release unlocked lock" [RuntimeError] exactly
    when that number is 0, and returns when it is 1. *)
Theorem X14_lock_has_at_most_one_holder cs w :
  let s := lock_run cs (Lock.__init__, w) in
  let holders := granted (snd s) - granted w - unlocks cs (Lock.__init__, w) in
  holders = 1 - Semaphore._value (lock_sem (fst s))
  ∧ 0 <= holders <= 1
  ∧ (holders = 0 →
       Lock.release (fst s) (snd s)
       = Raise (RuntimeError "release unlocked lock") s)
  ∧ (holders = 1 → raised (Lock.release (fst s) (snd s)) = None).
Proof.
  cbn zeta.
  destruct (lock_inv_run cs (Lock.__init__, w)) as [(Hi & Hv & Hwf) E].
  { split; [done|]. split; [cbn; lia|]. split; constructor. }
  cbn [fst snd] in E.
  change (Semaphore._value (lock_sem Lock.__init__)) with 1 in E.
  destruct (lock_run cs (Lock.__init__, w)) as [l w1]. cbn [fst snd] in *.
  split; [lia|]. split; [lia|]. split.
  - intros Hh. apply Lock_release_unlocked. unfold lock_sem in *. lia.
  - intros Hh.
    destruct (lock_step_sem SRelease l w1)
      as [_ [(_ & Hle & _)|[Hrel _]]].
    + lia.
    + by destruct (Hrel eq_refl).
Qed.

End Holders.

Lemma X14_lock_has_at_most_one_holder_witness :
  Semaphore._value (lock_sem (fst used_lock)) = 1
  ∧ unlocks
      [SAcquire TNone; SAcquire TNone; SAcquire (TDelta 1); SRelease; SFire 0;
       SRelease; SRelease]
      (Lock.__init__, World_empty (A:=unit)) = 2
  ∧ Lock.release (fst used_lock) (snd used_lock)
    = Raise (RuntimeError "release unlocked lock") used_lock.
Proof.
  split; [reflexivity|]. split; [reflexivity|].
  apply (proj1 (proj2 (proj2
           (X14_lock_has_at_most_one_holder (A:=unit)
              [SAcquire TNone; SAcquire TNone; SAcquire (TDelta 1); SRelease;
               SFire 0; SRelease; SRelease]
              World_empty)))).
  reflexivity.
Defined.


(** * Event *)

Section EventCalls.
Context {A : Type}.
Implicit Types (w : World A) (e : Event.t) (s : Event.t * World A).

Lemma Event_set_valid e w g : valid w g → valid (Event.set e w) g.
Proof.
  unfold Event.set. destruct (negb _); [|done].
  unfold set_result. by rewrite valid_resolve.
Qed.

Lemma Event_set_done e w g : done g w = true → done g (Event.set e w) = true.
Proof.
  intros H. unfold Event.set. destruct (negb _); [|done].
  unfold set_result. by apply done_resolve_keep.
Qed.

Lemma Event_clear_keeps_done e w g :
  done g w = true → done g (snd (Event.clear e w)) = true.
Proof. unfold done. by rewrite Event_clear_outcome. Qed.

Lemma event_step_valid c s :
  valid (snd s) (Event._future (fst s)) →
  valid (snd (event_step c s)) (Event._future (fst (event_step c s))).
Proof.
  destruct s as [e w]. destruct c; cbn [event_step fst snd]; intros Hv.
  - by apply Event_set_valid.
  - by apply Event_clear_valid.
Qed.

Lemma event_run_valid cs s :
  valid (snd s) (Event._future (fst s)) →
  valid (snd (event_run cs s)) (Event._future (fst (event_run cs s))).
Proof.
  revert s. induction cs as [|c cs IH]; intros s Hv; [done|].
  unfold event_run in *. cbn [foldl]. by apply IH, event_step_valid.
Qed.

Lemma event_run_app cs1 cs2 s :
  event_run (cs1 ++ cs2) s = event_run cs2 (event_run cs1 s).
Proof. unfold event_run. by rewrite foldl_app. Qed.

Lemma event_run_done cs s g :
  done g (snd s) = true → done g (snd (event_run cs s)) = true.
Proof.
  revert s. induction cs as [|c cs IH]; intros s Hd; [done|].
  unfold event_run in *. cbn [foldl]. apply IH.
  destruct s as [e w]. destruct c; cbn [event_step fst snd] in *.
  - by apply Event_set_done.
  - by apply Event_clear_keeps_done.
Qed.

Lemma Event___init___valid w :
  valid (snd (Event.__init__ w)) (Event._future (fst (Event.__init__ w))).
Proof. apply (pending_Future_new w). Qed.

(** X15: the flag of an event is what the last call made it: after any
    sequence of [set] and [clear] calls on a new [Event], [is_set()] is
    true exactly when the sequence ends with a [set]; in particular a
    new event is not set, a second [set] changes nothing and [clear]
    resets the flag whatever came before. *)
Theorem X15_event_flag_follows_last_call cs w :
  let s := event_run cs (Event.__init__ w) in
  Event.is_set (fst s) (snd s)
  = match last cs with Some ESet => true | _ => false end.
Proof.
  cbn zeta. destruct (decide (cs = [])) as [->|Hne].
  - cbn. unfold Event.is_set. apply done_false_outcome.
    apply (pending_Future_new w).
  - destruct (exists_last Hne) as (cs' & c & ->).
    rewrite last_snoc, event_run_app.
    pose proof (event_run_valid cs' (Event.__init__ w)
                  (Event___init___valid w)) as Hv.
    destruct (event_run cs' (Event.__init__ w)) as [e w1].
    cbn [fst snd] in Hv. unfold event_run. cbn [foldl].
    destruct c; cbn [event_step fst snd].
    + by apply Event_is_set_set.
    + apply Event_is_set_clear.
Qed.

(** X16: [set] wakes for good: the future that [wait()] hands out
    without a timeout is the future of the event, it is done once [set]
    has been called, and it stays done through every later [clear] and
    [set], since [clear] replaces the future and does not reset it. *)
Theorem X16_event_waiter_stays_woken cs1 cs2 w :
  let s1 := event_run cs1 (Event.__init__ w) in
  ∃ f, Event_wait TNone (fst s1) = Plain f
       ∧ done f (snd (event_run (ESet :: cs2) s1)) = true.
Proof.
  cbn zeta.
  pose proof (event_run_valid cs1 (Event.__init__ w)
                (Event___init___valid w)) as Hv.
  destruct (event_run cs1 (Event.__init__ w)) as [e w1].
  cbn [fst snd] in *. exists (Event._future e). split; [done|].
  change (event_run (ESet :: cs2) (e, w1))
    with (event_run cs2 (e, Event.set e w1)).
  apply event_run_done. cbn [snd].
  by apply (Event_is_set_set e w1).
Qed.

End EventCalls.


(** * The order of retrieval *)

Section Ordering.
Context {A : Type} {M : Queue.Methods A} {L : MethodsLaws M}.
Implicit Types (w : World A) (item : A) (q : list A) (items : list A).

Lemma length_stored items q :
  length (stored items q) = (length q + length items)%nat.
Proof.
  revert q. induction items as [|item items IH]; intros q; cbn; [lia|].
  unfold stored in IH. rewrite IH, _put_length. lia.
Qed.

Lemma _consume_expired_idle m q u f w :
  Queue._consume_expired (Queue.mk m q [] [] u f) w = Queue.mk m q [] [] u f.
Proof. reflexivity. Qed.

(** [put] on a queue with no waiter and room left stores the item and
    returns the null future. *)
Lemma put_idle item m q u f w :
  m = 0 ∨ Z.of_nat (length q) < m →
  Queue.put item TNone (Queue.mk m q [] [] u f) w
  = Return NullFuture
      (Queue.mk m (Queue._put item q) [] [] (u + 1) (fst (Event.clear f w)),
       snd (Event.clear f w)).
Proof.
  intros Hroom. unfold Queue.put, Queue.put_nowait. cbn zeta.
  rewrite _consume_expired_idle. cbn [Queue._getters].
  assert (Hf : Queue.full (Queue.mk m q [] [] u f) = false).
  { apply full_false_spec. cbn. exact Hroom. }
  rewrite Hf. by rewrite __put_internal_eq.
Qed.

Lemma puts_idle items m q u f w :
  m = 0 ∨ Z.of_nat (length q + length items) <= m →
  ∃ u' f' w',
    puts items (Queue.mk m q [] [] u f, w)
    = Some (Queue.mk m (stored items q) [] [] u' f', w').
Proof.
  revert q u f w. induction items as [|item items IH]; intros q u f w Hroom.
  - by exists u, f, w.
  - cbn [puts fst snd]. rewrite put_idle by (cbn [length] in Hroom; lia).
    apply IH. rewrite _put_length. cbn [length] in Hroom. lia.
Qed.

(** [get] on a queue with items and no waiter resolves its future with
    what [_get] takes off the storage. *)
Lemma get_idle m q u f w x q' :
  Queue._get q = Some (x, q') →
  Queue.get TNone (Queue.mk m q [] [] u f) w
  = Return (length (futures w))
      (Queue.mk m q' [] [] u f,
       set_result (length (futures w)) (VItem x) (snd (Future_new w))).
Proof.
  intros Hget. unfold Queue.get, Queue.get_nowait. cbn zeta.
  cbn [Future_new]. rewrite _consume_expired_idle.
  cbn [Queue._putters Queue._queue].
  assert (Hq : negb (Queue.qsize (Queue.mk m q [] [] u f) =? 0) = true).
  { unfold Queue.qsize. cbn [Queue._queue].
    rewrite (_get_length q x q' Hget). cbn [length].
    destruct (Z.eqb_spec (Z.of_nat (S (length q'))) 0); [lia|done]. }
  rewrite Hq, Hget. done.
Qed.

Lemma gets_idle n m q u f w :
  length q = n →
  gets n (Queue.mk m q [] [] u f, w) = fmap got (drain n q).
Proof.
  revert q w. induction n as [|n IH]; intros q w Hn; [done|].
  cbn [gets drain fst snd].
  destruct (Queue._get q) as [[x q']|] eqn:Hget.
  - rewrite (get_idle m q u f w x q' Hget). cbn [snd fmap list_fmap].
    f_equal.
    + unfold set_result.
      rewrite outcome_of_resolve_pending by apply pending_Future_new. done.
    + apply IH. pose proof (_get_length q x q' Hget). lia.
  - exfalso. apply (_get_nonempty q); [|done]. by destruct q.
Qed.

(** What goes in comes out, in the order in which the class takes its
    storage apart. *)
Lemma put_then_get_drain maxsize items :
  maxsize = 0 ∨ Z.of_nat (length items) <= maxsize →
  put_then_get M maxsize items
  = Some (fmap got (drain (length items) (stored items Queue._init))).
Proof.
  intros Hroom. unfold put_then_get.
  rewrite new_queue___init__ by lia. unfold new_queue. cbn [fst snd].
  destruct (puts_idle items maxsize Queue._init 0 (Event.mk 0)
              (Event.set (Event.mk 0) (snd (Future_new World_empty))))
    as (u' & f' & w' & ->).
  { rewrite _init_empty. cbn [length]. lia. }
  rewrite gets_idle; [done|].
  rewrite length_stored, _init_empty. cbn. lia.
Qed.

End Ordering.

Section FifoLifo.
Context {A : Type}.
Implicit Types (items q : list A).

Lemma stored_Queue items q :
  stored (M:=Queue.methods) items q = q ++ items.
Proof.
  revert q. induction items as [|x items IH]; intros q; cbn.
  - by rewrite app_nil_r.
  - unfold stored in IH. rewrite IH. cbn. by rewrite <- app_assoc.
Qed.

Lemma stored_LifoQueue items q :
  stored (M:=LifoQueue.methods) items q = q ++ items.
Proof.
  revert q. induction items as [|x items IH]; intros q; cbn.
  - by rewrite app_nil_r.
  - unfold stored in IH. rewrite IH. cbn. by rewrite <- app_assoc.
Qed.

Lemma drain_Queue q : drain (M:=Queue.methods) (length q) q = q.
Proof. induction q as [|x q IH]; cbn; [done|]. by rewrite IH. Qed.

Lemma drain_LifoQueue q :
  drain (M:=LifoQueue.methods) (length q) q = reverse q.
Proof.
  induction q as [|x q IH] using rev_ind; [done|].
  rewrite length_app. cbn [length]. rewrite Nat.add_1_r. cbn [drain].
  cbn. rewrite last_snoc, removelast_last, reverse_snoc. by rewrite IH.
Qed.

(** X17: a [Queue] is first in, first out and a [LifoQueue] last in,
    first out, for any items: after [put] of each item of a list on a
    new queue with room for them ([maxsize] 0 or at least the number of
    items), as many [get] calls return the items in the order of the
    puts from a [Queue] and in the reverse order from a [LifoQueue]. *)
Theorem X17_fifo_and_lifo_order maxsize items :
  maxsize = 0 ∨ Z.of_nat (length items) <= maxsize →
  put_then_get Queue.methods maxsize items = Some (fmap got items)
  ∧ put_then_get LifoQueue.methods maxsize items
    = Some (fmap got (reverse items)).
Proof.
  intros Hroom. split.
  - rewrite (put_then_get_drain (L:=Queue_methods_laws)) by done.
    rewrite stored_Queue. cbn [Queue._init Queue.methods app].
    by rewrite drain_Queue.
  - rewrite (put_then_get_drain (L:=LifoQueue_methods_laws)) by done.
    rewrite stored_LifoQueue. cbn [Queue._init LifoQueue.methods app].
    by rewrite drain_LifoQueue.
Qed.

End FifoLifo.

Lemma X17_fifo_and_lifo_order_witness :
  put_then_get Queue.methods 4 [5; 3; 9; 3] = Some [got 5; got 3; got 9; got 3]
  ∧ put_then_get LifoQueue.methods 4 [5; 3; 9; 3]
    = Some [got 3; got 9; got 3; got 5].
Proof.
  apply (X17_fifo_and_lifo_order 4 [5; 3; 9; 3]). right. cbn. lia.
Defined.


(** * From producer to consumer *)

Lemma Queue_hand_over {A : Type} : hand_over (Queue.methods (A:=A)).
Proof. by intros item. Qed.

Lemma LifoQueue_hand_over {A : Type} : hand_over (LifoQueue.methods (A:=A)).
Proof. by intros item. Qed.

Lemma PriorityQueue_hand_over {A : Type} (lt : A → A → bool) :
  hand_over (PriorityQueue.methods lt).
Proof. by intros item. Qed.

Section HandOver.
Context {A : Type} {M : Queue.Methods A} {L : MethodsLaws M}.
Implicit Types (w : World A) (self : Queue.t A) (item : A).

(** X18: an item put while a consumer waits goes straight to that
    consumer.  On a queue reached from its constructor, if [getter] is
    the first getter that is not done, [put_nowait(item)] returns,
    resolves [getter] with [item] itself, takes the getters up to it off
    the list, counts one more unfinished task and leaves the storage
    empty. *)
Theorem X18_put_hands_item_to_first_live_getter
    maxsize w self0 w0 cs item stale getter rest :
  hand_over M →
  Queue.__init__ maxsize w = Return self0 w0 →
  let q := fst (queue_run cs (self0, w0)) in
  let w1 := snd (queue_run cs (self0, w0)) in
  Queue._getters q = stale ++ getter :: rest →
  Forall (λ g, done g w1 = true) stale →
  done getter w1 = false →
  ∃ q' w',
    Queue.put_nowait item q w1 = Return tt (q', w')
    ∧ outcome_of getter w' = Some (Result (VItem item))
    ∧ Queue._getters q' = rest
    ∧ Queue._queue q' = []
    ∧ Queue._unfinished_tasks q' = Queue._unfinished_tasks q + 1.
Proof.
  intros Hhand Hinit q w1 Hg Hstale Hlive.
  pose proof (queue_inv_run cs (self0, w0) (queue_inv___init__ _ _ _ _ Hinit))
    as (_ & _ & H3 & _). fold q in H3.
  pose proof (queue_wf_run cs (self0, w0) (queue_wf___init__ _ _ _ _ Hinit))
    as Hwf. fold q w1 in Hwf.
  assert (Hq : Queue._queue q = []).
  { apply H3. rewrite Hg. by destruct stale. }
  assert (Hp : pending w1 getter).
  { split; [|by apply done_false_outcome].
    destruct Hwf as (_ & _ & Hgv & _).
    apply (proj1 (Forall_forall _ _) Hgv). rewrite Hg.
    apply elem_of_app. right. by left. }
  pose proof (put_nowait_getter M q w1 stale item getter rest Hg Hstale Hp)
    as H. rewrite Hq, Hhand in H.
  destruct H as (q' & w' & Hput & Hq' & Hg' & Ho).
  { unfold Queue.empty. by rewrite Hq. }
  exists q', w'. split; [done|]. split; [done|]. split; [done|].
  split; [done|].
  destruct (put_nowait_counts item q w1 q' w' Hwf Hput) as [Hu _]. done.
Qed.

End HandOver.

Lemma X18_put_hands_item_to_first_live_getter_witness :
  ∃ q' w',
    Queue.put_nowait (M:=Queue.methods) 7 (fst awaited_queue)
      (snd awaited_queue) = Return tt (q', w')
    ∧ outcome_of 2%nat w' = Some (Result (VItem 7))
    ∧ Queue._getters q' = []
    ∧ Queue._queue q' = []
    ∧ Queue._unfinished_tasks q' = Queue._unfinished_tasks (fst awaited_queue) + 1.
Proof.
  apply (X18_put_hands_item_to_first_live_getter (M:=Queue.methods)
           (L:=Queue_methods_laws) (Some 0) World_empty
           (fst (new_queue Queue.methods 0)) (snd (new_queue Queue.methods 0))
           [QGet (TDelta 2); QGet TNone; QFire 0] 7 [1%nat] 2%nat []).
  - apply Queue_hand_over.
  - reflexivity.
  - reflexivity.
  - repeat constructor.
  - reflexivity.
Defined.


(** * The heap of a PriorityQueue *)

Lemma parent_lt i : (0 < i)%nat → (parent i < i)%nat.
Proof.
  intros Hi. unfold parent.
  pose proof (Nat.div_mod_eq (i - 1) 2) as E.
  pose proof (Nat.mod_upper_bound (i - 1) 2 ltac:(lia)). lia.
Qed.

Lemma parent_child c p :
  (0 < c)%nat → parent c = p ↔ (c = 2 * p + 1 ∨ c = 2 * p + 2)%nat.
Proof.
  intros Hc. unfold parent.
  pose proof (Nat.div_mod_eq (c - 1) 2) as E.
  pose proof (Nat.mod_upper_bound (c - 1) 2 ltac:(lia)).
  split.
  - intros <-. lia.
  - intros [-> | ->].
    + replace (2 * p + 1 - 1)%nat with (p * 2)%nat by lia.
      apply Nat.div_mul. lia.
    + replace (2 * p + 2 - 1)%nat with (1 + p * 2)%nat by lia.
      rewrite Nat.div_add by lia. reflexivity.
Qed.

Section Heap.
Context {A : Type} (lt : A → A → bool) {O : StrictWeakOrder lt}.
Implicit Types (heap h : list A) (x y newitem item : A) (pos i c : nat).

Lemma order_irrefl x : lt x x = false.
Proof.
  destruct (lt x x) eqn:E; [|done]. by rewrite (order_asym x x E) in E.
Qed.

Lemma is_heap_nil : is_heap lt [].
Proof. intros i x y _ Hx. done. Qed.

(** The root of a heap is below no item of it. *)
Lemma is_heap_root h x :
  is_heap lt h → h !! 0%nat = Some x → ∀ y, y ∈ h → lt y x = false.
Proof.
  intros Hh H0 y Hy. apply list_elem_of_lookup in Hy as [i Hi].
  revert y Hi. induction i as [i IH] using lt_wf_ind. intros y Hi.
  destruct (decide (i = 0)%nat) as [->|Hne].
  - rewrite H0 in Hi. injection Hi as <-. apply order_irrefl.
  - assert (Hp : (parent i < i)%nat) by (apply parent_lt; lia).
    destruct (h !! parent i) as [p|] eqn:E.
    + apply (order_trans x p y).
      * by apply (IH (parent i)).
      * apply (Hh i y p); [lia|done|done].
    + apply lookup_ge_None in E. apply lookup_lt_Some in Hi. lia.
Qed.

Lemma is_heap_take n h : is_heap lt h → is_heap lt (take n h).
Proof.
  intros Hh i x y Hi Hx Hy.
  apply lookup_take_Some in Hx as [Hx _].
  apply lookup_take_Some in Hy as [Hy _].
  by apply (Hh i).
Qed.

(** ** [_siftdown] *)

Lemma sifting_down_done newitem h pos :
  (pos < length h)%nat →
  sifting_down lt newitem h pos →
  pos = 0%nat ∨ (∃ pv, h !! parent pos = Some pv ∧ lt newitem pv = false) →
  is_heap lt (<[pos := newitem]> h).
Proof.
  intros Hpos (Ha & Hb & _) Hend i x y Hi Hx Hy.
  destruct (decide (i = pos)) as [->|Hne].
  - rewrite list_lookup_insert_eq in Hx by done. injection Hx as <-.
    rewrite list_lookup_insert_ne in Hy
      by (pose proof (parent_lt pos Hi); lia).
    destruct Hend as [->|(pv & Hpv & Hlt)]; [lia|].
    rewrite Hpv in Hy. by injection Hy as <-.
  - rewrite list_lookup_insert_ne in Hx by done.
    destruct (decide (parent i = pos)) as [Hp|Hp].
    + rewrite Hp, list_lookup_insert_eq in Hy by done. injection Hy as <-.
      by apply (Hb i).
    + rewrite list_lookup_insert_ne in Hy by done. by apply (Ha i).
Qed.

Lemma sifting_down_step newitem h pos pv :
  (0 < pos < length h)%nat →
  h !! parent pos = Some pv →
  lt newitem pv = true →
  sifting_down lt newitem h pos →
  sifting_down lt newitem (<[pos := pv]> h) (parent pos).
Proof.
  intros [H0 Hpos] Hpv Hlt (Ha & Hb & Hc).
  pose proof (parent_lt pos H0) as Hpp.
  assert (Hle : lt pv newitem = false) by by apply order_asym.
  split; [|split].
  - intros i x y Hi Hne Hx Hy.
    destruct (decide (i = pos)) as [->|Hip].
    + rewrite list_lookup_insert_eq in Hx by done. injection Hx as <-.
      rewrite list_lookup_insert_ne in Hy by lia.
      rewrite Hpv in Hy. injection Hy as <-. apply order_irrefl.
    + rewrite list_lookup_insert_ne in Hx by done.
      destruct (decide (parent i = pos)) as [Hp|Hp].
      * rewrite Hp, list_lookup_insert_eq in Hy by done. injection Hy as <-.
        by apply (Hc i x pv).
      * rewrite list_lookup_insert_ne in Hy by done. by apply (Ha i).
  - intros c x Hc0 Hcp Hx.
    destruct (decide (c = pos)) as [->|Hcne].
    + rewrite list_lookup_insert_eq in Hx by done. by injection Hx as <-.
    + rewrite list_lookup_insert_ne in Hx by done.
      apply (order_trans newitem pv x); [done|].
      apply (Ha c x pv); [done|done|done|]. by rewrite Hcp.
  - intros c x y Hc0 Hcp Hp0 Hx Hy.
    rewrite list_lookup_insert_ne in Hy
      by (pose proof (parent_lt (parent pos) Hp0); lia).
    assert (Hpvy : lt pv y = false).
    { apply (Ha (parent pos) pv y); [done|lia|done|done]. }
    destruct (decide (c = pos)) as [->|Hcne].
    + rewrite list_lookup_insert_eq in Hx by done. by injection Hx as <-.
    + rewrite list_lookup_insert_ne in Hx by done.
      apply (order_trans y pv x); [done|].
      apply (Ha c x pv); [done|done|done|]. by rewrite Hcp.
Qed.

Lemma _siftdown_loop_heap fuel newitem h pos :
  (pos < fuel)%nat → (pos < length h)%nat →
  sifting_down lt newitem h pos →
  is_heap lt (heapq._siftdown_loop lt fuel h newitem 0 pos).
Proof.
  revert h pos. induction fuel as [|fuel IH]; intros h pos Hf Hpos Hs; [lia|].
  cbn [heapq._siftdown_loop].
  destruct (Nat.ltb_spec 0 pos) as [H0|H0].
  - pose proof (parent_lt pos H0) as Hpp. fold (parent pos).
    destruct (h !! parent pos) as [pv|] eqn:Hpv;
      [|apply lookup_ge_None in Hpv; lia].
    rewrite (nth_lookup_Some _ _ _ _ Hpv).
    destruct (lt newitem pv) eqn:Hlt.
    + apply IH; [lia|rewrite length_insert; lia|].
      by apply sifting_down_step.
    + apply sifting_down_done; [done|done|]. right. by exists pv.
  - apply sifting_down_done; [done|done|]. left. lia.
Qed.

Lemma _siftdown_loop_Permutation fuel newitem h startpos pos :
  (pos < length h)%nat →
  heapq._siftdown_loop lt fuel h newitem startpos pos ≡ₚ <[pos := newitem]> h.
Proof.
  revert h pos. induction fuel as [|fuel IH]; intros h pos Hpos; [done|].
  cbn [heapq._siftdown_loop].
  destruct (Nat.ltb_spec startpos pos) as [H0|H0]; [|done].
  assert (Hp0 : (0 < pos)%nat) by lia.
  pose proof (parent_lt pos Hp0) as Hpp. fold (parent pos).
  destruct (h !! parent pos) as [pv|] eqn:Hpv;
    [|apply lookup_ge_None in Hpv; lia].
  rewrite (nth_lookup_Some _ _ _ _ Hpv).
  destruct (lt newitem pv); [|done].
  rewrite IH by (rewrite length_insert; lia).
  rewrite <- (list_insert_insert_eq h pos pv newitem).
  apply Permutation_insert_swap.
  - by apply list_lookup_insert_eq.
  - by rewrite list_lookup_insert_ne by lia.
Qed.

(** ** [heappush] *)

Lemma heappush_unfold heap item :
  heapq.heappush lt heap item
  = heapq._siftdown_loop lt (length (heap ++ [item])) (heap ++ [item]) item
      0 (length heap).
Proof.
  unfold heapq.heappush, heapq._siftdown.
  by rewrite lookup_app_r, Nat.sub_diag by lia.
Qed.

Lemma heappush_is_heap heap item :
  is_heap lt heap → is_heap lt (heapq.heappush lt heap item).
Proof.
  intros Hh. rewrite heappush_unfold.
  apply _siftdown_loop_heap; [rewrite length_app; cbn; lia..|].
  split; [|split].
  - intros i x y Hi Hne Hx Hy.
    assert (Hlt : (i < length heap)%nat).
    { apply lookup_lt_Some in Hx. rewrite length_app in Hx. cbn in Hx. lia. }
    pose proof (parent_lt i Hi) as Hp.
    rewrite lookup_app_l in Hx, Hy by lia. by apply (Hh i).
  - intros c x Hc Hp Hx. apply lookup_lt_Some in Hx.
    rewrite length_app in Hx. cbn in Hx.
    apply parent_child in Hp; lia.
  - intros c x y Hc Hp _ Hx. apply lookup_lt_Some in Hx.
    rewrite length_app in Hx. cbn in Hx.
    apply parent_child in Hp; lia.
Qed.

Lemma heappush_Permutation heap item :
  heapq.heappush lt heap item ≡ₚ item :: heap.
Proof.
  rewrite heappush_unfold.
  rewrite _siftdown_loop_Permutation by (rewrite length_app; cbn; lia).
  rewrite list_insert_id by (by rewrite lookup_app_r, Nat.sub_diag by lia).
  by rewrite Permutation_app_comm.
Qed.

(** ** [_siftup] *)

Lemma sifting_up_step h pos cp cv :
  (pos < length h)%nat → (0 < cp)%nat → parent cp = pos →
  h !! cp = Some cv →
  (∀ s sv, (0 < s)%nat → parent s = pos → h !! s = Some sv →
     lt sv cv = false) →
  sifting_up lt h pos → sifting_up lt (<[pos := cv]> h) cp.
Proof.
  intros Hpos Hcp0 Hcp Hcv Hmin (Ha & Hb).
  pose proof (parent_lt cp Hcp0) as Hlt. rewrite Hcp in Hlt.
  split.
  - intros i x y Hi Hne Hx Hy.
    pose proof (parent_lt i Hi) as Hpi.
    destruct (decide (parent i = pos)) as [Hp|Hp].
    + rewrite Hp, list_lookup_insert_eq in Hy by done. injection Hy as <-.
      rewrite list_lookup_insert_ne in Hx by lia. by apply (Hmin i).
    + rewrite list_lookup_insert_ne in Hy by done.
      destruct (decide (i = pos)) as [->|Hip].
      * rewrite list_lookup_insert_eq in Hx by done. injection Hx as <-.
        by apply (Hb cp cv y).
      * rewrite list_lookup_insert_ne in Hx by done. by apply (Ha i).
  - intros c x y Hc0 Hc _ Hx Hy.
    pose proof (parent_lt c Hc0) as Hpc.
    rewrite Hcp, list_lookup_insert_eq in Hy by done. injection Hy as <-.
    rewrite list_lookup_insert_ne in Hx by lia.
    apply (Ha c x cv); [done|lia|done|]. by rewrite Hc.
Qed.

(** The loop of [_siftup] ends on a leaf, with the invariant kept and
    the items kept. *)
Lemma _siftup_loop_spec fuel newitem h endpos pos :
  endpos = length h →
  (pos < length h)%nat → (length h - pos <= fuel)%nat →
  sifting_up lt h pos →
  let r := heapq._siftup_loop lt fuel h newitem endpos pos (2 * pos + 1) in
  (r.2 < length r.1)%nat
  ∧ (length r.1 <= 2 * r.2 + 1)%nat
  ∧ sifting_up lt r.1 r.2
  ∧ <[r.2 := newitem]> r.1 ≡ₚ <[pos := newitem]> h.
Proof.
  revert h pos. induction fuel as [|fuel IH]; intros h pos -> Hpos Hf Hs;
    [lia|].
  cbn zeta. cbn [heapq._siftup_loop].
  destruct (Nat.ltb_spec (2 * pos + 1) (length h)) as [Hl|Hl];
    [|cbn [fst snd]; split; [done|]; split; [lia|]; by split].
  destruct (h !! (2 * pos + 1)%nat) as [lv|] eqn:Hlv;
    [|apply lookup_ge_None in Hlv; lia].
  assert (Hstep : ∀ cp cv,
    (cp = 2 * pos + 1 ∨ cp = 2 * pos + 2)%nat → h !! cp = Some cv →
    (∀ s sv, (0 < s)%nat → parent s = pos → h !! s = Some sv →
       lt sv cv = false) →
    let r := heapq._siftup_loop lt fuel (<[pos := cv]> h) newitem (length h)
               cp (2 * cp + 1) in
    (r.2 < length r.1)%nat
    ∧ (length r.1 <= 2 * r.2 + 1)%nat
    ∧ sifting_up lt r.1 r.2
    ∧ <[r.2 := newitem]> r.1 ≡ₚ <[pos := newitem]> h).
  { intros cp cv Hcp Hcv Hmin.
    assert (Hcl : (cp < length h)%nat) by by apply lookup_lt_Some in Hcv.
    assert (Hpc : parent cp = pos) by (apply parent_child; lia).
    destruct (IH (<[pos := cv]> h) cp) as (H1 & H2 & H3 & H4).
    - by rewrite length_insert.
    - rewrite length_insert. lia.
    - rewrite length_insert. lia.
    - apply sifting_up_step; [done|lia|done|done|done|done].
    - cbn zeta. split; [done|]. split; [done|]. split; [done|].
      rewrite H4.
      rewrite <- (list_insert_insert_eq h pos cv newitem).
      apply Permutation_insert_swap.
      + by apply list_lookup_insert_eq.
      + by rewrite list_lookup_insert_ne by lia. }
  rewrite (nth_lookup_Some _ _ _ _ Hlv).
  destruct (Nat.ltb_spec (2 * pos + 1 + 1) (length h)) as [Hr|Hr];
    cbn [andb].
  - destruct (h !! (2 * pos + 1 + 1)%nat) as [rv|] eqn:Hrv;
      [|apply lookup_ge_None in Hrv; lia].
    rewrite (nth_lookup_Some _ _ _ _ Hrv).
    destruct (lt lv rv) eqn:Hlt; cbn [negb].
    + rewrite (nth_lookup_Some _ _ _ _ Hlv).
      apply Hstep; [lia|done|]. intros s sv Hs0 Hsp Hsv.
      apply parent_child in Hsp as [->| ->]; [| |done].
      * rewrite Hlv in Hsv. injection Hsv as <-. apply order_irrefl.
      * replace (2 * pos + 2)%nat with (2 * pos + 1 + 1)%nat in Hsv by lia.
        rewrite Hrv in Hsv. injection Hsv as <-. by apply order_asym.
    + rewrite (nth_lookup_Some _ _ _ _ Hrv).
      apply Hstep; [lia|done|]. intros s sv Hs0 Hsp Hsv.
      apply parent_child in Hsp as [->| ->]; [| |done].
      * rewrite Hlv in Hsv. by injection Hsv as <-.
      * replace (2 * pos + 2)%nat with (2 * pos + 1 + 1)%nat in Hsv by lia.
        rewrite Hrv in Hsv. injection Hsv as <-. apply order_irrefl.
  - rewrite (nth_lookup_Some _ _ _ _ Hlv).
    apply Hstep; [lia|done|]. intros s sv Hs0 Hsp Hsv.
    apply parent_child in Hsp as [->| ->]; [| |done].
    + rewrite Hlv in Hsv. injection Hsv as <-. apply order_irrefl.
    + apply lookup_lt_Some in Hsv. lia.
Qed.

Lemma _siftup_root h :
  h ≠ [] → sifting_up lt h 0 →
  is_heap lt (heapq._siftup lt h 0) ∧ heapq._siftup lt h 0 ≡ₚ h.
Proof.
  intros Hne Hs. unfold heapq._siftup.
  destruct h as [|newitem h0] eqn:Eh; [done|]. rewrite <- Eh in *.
  assert (H0 : h !! 0%nat = Some newitem) by by rewrite Eh.
  rewrite H0.
  assert (Hlen : (0 < length h)%nat) by (rewrite Eh; cbn; lia).
  destruct (_siftup_loop_spec (length h) newitem h (length h) 0 eq_refl
              Hlen ltac:(lia) Hs) as (H1 & H2 & (Ha & Hb) & H4).
  cbn zeta in *.
  destruct (heapq._siftup_loop lt (length h) h newitem (length h) 0
              (2 * 0 + 1)) as [h' pos']. cbn [fst snd] in *.
  unfold heapq._siftdown. rewrite list_lookup_insert_eq by done.
  split.
  - apply _siftdown_loop_heap; [rewrite length_insert; lia..|].
    split; [|split].
    + intros i x y Hi Hip Hx Hy.
      rewrite list_lookup_insert_ne in Hx by done.
      assert (Hp : parent i ≠ pos').
      { intros Hp. apply lookup_lt_Some in Hx.
        apply parent_child in Hp; lia. }
      rewrite list_lookup_insert_ne in Hy by done. by apply (Ha i).
    + intros c x Hc Hp Hx. apply lookup_lt_Some in Hx.
      rewrite length_insert in Hx. apply parent_child in Hp; lia.
    + intros c x y Hc Hp _ Hx. apply lookup_lt_Some in Hx.
      rewrite length_insert in Hx. apply parent_child in Hp; lia.
  - rewrite _siftdown_loop_Permutation by (rewrite length_insert; lia).
    rewrite list_insert_insert_eq, H4. by rewrite list_insert_id.
Qed.

(** ** [heappop] *)

(** [heappop] takes the root off a heap: what it returns is below no
    item of the heap, and what it leaves is a heap of the other
    items. *)
Lemma heappop_spec heap x h' :
  is_heap lt heap → heapq.heappop lt heap = Some (x, h') →
  is_heap lt h' ∧ x :: h' ≡ₚ heap ∧ ∀ y, y ∈ heap → lt y x = false.
Proof.
  intros Hh. unfold heapq.heappop.
  destruct (last heap) as [lastelt|] eqn:Hlast; [|done].
  apply last_Some in Hlast as [l' ->]. rewrite removelast_last.
  destruct l' as [|returnitem rest].
  - intros [= <- <-]. split; [apply is_heap_nil|]. split; [done|].
    intros y Hy. apply list_elem_of_singleton in Hy as ->.
    apply order_irrefl.
  - intros [= <- <-].
    destruct (_siftup_root (lastelt :: rest)) as [H1 H2]; [done| |].
    + split; [|intros c x0 y _ _ Hlt; lia].
      intros i x0 y Hi Hp Hx Hy.
      pose proof (parent_lt i Hi) as Hpi.
      destruct i as [|i]; [lia|].
      destruct (parent (S i)) as [|p] eqn:Ep; [done|].
      cbn in Hx, Hy. apply (Hh (S i) x0 y); [lia| |].
      * cbn. apply lookup_app_l_Some. exact Hx.
      * rewrite Ep. cbn. apply lookup_app_l_Some. exact Hy.
    + split; [done|]. split.
      * rewrite H2. cbn. f_equal.
        by rewrite Permutation_app_comm.
      * by apply is_heap_root.
Qed.

End Heap.

(** ** The order of Python's pairs of an integer and a string *)

Lemma Ascii_compare_refl a : Ascii.compare a a = Eq.
Proof. unfold Ascii.compare. apply N.compare_refl. Qed.

Lemma Ascii_compare_Lt_trans a b c :
  Ascii.compare a b = Lt → Ascii.compare b c = Lt → Ascii.compare a c = Lt.
Proof.
  unfold Ascii.compare. rewrite !N.compare_lt_iff. apply N.lt_trans.
Qed.

Lemma String_compare_refl s : String.compare s s = Eq.
Proof.
  induction s as [|a s IH]; [done|]. cbn. by rewrite Ascii_compare_refl.
Qed.

Lemma String_compare_Lt_trans s1 s2 s3 :
  String.compare s1 s2 = Lt → String.compare s2 s3 = Lt →
  String.compare s1 s3 = Lt.
Proof.
  revert s2 s3. induction s1 as [|a s1 IH]; intros [|b s2] [|c s3]; cbn;
    try done.
  destruct (Ascii.compare a b) eqn:Eab; [|intros _|done].
  - apply Ascii.compare_eq_iff in Eab as ->.
    destruct (Ascii.compare b c) eqn:Ebc; [|done|done]. apply IH.
  - destruct (Ascii.compare b c) eqn:Ebc; [|intros _|done].
    + apply Ascii.compare_eq_iff in Ebc as ->. by rewrite Eab.
    + by rewrite (Ascii_compare_Lt_trans a b c).
Qed.

Lemma String_ltb_asym s1 s2 :
  String.ltb s1 s2 = true → String.ltb s2 s1 = false.
Proof.
  unfold String.ltb. rewrite (String.compare_antisym s2 s1).
  by destruct (String.compare s1 s2).
Qed.

Lemma String_ltb_trans s1 s2 s3 :
  String.ltb s2 s1 = false → String.ltb s3 s2 = false →
  String.ltb s3 s1 = false.
Proof.
  unfold String.ltb. intros H1 H2.
  destruct (String.compare s3 s1) eqn:E31; [done| |done]. exfalso.
  destruct (String.compare s3 s2) eqn:E32; [|done|].
  - apply String.compare_eq_iff in E32. subst s3. by rewrite E31 in H1.
  - assert (E23 : String.compare s2 s3 = Lt).
    { rewrite String.compare_antisym. by rewrite E32. }
    by rewrite (String_compare_Lt_trans s2 s3 s1 E23 E31) in H1.
Qed.

(** Python's [<] on tuples of an integer and a string is an order heapq
    can work with. *)
Lemma pair_lt_order : StrictWeakOrder pair_lt.
Proof.
  split.
  - intros [a s] [b t]. unfold pair_lt. cbn [fst snd].
    destruct (Z.ltb_spec a b), (Z.ltb_spec b a), (Z.eqb_spec a b),
      (Z.eqb_spec b a); cbn; try lia; try done.
    apply String_ltb_asym.
  - intros [a s] [b t] [c u]. unfold pair_lt. cbn [fst snd].
    destruct (Z.ltb_spec b a), (Z.ltb_spec c b), (Z.ltb_spec c a),
      (Z.eqb_spec b a), (Z.eqb_spec c b), (Z.eqb_spec c a);
      cbn; try lia; try done.
    apply String_ltb_trans.
Qed.

(** ** The storage of a queue under the calls *)

Section Storage.
Context {A : Type} {M : Queue.Methods A}.
Implicit Types (w : World A) (self : Queue.t A) (item : A).
Variable P : list A → Prop.
Hypothesis P_put : ∀ item q, P q → P (Queue._put item q).
Hypothesis P_get : ∀ q x q', P q → Queue._get q = Some (x, q') → P q'.

Lemma storage_put_nowait item self w :
  P (Queue._queue self) →
  P (Queue._queue (fst (state_of (Queue.put_nowait item self w)))).
Proof.
  intros H. unfold Queue.put_nowait.
  destruct (Queue._getters (Queue._consume_expired self w)) as [|g gs].
  - destruct (Queue.full _); [done|].
    rewrite __put_internal_eq. cbn. by apply P_put.
  - destruct (Queue.empty _); [|done].
    rewrite __put_internal_eq. cbn [Queue._queue].
    destruct (Queue._get _) as [[x q]|] eqn:E; cbn.
    + eapply P_get; [|exact E]. by apply P_put.
    + by apply P_put.
Qed.

Lemma storage_get_nowait self w :
  P (Queue._queue self) →
  P (Queue._queue (fst (state_of (Queue.get_nowait self w)))).
Proof.
  intros H. unfold Queue.get_nowait.
  destruct (Queue._putters (Queue._consume_expired self w)) as [|[i p] ps].
  - destruct (negb _); [|done].
    destruct (Queue._get _) as [[x q]|] eqn:E; cbn; [|done].
    eapply P_get; [|exact E]. done.
  - destruct (Queue.full _); [|done].
    rewrite __put_internal_eq. cbn [Queue._queue].
    destruct (Queue._get _) as [[x q]|] eqn:E; cbn.
    + eapply P_get; [|exact E]. by apply P_put.
    + by apply P_put.
Qed.

Lemma storage_queue_step c (s : Queue.t A * World A) :
  P (Queue._queue (fst s)) → P (Queue._queue (fst (queue_step c s))).
Proof.
  destruct s as [self w]. cbn [fst snd]. intros H.
  destruct c; cbn [queue_step fst snd].
  - unfold Queue.put.
    pose proof (storage_put_nowait item self w H) as H'.
    destruct (Queue.put_nowait item self w) as [[] [s1 w1]|e [s1 w1]];
      cbn [state_of fst] in *; [done|].
    by destruct e.
  - unfold Queue.get. cbn [Future_new].
    pose proof (storage_get_nowait self (snd (Future_new w)) H) as H'.
    cbn [Future_new snd] in H'.
    destruct (Queue.get_nowait self _) as [x [s1 w1]|e [s1 w1]];
      cbn [state_of fst] in *; [done|].
    by destruct e.
  - by apply storage_put_nowait.
  - by apply storage_get_nowait.
  - unfold Queue.task_done. destruct (_ <=? 0); [done|].
    by destruct (_ =? 0).
  - unfold Queue.fire. by destruct (take_timeout h w) as [[f w1]|].
Qed.

Lemma storage_queue_run cs (s : Queue.t A * World A) :
  P (Queue._queue (fst s)) → P (Queue._queue (fst (queue_run cs s))).
Proof.
  revert s. induction cs as [|c cs IH]; intros s H; [done|].
  unfold queue_run in *. cbn [foldl]. by apply IH, storage_queue_step.
Qed.

End Storage.

Section Served.
Context {A : Type} {M : Queue.Methods A}.
Implicit Types (w : World A) (self : Queue.t A) (item : A).

(** What [get_nowait] returns comes out of the storage, with the item of
    a waiting putter added first. *)
Lemma get_nowait_served self w x s' :
  Queue.get_nowait self w = Return x s' →
  (∃ q', Queue._get (Queue._queue self) = Some (x, q'))
  ∨ (∃ item q',
       Queue._get (Queue._put item (Queue._queue self)) = Some (x, q')).
Proof.
  unfold Queue.get_nowait.
  destruct (Queue._putters (Queue._consume_expired self w)) as [|[i p] ps].
  - destruct (negb _); [|done]. cbn [Queue._consume_expired Queue._queue].
    destruct (Queue._get _) as [[y q]|] eqn:E; [|done].
    intros [= <- <-]. left. by exists q.
  - destruct (Queue.full _); [|done].
    rewrite __put_internal_eq.
    cbn [Queue._consume_expired Queue._queue].
    destruct (Queue._get _) as [[y q]|] eqn:E; [|done].
    intros [= <- <-]. right. by exists i, q.
Qed.

(** The future that [get] resolves holds what [get_nowait] returned. *)
Lemma get_served timeout self w f s' x :
  queue_wf self w →
  Queue.get timeout self w = Return f s' →
  outcome_of f (snd s') = Some (Result (VItem x)) →
  ∃ s1, Queue.get_nowait self (snd (Future_new w)) = Return x s1.
Proof.
  intros Hwf. unfold Queue.get. cbn [Future_new].
  pose proof (get_nowait_world self (snd (Future_new w))) as Hw.
  pose proof (get_nowait_QueueEmpty_world self (snd (Future_new w))) as He.
  cbn zeta in Hw. cbn [Future_new snd] in Hw, He.
  destruct (Queue.get_nowait self _) as [y [s1 w1]|e [s1 w1]];
    cbn [state_of fst snd] in *.
  - intros [= <- <-]. cbn [snd]. intros Ho.
    assert (Hp : pending w1 (length (futures w))).
    { destruct Hw as [(_ & _ & ->)|(_ & _ & p & Hin & ->)].
      - apply (pending_Future_new w).
      - destruct Hwf as (_ & Hfv & _ & Hpv & _).
        assert (Hne : length (futures w) ≠ p).
        { pose proof (proj1 (Forall_forall _ _) Hpv p Hin) as Hv.
          unfold valid in Hv. lia. }
        destruct (pending_Future_new w) as [Hv Hn].
        split.
        + unfold set_result. apply valid_resolve. unfold valid in *.
          pose proof (Event_clear_length (Queue._finished self)
                        (snd (Future_new w))). cbn [Future_new snd] in *. lia.
        + unfold set_result. rewrite outcome_of_resolve_ne by done.
          rewrite Event_clear_outcome. exact Hn. }
    unfold set_result in Ho. rewrite outcome_of_resolve_pending in Ho by done.
    injection Ho as <-. by eexists.
  - destruct e; try done. intros [= <- <-]. cbn [snd].
    specialize (He _ eq_refl). cbn [snd] in He. subst w1.
    rewrite outcome_of__set_timeout.
    destruct (pending_Future_new w) as [_ Hn]. cbn [Future_new snd] in Hn.
    by rewrite Hn.
Qed.

End Served.

Section PriorityOrder.
Context {A : Type} (lt : A → A → bool) {O : StrictWeakOrder lt}.
Implicit Types (w : World A) (item x y : A) (q h items : list A).

Lemma stored_heap items q :
  is_heap lt q →
  is_heap lt (stored (M:=PriorityQueue.methods lt) items q)
  ∧ stored (M:=PriorityQueue.methods lt) items q ≡ₚ q ++ items.
Proof.
  revert q. induction items as [|item items IH]; intros q Hq.
  - cbn. by rewrite app_nil_r.
  - cbn [stored foldl]. cbn [Queue._put PriorityQueue.methods].
    destruct (IH (heapq.heappush lt q item)) as [H1 H2].
    { by apply heappush_is_heap. }
    unfold stored in *. split; [done|].
    rewrite H2, (heappush_Permutation lt q item).
    by rewrite <- Permutation_middle.
Qed.

Lemma drain_heap n h :
  is_heap lt h → length h = n →
  drain (M:=PriorityQueue.methods lt) n h ≡ₚ h
  ∧ ascending lt (drain (M:=PriorityQueue.methods lt) n h).
Proof.
  revert h. induction n as [|n IH]; intros h Hh Hn.
  - destruct h; [|done]. split; [done|constructor].
  - cbn [drain Queue._get PriorityQueue.methods].
    destruct (heapq.heappop lt h) as [[x h']|] eqn:E.
    + destruct (heappop_spec lt h x h' Hh E) as (Hh' & Hperm & Hmin).
      destruct (IH h' Hh') as [H1 H2].
      { apply heappop_length in E. lia. }
      split; [by rewrite H1|].
      constructor; [done|]. apply Forall_forall. intros y Hy.
      apply Hmin. rewrite <- Hperm. right. by rewrite <- H1.
    + exfalso. apply (heappop_nonempty lt h); [by destruct h|done].
Qed.

(** X19: a [PriorityQueue] retrieves its entries lowest first, for any
    items whose [<] is an order: after [put] of each item of a list on a
    new queue with room for them, as many [get] calls return the same
    items (a permutation of the list) in ascending order. *)
Theorem X19_priority_queue_sorts maxsize items :
  maxsize = 0 ∨ Z.of_nat (length items) <= maxsize →
  ∃ out,
    put_then_get (PriorityQueue.methods lt) maxsize items
    = Some (fmap got out)
    ∧ out ≡ₚ items
    ∧ ascending lt out.
Proof.
  intros Hroom.
  exists (drain (M:=PriorityQueue.methods lt) (length items)
            (stored (M:=PriorityQueue.methods lt) items [])).
  destruct (stored_heap items []) as [H1 H2]; [apply is_heap_nil|].
  destruct (drain_heap (length items)
              (stored (M:=PriorityQueue.methods lt) items []) H1) as [H3 H4].
  { by rewrite H2. }
  split; [|split; [by rewrite H3, H2|done]].
  by rewrite (put_then_get_drain (L:=PriorityQueue_methods_laws lt)).
Qed.

(** X20: a [PriorityQueue] always serves a least entry.  In every state
    reached from the constructor the storage is a heap, what
    [get_nowait] returns is below no item of the storage, and so is the
    item in the future that [get] returns resolved. *)
Theorem X20_priority_queue_serves_a_least_item maxsize w self0 w0 cs :
  Queue.__init__ (M:=PriorityQueue.methods lt) maxsize w = Return self0 w0 →
  let q := fst (queue_run (M:=PriorityQueue.methods lt) cs (self0, w0)) in
  let w1 := snd (queue_run (M:=PriorityQueue.methods lt) cs (self0, w0)) in
  is_heap lt (Queue._queue q)
  ∧ (∀ x s', Queue.get_nowait (M:=PriorityQueue.methods lt) q w1
             = Return x s' →
       ∀ y, y ∈ Queue._queue q → lt y x = false)
  ∧ (∀ timeout f s' x,
       Queue.get (M:=PriorityQueue.methods lt) timeout q w1 = Return f s' →
       outcome_of f (snd s') = Some (Result (VItem x)) →
       ∀ y, y ∈ Queue._queue q → lt y x = false).
Proof.
  intros Hinit q w1.
  assert (Hheap : is_heap lt (Queue._queue q)).
  { apply (storage_queue_run (M:=PriorityQueue.methods lt) (is_heap lt)).
    - intros item h Hh. by apply heappush_is_heap.
    - intros h x h' Hh E. by destruct (heappop_spec lt h x h' Hh E).
    - unfold Queue.__init__ in Hinit. destruct maxsize as [m|]; [|done].
      destruct (m <? 0); [done|].
      destruct (Event.__init__ w) as [fin w']. injection Hinit as <- _.
      apply is_heap_nil. }
  assert (Hserved : ∀ w' x s',
    Queue.get_nowait (M:=PriorityQueue.methods lt) q w' = Return x s' →
    ∀ y, y ∈ Queue._queue q → lt y x = false).
  { intros w' x s' E y Hy.
    destruct (get_nowait_served (M:=PriorityQueue.methods lt) q w' x s' E)
      as [[h' E']|(item & h' & E')];
      cbn [Queue._get Queue._put PriorityQueue.methods] in E'.
    - destruct (heappop_spec lt _ x h' Hheap E') as (_ & _ & Hmin).
      by apply Hmin.
    - destruct (heappop_spec lt _ x h'
                  (heappush_is_heap lt _ item Hheap) E') as (_ & _ & Hmin).
      apply Hmin. rewrite (heappush_Permutation lt). by right. }
  split; [done|]. split; [by apply Hserved|].
  intros timeout f s' x E Ho.
  pose proof (queue_wf_run (M:=PriorityQueue.methods lt) cs (self0, w0)
                (queue_wf___init__ _ _ _ _ Hinit)) as Hwf.
  fold q w1 in Hwf.
  destruct (get_served (M:=PriorityQueue.methods lt) timeout q w1 f s' x
              Hwf E Ho) as [s1 E1].
  by apply (Hserved (snd (Future_new w1)) x s1).
Qed.

End PriorityOrder.

Lemma X19_priority_queue_sorts_witness :
  ∃ out,
    put_then_get (PriorityQueue.methods pair_lt) 0
      [(1, "a"%string); (0, "b"%string); (2, "c"%string); (0, "a"%string)]
    = Some (fmap got out)
    ∧ out ≡ₚ [(1, "a"%string); (0, "b"%string); (2, "c"%string);
              (0, "a"%string)]
    ∧ ascending pair_lt out.
Proof.
  apply (X19_priority_queue_sorts pair_lt (O:=pair_lt_order) 0
           [(1, "a"%string); (0, "b"%string); (2, "c"%string);
            (0, "a"%string)]).
  by left.
Defined.

Lemma X20_priority_queue_serves_a_least_item_witness :
  is_heap pair_lt (Queue._queue (fst full_priority_queue)).
Proof.
  apply (X20_priority_queue_serves_a_least_item pair_lt (O:=pair_lt_order)
           (Some 1) World_empty
           (fst (new_queue (PriorityQueue.methods pair_lt) 1))
           (snd (new_queue (PriorityQueue.methods pair_lt) 1))
           [QPutNowait (0, "b"%string); QPut (5, "z"%string) TNone]).
  reflexivity.
Defined.


(** * No waiter of a queue is lost *)

Section QueueTracked.
Context {A : Type} {M : Queue.Methods A} {L : MethodsLaws M}.
Implicit Types (w : World A) (self : Queue.t A) (item : A) (f g b : nat).

(** A call that makes no future keeps track of every waiter if it
    resolves the ones it drops. *)
Lemma queue_tracked_weaken b extra extra' self w self' w' :
  queue_tracked b extra self w →
  length (futures w') = length (futures w) →
  (∀ f, done f w' = false → done f w = false) →
  (∀ f, done f w' = false →
     f ∈ extra
     ∨ f = Event._future (Queue._finished self)
     ∨ f ∈ Queue._getters self
     ∨ f ∈ (snd <$> Queue._putters self) →
     f ∈ extra'
     ∨ f = Event._future (Queue._finished self')
     ∨ f ∈ Queue._getters self'
     ∨ f ∈ (snd <$> Queue._putters self')) →
  queue_tracked b extra' self' w'.
Proof.
  intros H Hlen Hd Hin f Hf Hp. rewrite Hlen in Hf.
  apply Hin; [done|]. apply H; [done|]. by apply Hd.
Qed.

Lemma expired_getters_keeps w getters f :
  f ∈ getters → done f w = false → f ∈ Queue.expired_getters w getters.
Proof.
  destruct (expired_getters_split w getters) as (stale & Heq & Hs).
  intros Hin Hd. rewrite Heq in Hin.
  apply elem_of_app in Hin as [Hin|Hin]; [|done].
  rewrite (proj1 (Forall_forall _ _) Hs f Hin) in Hd. done.
Qed.

Lemma expired_putters_keeps w (putters : list (A * nat)) f :
  f ∈ (snd <$> putters) → done f w = false →
  f ∈ (snd <$> Queue.expired_putters w putters).
Proof.
  destruct (expired_putters_split w putters) as (stale & Heq & Hs).
  intros Hin Hd. rewrite Heq, fmap_app in Hin.
  apply elem_of_app in Hin as [Hin|Hin]; [|done].
  apply list_elem_of_fmap in Hin as (p & -> & Hp).
  rewrite (proj1 (Forall_forall _ _) Hs p Hp) in Hd. done.
Qed.

Lemma queue_tracked__consume_expired b extra self w :
  queue_tracked b extra self w →
  queue_tracked b extra (Queue._consume_expired self w) w.
Proof.
  intros H. apply (queue_tracked_weaken b extra extra self w); [done..|].
  intros f Hd [Hin|[Hin|[Hin|Hin]]]; [by left|by right; left| |].
  - right; right; left. by apply expired_getters_keeps.
  - right; right; right. by apply expired_putters_keeps.
Qed.

Lemma queue_tracked___put_internal b extra item self w :
  queue_tracked b extra self w →
  queue_tracked b extra (fst (Queue.__put_internal item self w))
    (snd (Queue.__put_internal item self w)).
Proof.
  intros H. rewrite __put_internal_eq. cbn [fst snd].
  destruct (done (Event._future (Queue._finished self)) w) eqn:Hd.
  - rewrite Event_clear_done by done. cbn [fst snd].
    intros f. rewrite length_futures_Future_new, done_Future_new.
    cbn [Queue._finished Queue._getters Queue._putters Event._future].
    intros Hf Hp.
    destruct (decide (f = length (futures w))) as [->|Hne];
      [by right; left|].
    destruct (H f ltac:(lia) Hp) as [Hin|[->|Hin]]; [by left| |by right; right].
    by rewrite Hd in Hp.
  - rewrite Event_clear_not_done by done. exact H.
Qed.

Lemma queue_tracked_put_nowait b extra item self w :
  queue_wf self w →
  queue_tracked b extra self w →
  queue_tracked b extra (fst (state_of (Queue.put_nowait item self w)))
    (snd (state_of (Queue.put_nowait item self w))).
Proof.
  intros Hwf H.
  pose proof (queue_tracked__consume_expired b extra self w H) as H1.
  pose proof (queue_wf__consume_expired self w Hwf) as Hwf1.
  unfold Queue.put_nowait.
  destruct (Queue._getters (Queue._consume_expired self w))
    as [|g gs] eqn:Hg.
  - destruct (Queue.full _); [done|].
    by apply queue_tracked___put_internal.
  - destruct (Queue.empty _); [|done].
    pose proof (queue_tracked___put_internal b extra item _ w H1) as H2.
    rewrite __put_internal_eq in *. cbn [fst snd] in H2.
    cbn [Queue._maxsize Queue._queue Queue._getters Queue._putters
         Queue._unfinished_tasks Queue._finished] in *.
    destruct (_get__put item (Queue._queue (Queue._consume_expired self w)))
      as (x & q' & -> & _).
    cbn [state_of fst snd]. rewrite Hg in H2.
    assert (Hv : valid (snd (Event.clear
                               (Queue._finished (Queue._consume_expired self w))
                               w)) g).
    { destruct Hwf1 as (_ & _ & Hgv & _). rewrite Hg in Hgv.
      apply Forall_cons in Hgv as [Hv _]. unfold valid in *.
      pose proof (Event_clear_length
                    (Queue._finished (Queue._consume_expired self w)) w). lia. }
    eapply queue_tracked_weaken; [exact H2| | |].
    + unfold set_result. apply length_futures_resolve.
    + intros f. unfold set_result. apply done_resolve_back.
    + cbn [Queue.with_queue Queue._finished Queue._getters Queue._putters].
      intros f Hd [Hin|[Hin|[Hin|Hin]]];
        [by left|by right; left| |by right; right; right].
      apply elem_of_cons in Hin as [->|Hin]; [|by right; right; left].
      unfold set_result in Hd. by rewrite done_resolve_self in Hd.
Qed.

Lemma queue_tracked_get_nowait b extra self w :
  queue_wf self w →
  queue_tracked b extra self w →
  queue_tracked b extra (fst (state_of (Queue.get_nowait self w)))
    (snd (state_of (Queue.get_nowait self w))).
Proof.
  intros Hwf H.
  pose proof (queue_tracked__consume_expired b extra self w H) as H1.
  pose proof (queue_wf__consume_expired self w Hwf) as Hwf1.
  unfold Queue.get_nowait.
  destruct (Queue._putters (Queue._consume_expired self w))
    as [|[i p] ps] eqn:Hp.
  - destruct (negb _); [|done].
    destruct (Queue._get _) as [[x q']|]; [|done].
    cbn [state_of fst snd]. intros f Hf Hd. by apply H1.
  - destruct (Queue.full _); [|done].
    pose proof (queue_tracked___put_internal b extra i _ w H1) as H2.
    rewrite __put_internal_eq in *. cbn [fst snd] in H2.
    cbn [Queue._maxsize Queue._queue Queue._getters Queue._putters
         Queue._unfinished_tasks Queue._finished] in *.
    destruct (_get__put i (Queue._queue (Queue._consume_expired self w)))
      as (x & q' & -> & _).
    cbn [state_of fst snd]. rewrite Hp in H2.
    assert (Hv : valid (snd (Event.clear
                               (Queue._finished (Queue._consume_expired self w))
                               w)) p).
    { destruct Hwf1 as (_ & _ & _ & Hpv & _). rewrite Hp in Hpv.
      cbn in Hpv. apply Forall_cons in Hpv as [Hv _]. unfold valid in *.
      pose proof (Event_clear_length
                    (Queue._finished (Queue._consume_expired self w)) w). lia. }
    eapply queue_tracked_weaken; [exact H2| | |].
    + unfold set_result. apply length_futures_resolve.
    + intros f. unfold set_result. apply done_resolve_back.
    + cbn [Queue.with_queue Queue._finished Queue._getters Queue._putters].
      intros f Hd [Hin|[Hin|[Hin|Hin]]];
        [by left|by right; left|by right; right; left|].
      cbn in Hin. apply elem_of_cons in Hin as [->|Hin];
        [|by right; right; right].
      unfold set_result in Hd. by rewrite done_resolve_self in Hd.
Qed.

Lemma queue_tracked_step b c (s : Queue.t A * World A) :
  queue_wf (fst s) (snd s) →
  queue_inv (fst s) →
  queue_tracked b [] (fst s) (snd s) →
  queue_tracked b [] (fst (queue_step c s)) (snd (queue_step c s)).
Proof.
  destruct s as [self w]. cbn [fst snd]. intros Hwf Hinv H.
  destruct c as [item t|t|item| | |h]; cbn [queue_step fst snd].
  - unfold Queue.put.
    pose proof (queue_tracked_put_nowait b [] item self w Hwf H) as H1.
    destruct (Queue.put_nowait item self w) as [[] [s1 w1]|e [s1 w1]];
      cbn [state_of fst snd] in *; [done|].
    destruct e; try done. cbn [Future_new state_of fst snd].
    intros f. rewrite length_futures__set_timeout, done__set_timeout.
    cbn [futures Queue._finished Queue._getters Queue._putters].
    rewrite length_app. cbn [length]. intros Hf Hd.
    rewrite fmap_app. cbn [fmap list_fmap snd].
    destruct (decide (f = length (futures w1))) as [->|Hne].
    + right; right; right. apply elem_of_app. right. by left.
    + assert (Hd1 : done f w1 = false).
      { rewrite <- (done_Future_new w1 f). exact Hd. }
      destruct (H1 f ltac:(lia) Hd1) as [Hin|[Hin|[Hin|Hin]]];
        [by left|by right; left|by right; right; left|].
      right; right; right. apply elem_of_app. by left.
  - unfold Queue.get. cbn [Future_new].
    assert (H0 : queue_tracked b [length (futures w)] self
                   (snd (Future_new w))).
    { intros f. rewrite length_futures_Future_new, done_Future_new.
      intros Hf Hd.
      destruct (decide (f = length (futures w))) as [->|Hne];
        [left; by left|].
      destruct (H f ltac:(lia) Hd) as [Hin|Hin]; [|by right].
      by apply elem_of_nil in Hin. }
    assert (Hwf0 : queue_wf self (snd (Future_new w))).
    { eapply queue_wf_grow; [|exact Hwf].
      rewrite length_futures_Future_new. lia. }
    pose proof (queue_tracked_get_nowait b _ self _ Hwf0 H0) as H1.
    pose proof (extends_get_nowait self (snd (Future_new w))) as (Hlen & _).
    rewrite length_futures_Future_new in Hlen.
    cbn [Future_new snd] in H1, Hlen.
    destruct (get_nowait_cases self (snd (Future_new w)) Hinv)
      as [(x & [s1 w1] & E & _)|(E & _ & _)];
      cbn [Future_new snd] in E; rewrite E in *;
      cbn [state_of fst snd] in *.
    + eapply queue_tracked_weaken; [exact H1| | |].
      * unfold set_result. apply length_futures_resolve.
      * intros f. unfold set_result. apply done_resolve_back.
      * intros f Hd [Hin|Hin]; [|by right].
        apply list_elem_of_singleton in Hin as ->.
        unfold set_result in Hd. rewrite done_resolve_self in Hd; [done|].
        unfold valid. lia.
    + intros f. rewrite length_futures__set_timeout, done__set_timeout.
      cbn [Queue._finished Queue._getters Queue._putters].
      intros Hf Hd.
      destruct (H1 f Hf Hd) as [Hin|[Hin|[Hin|Hin]]];
        [|by right; left| |by right; right; right].
      * apply list_elem_of_singleton in Hin as ->.
        right; right; left. apply elem_of_app. right. by left.
      * right; right; left. apply elem_of_app. by left.
  - by apply queue_tracked_put_nowait.
  - by apply queue_tracked_get_nowait.
  - unfold Queue.task_done. destruct (_ <=? 0); [done|].
    destruct (_ =? 0); cbn [state_of fst snd]; [|done].
    unfold Event.set. destruct (negb _); [|done].
    eapply queue_tracked_weaken; [exact H| | |].
    + unfold set_result. apply length_futures_resolve.
    + intros f. unfold set_result. apply done_resolve_back.
    + by intros f _ Hin.
  - unfold Queue.fire.
    destruct (take_timeout h w) as [[g w1]|] eqn:E; [|done].
    cbn [fst snd]. eapply queue_tracked_weaken; [exact H| | |].
    + unfold set_exception. rewrite length_futures_resolve.
      by rewrite (futures_take_timeout _ _ _ _ E).
    + intros f Hd. unfold set_exception in Hd.
      apply done_resolve_back in Hd.
      by rewrite (done_take_timeout _ _ _ _ f E) in Hd.
    + by intros f _ Hin.
Qed.

Lemma queue_tracked_run b cs (s : Queue.t A * World A) :
  queue_wf (fst s) (snd s) →
  queue_inv (fst s) →
  queue_tracked b [] (fst s) (snd s) →
  queue_tracked b [] (fst (queue_run cs s)) (snd (queue_run cs s)).
Proof.
  revert s. induction cs as [|c cs IH]; intros s Hwf Hinv H; [done|].
  unfold queue_run in *. cbn [foldl]. apply IH.
  - by apply queue_wf_step.
  - by apply queue_inv_step.
  - by apply queue_tracked_step.
Qed.

(** X21: a queue loses no waiter.  After any sequence of calls on a new
    queue, a future made since the constructor that is not done is the
    future of the [_finished] event or is still in [_getters] or
    [_putters]: neither [_consume_expired] nor a hand-over drops a
    consumer or producer that still waits. *)
Theorem X21_pending_queue_future_is_queued maxsize w self0 w0 cs f :
  Queue.__init__ maxsize w = Return self0 w0 →
  let q := fst (queue_run cs (self0, w0)) in
  let w1 := snd (queue_run cs (self0, w0)) in
  (length (futures w0) <= f < length (futures w1))%nat →
  done f w1 = false →
  f = Event._future (Queue._finished q)
  ∨ f ∈ Queue._getters q
  ∨ f ∈ (snd <$> Queue._putters q).
Proof.
  intros Hinit q w1 Hf Hd.
  destruct (queue_tracked_run (length (futures w0)) cs (self0, w0))
    with (f := f) as [Hin|H]; [| | |exact Hf|exact Hd| |done].
  - by apply (queue_wf___init__ maxsize w).
  - by apply (queue_inv___init__ maxsize w self0 w0).
  - intros g Hg. cbn [snd] in Hg. lia.
  - by apply elem_of_nil in Hin.
Qed.

End QueueTracked.

Lemma X21_pending_queue_future_is_queued_witness :
  4%nat = Event._future (Queue._finished (fst waiting_queue))
  ∨ 4%nat ∈ Queue._getters (fst waiting_queue)
  ∨ 4%nat ∈ (snd <$> Queue._putters (fst waiting_queue)).
Proof.
  apply (X21_pending_queue_future_is_queued (M:=Queue.methods)
           (L:=Queue_methods_laws) (Some 1) World_empty
           (fst (new_queue Queue.methods 1)) (snd (new_queue Queue.methods 1))
           [QGet (TDelta 3); QPut 1 TNone; QPut 2 (TDelta 4);
            QPut 3 (TDelta 5); QPut 4 (TDelta 6); QGet TNone] 4).
  - reflexivity.
  - vm_compute. lia.
  - reflexivity.
Defined.


(** * A released permit goes to a waiter if there is one *)

Section ReleaseProgress.
Context {A : Type}.
Import TimeoutGarbageCollector.
Implicit Types (w : World A) (self : Semaphore.t) (f g : nat).
Implicit Types (s : Semaphore.t * World A).

Lemma idle_waiters_run cs s :
  (0 < Semaphore._value (fst s) →
   Forall (λ f, done f (snd s) = true) (_waiters (Semaphore.base (fst s)))) →
  0 < Semaphore._value (fst (semaphore_run cs s)) →
  Forall (λ f, done f (snd (semaphore_run cs s)) = true)
    (_waiters (Semaphore.base (fst (semaphore_run cs s)))).
Proof.
  revert s. induction cs as [|c cs IH]; intros s H; [done|].
  unfold semaphore_run in *. cbn [foldl]. apply IH.
  by apply idle_waiters_step.
Qed.

(** X22: a released permit goes to a waiter if there is one.  In every
    state reached from [Semaphore(value)], [release] either finds the
    first waiter that is not done, resolves it with a
    [_ReleasingContextManager] and leaves the counter at 0, or finds
    that every future handed out by [acquire] is done, empties the list,
    leaves the world as it is and adds one to the counter. *)
Theorem X22_release_serves_a_pending_acquire (value : Z) self0 w cs :
  Semaphore.__init__ value = inr self0 →
  let s := semaphore_run cs (self0, w) in
  let s' := Semaphore.release (fst s) (snd s) in
  (∃ stale f,
     _waiters (Semaphore.base (fst s))
     = stale ++ f :: _waiters (Semaphore.base (fst s'))
     ∧ Forall (λ g, done g (snd s) = true) stale
     ∧ done f (snd s) = false
     ∧ outcome_of f (snd s') = Some (Result VReleasingContextManager)
     ∧ Semaphore._value (fst s) = 0
     ∧ Semaphore._value (fst s') = 0)
  ∨ ((∀ f, (length (futures w) <= f < length (futures (snd s)))%nat →
           done f (snd s) = true)
     ∧ _waiters (Semaphore.base (fst s')) = []
     ∧ snd s' = snd s
     ∧ Semaphore._value (fst s') = Semaphore._value (fst s) + 1).
Proof.
  intros Hinit. unfold Semaphore.__init__ in Hinit.
  destruct (value <? 0) eqn:Hv; [done|]. injection Hinit as <-.
  apply Z.ltb_ge in Hv. cbn zeta.
  pose proof (waiters_wf_semaphore_run cs
                (Semaphore.mk TimeoutGarbageCollector.__init__ value, w)
                ltac:(split; constructor)) as [_ Hvalid].
  pose proof (semaphore_run_value cs
                (Semaphore.mk TimeoutGarbageCollector.__init__ value, w) Hv)
    as Hpos.
  pose proof (idle_waiters_run cs
                (Semaphore.mk TimeoutGarbageCollector.__init__ value, w)
                ltac:(intros _; constructor)) as Hidle.
  destruct (tracked_semaphore_run (length (futures w)) cs
              (Semaphore.mk TimeoutGarbageCollector.__init__ value, w))
    as [_ Htr]; [split; constructor|done|apply tracked_nil|].
  destruct (semaphore_run cs _) as [self w1]. cbn [fst snd] in *.
  unfold Semaphore.release.
  destruct (first_live w1 (_waiters (Semaphore.base self)))
    as [Hs|(stale & f & rest & Heq & Hs & Hf)].
  - right. rewrite release_loop_stale by done. cbn [fst snd].
    split; [|done]. intros f Hf.
    destruct (done f w1) eqn:Hd; [done|].
    by rewrite (proj1 (Forall_forall _ _) Hs f (Htr f Hf Hd)) in Hd.
  - left. rewrite Heq, release_loop_live by done.
    cbn [fst snd Semaphore.base Semaphore._value _waiters].
    exists stale, f.
    assert (H0 : Semaphore._value self = 0).
    { destruct (Z.lt_total 0 (Semaphore._value self)) as [Hlt|[?|?]];
        [|done|lia].
      specialize (Hidle Hlt). rewrite Heq in Hidle.
      apply Forall_app in Hidle as [_ Hidle].
      apply Forall_cons in Hidle as [Hidle _]. by rewrite Hidle in Hf. }
    split; [done|]. split; [done|]. split; [done|]. split; [|lia].
    unfold set_result. apply outcome_of_resolve_pending.
    split; [|by apply done_false_outcome].
    apply (proj1 (Forall_forall _ _) Hvalid). rewrite Heq.
    apply elem_of_app. right. by left.
Qed.

End ReleaseProgress.

Lemma X22_release_serves_a_pending_acquire_witness :
  let s := awaited_semaphore in
  let s' := Semaphore.release (fst s) (snd s) in
  (∃ stale f,
     TimeoutGarbageCollector._waiters (Semaphore.base (fst s))
     = stale ++ f :: TimeoutGarbageCollector._waiters (Semaphore.base (fst s'))
     ∧ Forall (λ g, done g (snd s) = true) stale
     ∧ done f (snd s) = false
     ∧ outcome_of f (snd s') = Some (Result VReleasingContextManager)
     ∧ Semaphore._value (fst s) = 0
     ∧ Semaphore._value (fst s') = 0)
  ∨ ((∀ f, (length (futures (World_empty (A:=unit))) <= f
            < length (futures (snd s)))%nat →
           done f (snd s) = true)
     ∧ TimeoutGarbageCollector._waiters (Semaphore.base (fst s')) = []
     ∧ snd s' = snd s
     ∧ Semaphore._value (fst s') = Semaphore._value (fst s) + 1).
Proof.
  apply (X22_release_serves_a_pending_acquire (A:=unit) 2
           (Semaphore.mk TimeoutGarbageCollector.__init__ 2) World_empty
           [SAcquire TNone; SAcquire TNone; SAcquire (TDelta 1);
            SAcquire TNone; SFire 0]).
  reflexivity.
Defined.
